(** * InfiniteCache: the block-paginated row cache of the infinite row model

    A shallow embedding of [src/ts/rowModels/infinite/infiniteCache.ts].
    The cache object becomes a record that every method takes and returns;
    [eventService.dispatchEvent] appends to an event log kept in that record.

    The base class [RowNodeCache], the block class [InfiniteBlock] and the
    utilities are not part of the sources at hand.  What the cache calls on
    them is modelled from the specification; each such definition says so in
    its comment. *)

From stdpp Require Import base list numbers sorting.

Local Open Scope Z_scope.

(** ** Row identities and notifications *)

(** Data items are opaque to the cache ([any] in the source). *)
Definition DataItem := Z.

(** A slot of a block holds a blank placeholder or a row identity.  A row
    identity is made once, by [setNewData] or by a load, under a fresh [id]. *)
Inductive RowNode : Type :=
| BlankRow
| Row (id : nat) (data : DataItem).

Inductive Event : Type :=
| EVENT_MODEL_UPDATED
| EVENT_ITEMS_ADDED (newNodes : list RowNode).

Global Instance RowNode_eq_dec : EqDecision RowNode.
Proof. solve_decision. Defined.

Global Instance Event_eq_dec : EqDecision Event.
Proof. solve_decision. Defined.

(** ** Blocks *)

Inductive BlockState : Type := NotLoaded | Loading | Loaded.

Global Instance BlockState_eq_dec : EqDecision BlockState.
Proof. solve_decision. Defined.

(** [blockObj] is the identity of the JavaScript object: two blocks made by
    two [new InfiniteBlock] calls differ in it even under one page number. *)
Record InfiniteBlock : Type := mkBlock {
  blockObj : nat;
  pageNumber : Z;
  rowNodes : list RowNode;
  state : BlockState;
  dirty : bool;
  lastAccessed : Z
}.

Record RowNodeCacheParams : Type := mkParams {
  pageSize : Z;
  maxBlocksInCache : option Z
}.

(** ** The cache *)

(** [blocks] is the block map in its iteration order; the key of a block is
    its own page number.  [loadListeners] lists the block objects on which
    [onPageLoaded] is registered, [pendingLoads] the block objects with a
    datasource request in flight, [pageLoadedCalls] the calls of the
    listener so far. *)
Record InfiniteCache : Type := mkCache {
  cacheParams : RowNodeCacheParams;
  blocks : list InfiniteBlock;
  virtualRowCount : Z;
  maxRowFound : bool;
  active : bool;
  lastAccessedSequence : Z;
  nextRowId : nat;
  nextBlockObj : nat;
  loadListeners : list nat;
  pendingLoads : list nat;
  pageLoadedCalls : list nat;
  events : list Event
}.

Definition set_blocks (bs : list InfiniteBlock) (s : InfiniteCache) : InfiniteCache :=
  mkCache (cacheParams s) bs (virtualRowCount s) (maxRowFound s) (active s)
    (lastAccessedSequence s) (nextRowId s) (nextBlockObj s) (loadListeners s)
    (pendingLoads s) (pageLoadedCalls s) (events s).

Definition set_lastAccessedSequence (n : Z) (s : InfiniteCache) : InfiniteCache :=
  mkCache (cacheParams s) (blocks s) (virtualRowCount s) (maxRowFound s) (active s)
    n (nextRowId s) (nextBlockObj s) (loadListeners s)
    (pendingLoads s) (pageLoadedCalls s) (events s).

Definition set_nextRowId (n : nat) (s : InfiniteCache) : InfiniteCache :=
  mkCache (cacheParams s) (blocks s) (virtualRowCount s) (maxRowFound s) (active s)
    (lastAccessedSequence s) n (nextBlockObj s) (loadListeners s)
    (pendingLoads s) (pageLoadedCalls s) (events s).

Definition set_nextBlockObj (n : nat) (s : InfiniteCache) : InfiniteCache :=
  mkCache (cacheParams s) (blocks s) (virtualRowCount s) (maxRowFound s) (active s)
    (lastAccessedSequence s) (nextRowId s) n (loadListeners s)
    (pendingLoads s) (pageLoadedCalls s) (events s).

Definition set_loadListeners (l : list nat) (s : InfiniteCache) : InfiniteCache :=
  mkCache (cacheParams s) (blocks s) (virtualRowCount s) (maxRowFound s) (active s)
    (lastAccessedSequence s) (nextRowId s) (nextBlockObj s) l
    (pendingLoads s) (pageLoadedCalls s) (events s).

Definition set_pendingLoads (l : list nat) (s : InfiniteCache) : InfiniteCache :=
  mkCache (cacheParams s) (blocks s) (virtualRowCount s) (maxRowFound s) (active s)
    (lastAccessedSequence s) (nextRowId s) (nextBlockObj s) (loadListeners s)
    l (pageLoadedCalls s) (events s).

Definition set_pageLoadedCalls (l : list nat) (s : InfiniteCache) : InfiniteCache :=
  mkCache (cacheParams s) (blocks s) (virtualRowCount s) (maxRowFound s) (active s)
    (lastAccessedSequence s) (nextRowId s) (nextBlockObj s) (loadListeners s)
    (pendingLoads s) l (events s).

Definition set_events (l : list Event) (s : InfiniteCache) : InfiniteCache :=
  mkCache (cacheParams s) (blocks s) (virtualRowCount s) (maxRowFound s) (active s)
    (lastAccessedSequence s) (nextRowId s) (nextBlockObj s) (loadListeners s)
    (pendingLoads s) (pageLoadedCalls s) l.

(** ** InfiniteBlock, as the cache uses it *)

(** Modelled from the spec: [getStartRow] of [InfiniteBlock], which is
    missing from the sources; "startRow = blockNumber * pageSize". *)
Definition getStartRow (p : RowNodeCacheParams) (blockNumber : Z) : Z :=
  blockNumber * pageSize p.

(** Modelled from the spec: [getEndRow] of the missing [InfiniteBlock];
    "endRow = startRow + pageSize (exclusive)". *)
Definition getEndRow (p : RowNodeCacheParams) (blockNumber : Z) : Z :=
  getStartRow p blockNumber + pageSize p.

(** Modelled from the spec: the constructor of [InfiniteBlock] is missing.
    A block "starts NotLoaded", has [pageSize] slots, none of which holds
    data before a load, and has not been accessed. *)
Definition new_InfiniteBlock (obj : nat) (blockNumber : Z) (p : RowNodeCacheParams)
  : InfiniteBlock :=
  mkBlock obj blockNumber (replicate (Z.to_nat (pageSize p)) BlankRow) NotLoaded false 0.

(** Modelled from the spec: "slot i corresponds to absolute row index
    startRow + i".  Reading outside the slots gives no row. *)
Definition slotOf (p : RowNodeCacheParams) (b : InfiniteBlock) (rowIndex : Z)
  : option RowNode :=
  let localIndex := rowIndex - getStartRow p (pageNumber b) in
  if localIndex <? 0 then None else rowNodes b !! Z.to_nat localIndex.

(** Modelled from the spec: the write of one slot of the missing
    [InfiniteBlock], as [setRowNode], [setBlankRowNode] and [setNewData] do
    it: the "direct slot mutation" at "slot i" for "absolute row index
    startRow + i".  The cache only writes positions of the block itself. *)
Definition writeSlot (p : RowNodeCacheParams) (rowIndex : Z) (node : RowNode)
    (b : InfiniteBlock) : InfiniteBlock :=
  let localIndex := rowIndex - getStartRow p (pageNumber b) in
  if localIndex <? 0 then b
  else mkBlock (blockObj b) (pageNumber b) (<[Z.to_nat localIndex := node]> (rowNodes b))
         (state b) (dirty b) (lastAccessed b).

(** Modelled from the spec: [setDirty] of the missing [InfiniteBlock] sets
    the flag [dirty], "forcing a reload". *)
Definition markDirty (b : InfiniteBlock) : InfiniteBlock :=
  mkBlock (blockObj b) (pageNumber b) (rowNodes b) (state b) true (lastAccessed b).

(** Modelled from the spec: a transition of the load state of the missing
    [InfiniteBlock], "NotLoaded → Loading → Loaded". *)
Definition markState (st : BlockState) (b : InfiniteBlock) : InfiniteBlock :=
  mkBlock (blockObj b) (pageNumber b) (rowNodes b) st (dirty b) (lastAccessed b).

(** Modelled from the spec: the "access bump" of the missing
    [InfiniteBlock]; [lastAccessed] is a "monotonically increasing
    counter/timestamp, updated whenever a row is read from this block". *)
Definition markAccessed (stamp : Z) (b : InfiniteBlock) : InfiniteBlock :=
  mkBlock (blockObj b) (pageNumber b) (rowNodes b) (state b) (dirty b) stamp.

(** Modelled from the spec: a block is due for a load "on first access (or
    dirty access) while not already Loading". *)
Definition needsLoad (b : InfiniteBlock) : bool :=
  match state b with
  | Loading => false
  | NotLoaded => true
  | Loaded => dirty b
  end.

(** ** RowNodeCache, as the cache uses it *)

(** Modelled from the spec: [getBlock] of the base class [RowNodeCache],
    which is missing from the sources; "blocks: mapping from block number to
    Block (unique keys)". *)
Definition getBlock (s : InfiniteCache) (blockId : Z) : option InfiniteBlock :=
  find (fun b => pageNumber b =? blockId) (blocks s).

(** A resident block is referred to by its number.  [updateBlock] is the
    mutation of that object through any reference to it. *)
Definition updateBlock (blockId : Z) (f : InfiniteBlock -> InfiniteBlock)
    (s : InfiniteCache) : InfiniteCache :=
  set_blocks (map (fun b => if pageNumber b =? blockId then f b else b) (blocks s)) s.

(** Modelled from the spec: [setBlock] of the missing base class "inserts
    it into blocks".  Assigning to a key that is present keeps its place in
    the iteration order; a new key goes last. *)
Definition setBlock (blockNumber : Z) (newBlock : InfiniteBlock) (s : InfiniteCache)
  : InfiniteCache :=
  match getBlock s blockNumber with
  | Some _ =>
      set_blocks (map (fun b => if pageNumber b =? blockNumber then newBlock else b)
                    (blocks s)) s
  | None => set_blocks (blocks s ++ [newBlock]) s
  end.

(** Modelled from the spec: [removeBlock] of the missing base class
    "removes it from blocks". *)
Definition removeBlock (blockNumber : Z) (s : InfiniteCache) : InfiniteCache :=
  set_blocks (filter (fun b => pageNumber b ≠ blockNumber) (blocks s)) s.

(** Modelled from the spec: [getBlockCount] of the missing base class, the
    "resident count". *)
Definition getBlockCount (s : InfiniteCache) : Z := Z.of_nat (length (blocks s)).

(** Modelled from the spec: the accessors of the missing base class for
    "maxRowFound: whether the true end of the dataset has been observed". *)
Definition isMaxRowFound (s : InfiniteCache) : bool := maxRowFound s.

(** Modelled from the spec: the accessors of the missing base class for
    "virtualRowCount: best current estimate of total row count". *)
Definition getVirtualRowCount (s : InfiniteCache) : Z := virtualRowCount s.

(** Modelled from the spec: [isActive] of the missing base class reads the
    "external activity flag" that gates the model-updated notification. *)
Definition isActive (s : InfiniteCache) : bool := active s.

(** Modelled from the spec: the setter of the missing base class for
    [virtualRowCount]. *)
Definition hack_setVirtualRowCount (n : Z) (s : InfiniteCache) : InfiniteCache :=
  mkCache (cacheParams s) (blocks s) n (maxRowFound s) (active s)
    (lastAccessedSequence s) (nextRowId s) (nextBlockObj s) (loadListeners s)
    (pendingLoads s) (pageLoadedCalls s) (events s).

(** Modelled from the spec: [forEachBlockInOrder] of the missing base
    class.  The LRU scan goes over the block map in its "insertion/iteration
    order ..., not row order". *)
Definition forEachBlockInOrder (s : InfiniteCache) : list InfiniteBlock := blocks s.

(** Modelled from the spec: the block numbers in ascending order, for the
    "explicit sort-then-iterate step" of the missing base class. *)
Definition getBlockIdsSorted (s : InfiniteCache) : list Z :=
  merge_sort Z.le (map pageNumber (blocks s)).

(** Modelled from the spec: [forEachBlockInReverseOrder] of the missing base
    class; the insertion visits "every resident block in descending
    block-number order".  The callback gets the block by its number. *)
Definition forEachBlockInReverseOrder (s : InfiniteCache) : list Z :=
  reverse (getBlockIdsSorted s).

(** Modelled from the spec: the event service is missing, an external
    "Notification Sink"; what is dispatched is appended to the log. *)
Definition dispatchEvent (e : Event) (s : InfiniteCache) : InfiniteCache :=
  set_events (events s ++ [e]) s.

(** ** Loading *)

(** Modelled from the spec: the load pipeline of the block is missing.
    Starting a load is to "issue a fetch request to the Datasource for this
    block's row range; transition to Loading". *)
Definition load (blockId : Z) (s : InfiniteCache) : InfiniteCache :=
  match getBlock s blockId with
  | None => s
  | Some b =>
      set_pendingLoads (pendingLoads s ++ [blockObj b])
        (updateBlock blockId (markState Loading) s)
  end.

(** Modelled from the spec: [checkBlockToLoad] of the base class is missing.
    It "kicks off loading for any block still NotLoaded/dirty"; which blocks
    are in view is the presentation layer's matter and every resident block
    is taken to be. *)
Definition checkBlockToLoad (s : InfiniteCache) : InfiniteCache :=
  fold_left (fun s' b => if needsLoad b then load (pageNumber b) s' else s')
    (blocks s) s.

(** Modelled from the spec: the rows a finished fetch leaves in a block.
    "rows beyond the returned item count ... become permanently blank". *)
Fixpoint populate (firstId : nat) (slots : nat) (items : list DataItem) : list RowNode :=
  match slots with
  | O => []
  | S slots' =>
      match items with
      | [] => BlankRow :: populate firstId slots' []
      | item :: items' => Row firstId item :: populate (S firstId) slots' items'
      end
  end.

(** Modelled from the spec: "on fetch success: populate row identities for
    returned items ...; clear dirty; transition to Loaded". *)
Definition loadSucceeded (firstId : nat) (items : list DataItem) (b : InfiniteBlock)
  : InfiniteBlock :=
  mkBlock (blockObj b) (pageNumber b) (populate firstId (length (rowNodes b)) items)
    Loaded false (lastAccessed b).

(** Modelled from the spec: a request that is answered is in flight no
    more; one entry of the pending loads goes. *)
Fixpoint removeFirst (obj : nat) (l : list nat) : list nat :=
  match l with
  | [] => []
  | x :: l' => if Nat.eqb x obj then l' else x :: removeFirst obj l'
  end.

(** Modelled from the spec: the datasource answers a pending request, with
    the items ([Some]) or with a failure ([None]); "exactly one of the two
    callbacks fires exactly once per request".  The block object, resident or
    not, takes the result and then notifies every listener registered on it;
    the listener is the cache's [onPageLoaded], whose calls are logged. *)
Definition fetchResolves (obj : nat) (result : option (list DataItem))
    (s : InfiniteCache) : InfiniteCache :=
  if bool_decide (obj ∈ pendingLoads s) then
    let s1 := set_pendingLoads (removeFirst obj (pendingLoads s)) s in
    let s2 :=
      match result with
      | Some items =>
          set_nextRowId (nextRowId s1 + length items)%nat
            (set_blocks
               (map (fun b => if Nat.eqb (blockObj b) obj
                              then loadSucceeded (nextRowId s1) items b else b)
                  (blocks s1)) s1)
      | None =>
          set_blocks
            (map (fun b => if Nat.eqb (blockObj b) obj then markState Loaded b else b)
               (blocks s1)) s1
      end in
    set_pageLoadedCalls
      (pageLoadedCalls s2 ++ filter (fun l => l = obj) (loadListeners s2)) s2
  else s.

(** ** Block methods, called through the cache's reference to the block *)

(** Modelled from the spec: [InfiniteBlock.getRow] is missing.  It returns
    the slot at [rowIndex], "updates the block's lastAccessed" and "may
    trigger a load ... if the block has never loaded or is dirty". *)
Definition block_getRow (blockId rowIndex : Z) (s : InfiniteCache)
  : option RowNode * InfiniteCache :=
  match getBlock s blockId with
  | None => (None, s)
  | Some b =>
      let stamp := lastAccessedSequence s + 1 in
      let s1 := set_lastAccessedSequence stamp
                  (updateBlock blockId (markAccessed stamp) s) in
      (slotOf (cacheParams s) b rowIndex,
       if needsLoad b then load blockId s1 else s1)
  end.

(** Modelled from the spec: "setRowNode(pos, identity) ...: direct slot
    mutation used only by the Cache's shifting algorithm". *)
Definition setRowNode (page rowIndex : Z) (rowNode : RowNode) (s : InfiniteCache)
  : InfiniteCache :=
  updateBlock page (writeSlot (cacheParams s) rowIndex rowNode) s.

(** Modelled from the spec: "setBlankRowNode(pos)" writes "a blank
    placeholder" to the slot. *)
Definition setBlankRowNode (page rowIndex : Z) (s : InfiniteCache) : InfiniteCache :=
  updateBlock page (writeSlot (cacheParams s) rowIndex BlankRow) s.

(** Modelled from the spec: [setDirty] of the missing [InfiniteBlock], on
    the block that the cache refers to. *)
Definition setDirty (page : Z) (s : InfiniteCache) : InfiniteCache :=
  updateBlock page markDirty s.

(** Modelled from the spec: [setNewData] is to "materialize a fresh row
    identity carrying that item's data at the target slot, replacing whatever
    is there". *)
Definition setNewData (page rowIndex : Z) (dataItem : DataItem) (s : InfiniteCache)
  : RowNode * InfiniteCache :=
  let newRowNode := Row (nextRowId s) dataItem in
  (newRowNode,
   set_nextRowId (S (nextRowId s))
     (updateBlock page (writeSlot (cacheParams s) rowIndex newRowNode) s)).

(** ** InfiniteCache, from the source *)

(** [dispatchModelUpdated], lines 175-179. *)
Definition dispatchModelUpdated (s : InfiniteCache) : InfiniteCache :=
  if isActive s then dispatchEvent EVENT_MODEL_UPDATED s else s.

(** [removeBlockFromCache], lines 144-154: nothing but [removeBlock]. *)
Definition removeBlockFromCache (pageToRemove : option InfiniteBlock) (s : InfiniteCache)
  : InfiniteCache :=
  match pageToRemove with
  | None => s
  | Some page => removeBlock (pageNumber page) s
  end.

(** One call of the callback of [findLeastRecentlyUsedPage]; [===] on
    blocks is the comparison of the objects. *)
Definition lruStep (pageToExclude : InfiniteBlock) (lruPage : option InfiniteBlock)
    (block : InfiniteBlock) : option InfiniteBlock :=
  if Nat.eqb (blockObj block) (blockObj pageToExclude) then lruPage
  else
    match lruPage with
    | None => Some block
    | Some lru =>
        if lastAccessed block <? lastAccessed lru then Some block else lruPage
    end.

(** [findLeastRecentlyUsedPage], lines 156-173. *)
Definition findLeastRecentlyUsedPage (pageToExclude : InfiniteBlock) (s : InfiniteCache)
  : option InfiniteBlock :=
  fold_left (lruStep pageToExclude) (forEachBlockInOrder s) None.

(** [_.exists(maxBlocksInCache) && getBlockCount() > maxBlocksInCache]. *)
Definition needToPurge (s : InfiniteCache) : bool :=
  match maxBlocksInCache (cacheParams s) with
  | Some m => m <? getBlockCount s
  | None => false
  end.

(** [createBlock], lines 123-142.  [wireBean] has no part in the state. *)
Definition createBlock (blockNumber : Z) (s : InfiniteCache) : InfiniteCache :=
  let newBlock := new_InfiniteBlock (nextBlockObj s) blockNumber (cacheParams s) in
  let s1 := set_nextBlockObj (S (nextBlockObj s)) s in
  let s2 := set_loadListeners (loadListeners s1 ++ [blockObj newBlock]) s1 in
  let s3 := setBlock blockNumber newBlock s2 in
  let s4 := if needToPurge s3
            then removeBlockFromCache (findLeastRecentlyUsedPage newBlock s3) s3
            else s3 in
  checkBlockToLoad s4.

(** [getRow], lines 108-121.  [dontCreatePage] defaults to [false]. *)
Definition getRow (rowIndex : Z) (dontCreatePage : bool) (s : InfiniteCache)
  : option RowNode * InfiniteCache :=
  let blockId := rowIndex / pageSize (cacheParams s) in
  match getBlock s blockId with
  | Some _ => block_getRow blockId rowIndex s
  | None =>
      if dontCreatePage then (None, s)
      else block_getRow blockId rowIndex (createBlock blockId s)
  end.

(** The absolute row positions of a block from its last down to its first:
    the values [currentRowIndex] takes in [moveItemsDown]. *)
Fixpoint rowsDownFrom (last : Z) (count : nat) : list Z :=
  match count with
  | O => []
  | S count' => last :: rowsDownFrom (last - 1) count'
  end.

(** The body of the loop of [moveItemsDown], lines 42-55. *)
Definition moveItemsDown_body (page indexOfLastRowToMove moveCount : Z)
    (s : InfiniteCache) (currentRowIndex : Z) : InfiniteCache :=
  if currentRowIndex <? indexOfLastRowToMove then s
  else
    let indexOfNodeWeWant := currentRowIndex - moveCount in
    let (nodeForThisIndex, s1) := getRow indexOfNodeWeWant true s in
    match nodeForThisIndex with
    | Some node => setRowNode page currentRowIndex node s1
    | None => setDirty page (setBlankRowNode page currentRowIndex s1)
    end.

(** [moveItemsDown], lines 35-57. *)
Definition moveItemsDown (page moveFromIndex moveCount : Z) (s : InfiniteCache)
  : InfiniteCache :=
  let startRow := getStartRow (cacheParams s) page in
  let endRow := getEndRow (cacheParams s) page in
  let indexOfLastRowToMove := moveFromIndex + moveCount in
  fold_left (moveItemsDown_body page indexOfLastRowToMove moveCount)
    (rowsDownFrom (endRow - 1) (Z.to_nat (endRow - startRow))) s.

(** The loop of [insertItems], lines 65-75, from [index] on. *)
Fixpoint insertItems_loop (block indexToInsert index : Z) (items : list DataItem)
    (newRowNodes : list RowNode) (s : InfiniteCache) : list RowNode * InfiniteCache :=
  match items with
  | [] => (newRowNodes, s)
  | dataItem :: items' =>
      let rowIndex := indexToInsert + index in
      let currentRowInThisPage :=
        (getStartRow (cacheParams s) block <=? rowIndex)
        && (rowIndex <? getEndRow (cacheParams s) block) in
      if currentRowInThisPage then
        let (newRowNode, s1) := setNewData block rowIndex dataItem s in
        insertItems_loop block indexToInsert (index + 1) items'
          (newRowNodes ++ [newRowNode]) s1
      else insertItems_loop block indexToInsert (index + 1) items' newRowNodes s
  end.

(** [insertItems], lines 59-78. *)
Definition insertItems (block indexToInsert : Z) (items : list DataItem)
    (s : InfiniteCache) : list RowNode * InfiniteCache :=
  insertItems_loop block indexToInsert 0 items [] s.

(** The callback that [insertItemsAtIndex] hands to
    [forEachBlockInReverseOrder], lines 84-95. *)
Definition insertItemsAtIndex_block (indexToInsert : Z) (items : list DataItem)
    (acc : list RowNode * InfiniteCache) (block : Z) : list RowNode * InfiniteCache :=
  let (newNodes, s) := acc in
  let pageEndRow := getEndRow (cacheParams s) block in
  if pageEndRow <=? indexToInsert then (newNodes, s)
  else
    let s1 := moveItemsDown block indexToInsert (Z.of_nat (length items)) s in
    let (newNodesThisPage, s2) := insertItems block indexToInsert items s1 in
    (newNodes ++ newNodesThisPage, s2).

(** [insertItemsAtIndex], lines 80-103. *)
Definition insertItemsAtIndex (indexToInsert : Z) (items : list DataItem)
    (s : InfiniteCache) : InfiniteCache :=
  let (newNodes, s1) :=
    fold_left (insertItemsAtIndex_block indexToInsert items)
      (forEachBlockInReverseOrder s) ([], s) in
  let s2 := if isMaxRowFound s1
            then hack_setVirtualRowCount
                   (getVirtualRowCount s1 + Z.of_nat (length items)) s1
            else s1 in
  dispatchEvent (EVENT_ITEMS_ADDED newNodes) (dispatchModelUpdated s2).

(** [refreshCache], lines 181-184. *)
Definition refreshCache (s : InfiniteCache) : InfiniteCache :=
  checkBlockToLoad
    (fold_left (fun s' b => setDirty (pageNumber b) s') (forEachBlockInOrder s) s).

(** [purgeCache], lines 186-189. *)
Definition purgeCache (s : InfiniteCache) : InfiniteCache :=
  dispatchModelUpdated
    (fold_left (fun s' b => removeBlockFromCache (Some b) s') (forEachBlockInOrder s) s).

(** Modelled from the spec: the constructor of the base class is missing.
    A cache starts with no block, an estimate of zero rows (the comment of
    [init]: "the virtualRowCount will remain at 0 otherwise"), the end of
    the data not found, and active. *)
Definition new_InfiniteCache (params : RowNodeCacheParams) : InfiniteCache :=
  mkCache params [] 0 false true 0 0 0 [] [] [] [].

(** [init], lines 28-33, run once after construction. *)
Definition init (s : InfiniteCache) : InfiniteCache := snd (getRow 0 false s).

(** * The vocabulary of the properties *)

(** ** Views of a cache *)

(** The numbers of the resident blocks, in the order of the block map. *)
Definition keys (s : InfiniteCache) : list Z := map pageNumber (blocks s).

(** The parameters, and the number and the slot count of every block. *)
Definition shape (s : InfiniteCache) : RowNodeCacheParams * list (Z * nat) :=
  (cacheParams s, map (fun b => (pageNumber b, length (rowNodes b))) (blocks s)).

(** Everything the insertion leaves alone but the row counter: the row
    count estimate, the flags and the notifications sent. *)
Definition scalars (s : InfiniteCache) : Z * bool * bool * list Event :=
  (virtualRowCount s, maxRowFound s, active s, events s).

(** A well-formed cache: a positive page size, one block per number, and
    [pageSize] slots in every block. *)
Definition wf (s : InfiniteCache) : Prop :=
  0 < pageSize (cacheParams s)
  ∧ NoDup (keys s)
  ∧ Forall (fun b => length (rowNodes b) = Z.to_nat (pageSize (cacheParams s))) (blocks s).

(** The row at an absolute position, if its block is resident. *)
Definition slot (s : InfiniteCache) (rowIndex : Z) : option RowNode :=
  match getBlock s (rowIndex / pageSize (cacheParams s)) with
  | Some b => slotOf (cacheParams s) b rowIndex
  | None => None
  end.

(** The block map has a block under the number. *)
Definition resident (s : InfiniteCache) (blockId : Z) : Prop :=
  is_Some (getBlock s blockId).

(** The dirty flag of a resident block. *)
Definition dirtyAt (s : InfiniteCache) (blockId : Z) : bool :=
  match getBlock s blockId with
  | Some b => dirty b
  | None => false
  end.

(** ** Relations between two states *)

(** [edits t F s s']: [s'] has the parameters of [s], and its blocks are
    those of [s] with [F] applied to block [t]. *)
Definition edits (t : Z) (F : InfiniteBlock -> InfiniteBlock) (s s' : InfiniteCache)
  : Prop :=
  cacheParams s' = cacheParams s ∧ blocks s' = blocks (updateBlock t F s).

(** The block edits that keep the number and the slot count. *)
Definition keepsShape (F : InfiniteBlock -> InfiniteBlock) : Prop :=
  ∀ b, pageNumber (F b) = pageNumber b ∧ length (rowNodes (F b)) = length (rowNodes b).

(** The block edits that keep the rows and the dirty flag as well. *)
Definition keepsData (F : InfiniteBlock -> InfiniteBlock) : Prop :=
  ∀ b, pageNumber (F b) = pageNumber b ∧ rowNodes (F b) = rowNodes b
       ∧ dirty (F b) = dirty b.

(** [frame s s']: the parameters, the row count estimate, the flags and the
    notifications are those of [s]. *)
Definition frame (s s' : InfiniteCache) : Prop :=
  cacheParams s' = cacheParams s ∧ scalars s' = scalars s.

(** Two blocks that differ at most in their load state. *)
Definition sameButState (b b' : InfiniteBlock) : Prop :=
  blockObj b' = blockObj b ∧ pageNumber b' = pageNumber b
  ∧ rowNodes b' = rowNodes b ∧ dirty b' = dirty b
  ∧ lastAccessed b' = lastAccessed b.

(** [quiet s s']: from [s] to [s'] only load states and the list of the
    pending loads have changed. *)
Definition quiet (s s' : InfiniteCache) : Prop :=
  cacheParams s' = cacheParams s
  ∧ Forall2 sameButState (blocks s) (blocks s')
  ∧ scalars s' = scalars s
  ∧ nextRowId s' = nextRowId s
  ∧ nextBlockObj s' = nextBlockObj s
  ∧ loadListeners s' = loadListeners s
  ∧ pageLoadedCalls s' = pageLoadedCalls s.

(** ** The payload of the items-added notification *)

(** The inserted items whose target position, [indexToInsert + index] for
    the item at [index], lies in the block; in their order. *)
Fixpoint itemsInBlock (p : RowNodeCacheParams) (block indexToInsert index : Z)
    (items : list DataItem) : list DataItem :=
  match items with
  | [] => []
  | dataItem :: items' =>
      let rowIndex := indexToInsert + index in
      if (getStartRow p block <=? rowIndex) && (rowIndex <? getEndRow p block)
      then dataItem :: itemsInBlock p block indexToInsert (index + 1) items'
      else itemsInBlock p block indexToInsert (index + 1) items'
  end.

(** Row identities made one after the other from [firstId] on. *)
Fixpoint freshRows (firstId : nat) (ds : list DataItem) : list RowNode :=
  match ds with
  | [] => []
  | d :: ds' => Row firstId d :: freshRows (S firstId) ds'
  end.

(** The items that find a resident block, block after block in the order of
    the visit. *)
Definition materialized (p : RowNodeCacheParams) (indexToInsert : Z)
    (items : list DataItem) (visit : list Z) : list DataItem :=
  flat_map (fun block => itemsInBlock p block indexToInsert 0 items) visit.

(** The items that the visit materializes, skipped blocks left out as the
    callback leaves them out. *)
Definition materializedBy (p : RowNodeCacheParams) (indexToInsert : Z)
    (items : list DataItem) (visit : list Z) : list DataItem :=
  flat_map (fun block => if getEndRow p block <=? indexToInsert then []
                         else itemsInBlock p block indexToInsert 0 items) visit.

(** ** The stages of [createBlock] and the least recently used block *)

(** The state of [createBlock] after [setBlock]. *)
Definition createBlock_inserted (blockNumber : Z) (s : InfiniteCache) : InfiniteCache :=
  setBlock blockNumber (new_InfiniteBlock (nextBlockObj s) blockNumber (cacheParams s))
    (set_loadListeners (loadListeners s ++ [nextBlockObj s])
       (set_nextBlockObj (S (nextBlockObj s)) s)).

(** The state of [createBlock] before [checkBlockToLoad]. *)
Definition createBlock_evicted (blockNumber : Z) (s : InfiniteCache) : InfiniteCache :=
  let newBlock := new_InfiniteBlock (nextBlockObj s) blockNumber (cacheParams s) in
  let s3 := createBlock_inserted blockNumber s in
  if needToPurge s3
  then removeBlockFromCache (findLeastRecentlyUsedPage newBlock s3) s3
  else s3.

(** The scan of [findLeastRecentlyUsedPage], over the blocks that are not
    the excluded one. *)
Definition candidates (pageToExclude : InfiniteBlock) (l : list InfiniteBlock)
  : list InfiniteBlock :=
  filter (fun b => blockObj b ≠ blockObj pageToExclude) l.

(** [firstLeast m l]: [m] is in [l], the blocks before it have a greater
    [lastAccessed] and the blocks after it none that is less. *)
Definition firstLeast (m : InfiniteBlock) (l : list InfiniteBlock) : Prop :=
  ∃ pre post, l = pre ++ m :: post
    ∧ Forall (fun b => lastAccessed m < lastAccessed b) pre
    ∧ Forall (fun b => lastAccessed m ≤ lastAccessed b) post.

(** ** Items and their target blocks *)

(** The items, in their order, whose target position lies in one of the
    blocks of [visit]; the first item has the target [rowIndex]. *)
Fixpoint itemsWithTargetIn (p : RowNodeCacheParams) (visit : list Z) (rowIndex : Z)
    (items : list DataItem) : list DataItem :=
  match items with
  | [] => []
  | d :: items' =>
      if bool_decide (rowIndex / pageSize p ∈ visit)
      then d :: itemsWithTargetIn p visit (rowIndex + 1) items'
      else itemsWithTargetIn p visit (rowIndex + 1) items'
  end.

(** No row identity is at two positions of the cache. *)
Definition rowsDistinct (s : InfiniteCache) : Prop :=
  ∀ r1 r2 id d1 d2,
    slot s r1 = Some (Row id d1) → slot s r2 = Some (Row id d2) → r1 = r2.

(** Every row identity in the cache was made before the counter of the row
    identities got to where it is. *)
Definition idsBelow (s : InfiniteCache) : Prop :=
  ∀ r id d, slot s r = Some (Row id d) → (id < nextRowId s)%nat.

(** Every block object in the cache was made before the counter of the
    block objects got to where it is. *)
Definition objsFresh (s : InfiniteCache) : Prop :=
  Forall (fun b => (blockObj b < nextBlockObj s)%nat) (blocks s).

(** [objsKept s s']: the block objects of [s'] are those of [s], in the
    same places of the block map, and no block object has been made. *)
Definition objsKept (s s' : InfiniteCache) : Prop :=
  map blockObj (blocks s') = map blockObj (blocks s)
  ∧ nextBlockObj s' = nextBlockObj s.

(** What holds of every cache in its history: it is well-formed, its block
    objects are older than the counter, and it keeps to a bound of at least
    one block. *)
Definition withinBound (s : InfiniteCache) : Prop :=
  wf s ∧ objsFresh s
  ∧ (∀ m, maxBlocksInCache (cacheParams s) = Some m → 1 ≤ m → getBlockCount s ≤ m).

(** ** Readers and histories *)

(** The rows that a reader gets who asks [getRow] for the positions, one
    after the other, with leave to create blocks as the renderer has. *)
Fixpoint getRows (positions : list Z) (s : InfiniteCache)
  : list (option RowNode) * InfiniteCache :=
  match positions with
  | [] => ([], s)
  | r :: positions' =>
      let (row, s1) := getRow r false s in
      let (rows, s2) := getRows positions' s1 in
      (row :: rows, s2)
  end.

(** The caches that the public operations and the answers of the
    datasource produce from a constructed and initialized cache. *)
Inductive reachable : InfiniteCache → Prop :=
| reachable_init params :
    0 < pageSize params → reachable (init (new_InfiniteCache params))
| reachable_getRow r dontCreatePage s :
    reachable s → reachable (snd (getRow r dontCreatePage s))
| reachable_insertItemsAtIndex idx items s :
    reachable s → reachable (insertItemsAtIndex idx items s)
| reachable_refreshCache s :
    reachable s → reachable (refreshCache s)
| reachable_purgeCache s :
    reachable s → reachable (purgeCache s)
| reachable_fetchResolves obj result s :
    reachable s → reachable (fetchResolves obj result s).

(** ** Example caches *)

(** Two resident blocks of two rows each, rows [r0 r1 | r2 r3], the end of
    the data known, no bound on the number of blocks. *)
Definition twoBlocks : InfiniteCache :=
  mkCache (mkParams 2 None)
    [mkBlock 0 0 [Row 0 10; Row 1 11] Loaded false 1;
     mkBlock 1 1 [Row 2 12; Row 3 13] Loaded false 2]
    4 true true 2 4%nat 2%nat [0; 1]%nat [] [] [].

(** Block 0 is gone from [twoBlocks]: only block 1, rows [r2 r3], is left. *)
Definition upperBlockOnly : InfiniteCache :=
  mkCache (mkParams 2 None)
    [mkBlock 1 1 [Row 2 12; Row 3 13] Loaded false 2]
    4 true true 2 4%nat 2%nat [0; 1]%nat [] [] [].

(** [twoBlocks] after the grid has been destroyed: not active any more. *)
Definition twoBlocksInactive : InfiniteCache :=
  mkCache (mkParams 2 None)
    [mkBlock 0 0 [Row 0 10; Row 1 11] Loaded false 1;
     mkBlock 1 1 [Row 2 12; Row 3 13] Loaded false 2]
    4 true false 2 4%nat 2%nat [0; 1]%nat [] [] [].


(** * Properties *)

(** ** What a state is, apart from the contents of its blocks *)

Lemma keepsData_keepsShape F : keepsData F → keepsShape F.
Proof. intros H b. destruct (H b) as (? & -> & ?). done. Qed.

Lemma find_map_cond (t id : Z) (F : InfiniteBlock -> InfiniteBlock) bs :
  (∀ b, pageNumber (F b) = pageNumber b) →
  find (fun b => pageNumber b =? id)
    (map (fun b => if pageNumber b =? t then F b else b) bs)
  = if decide (id = t) then F <$> find (fun b => pageNumber b =? id) bs
    else find (fun b => pageNumber b =? id) bs.
Proof.
  intros HF. induction bs as [|b bs IH]; simpl.
  - by destruct (decide (id = t)).
  - destruct (pageNumber b =? t) eqn:Ebt.
    + rewrite HF. apply Z.eqb_eq in Ebt.
      destruct (pageNumber b =? id) eqn:Ebi.
      * apply Z.eqb_eq in Ebi. destruct (decide (id = t)); [done | lia].
      * rewrite IH. done.
    + destruct (pageNumber b =? id) eqn:Ebi.
      * apply Z.eqb_eq in Ebi. apply Z.eqb_neq in Ebt.
        destruct (decide (id = t)); [lia | done].
      * apply IH.
Qed.

Lemma edits_getBlock t F s s' id :
  edits t F s s' → keepsShape F →
  getBlock s' id = if decide (id = t) then F <$> getBlock s id else getBlock s id.
Proof.
  intros [_ Hb] HF. unfold getBlock. rewrite Hb. simpl.
  apply find_map_cond. intros b. apply HF.
Qed.

Lemma edits_shape t F s s' : edits t F s s' → keepsShape F → shape s' = shape s.
Proof.
  intros [Hp Hb] HF. unfold shape. rewrite Hp, Hb. f_equal. simpl.
  rewrite map_map. apply map_ext. intros b.
  destruct (pageNumber b =? t); [|done]. by destruct (HF b) as [-> ->].
Qed.

Lemma shape_keys s s' : shape s' = shape s → keys s' = keys s.
Proof.
  unfold shape, keys. intros [= _ H].
  apply (f_equal (map fst)) in H. by rewrite !map_map in H.
Qed.

Lemma shape_wf s s' : shape s' = shape s → wf s → wf s'.
Proof.
  intros H (Hp & Hn & Hl). pose proof (shape_keys _ _ H) as Hk.
  unfold shape in H. injection H as Hc Hm.
  split; [by rewrite Hc|]. split; [by rewrite Hk|].
  rewrite Hc. apply Forall_forall. intros b' Hb'.
  assert (Hin : (pageNumber b', length (rowNodes b'))
                ∈ map (fun b => (pageNumber b, length (rowNodes b))) (blocks s')).
  { apply list_elem_of_fmap. by exists b'. }
  rewrite Hm in Hin. apply list_elem_of_fmap in Hin as (b & [= _ Hlen] & Hb).
  rewrite Hlen. rewrite Forall_forall in Hl. by apply Hl.
Qed.

Lemma shape_resident s s' id : shape s' = shape s → resident s' id ↔ resident s id.
Proof.
  intros H. apply shape_keys in H. unfold resident, getBlock, keys in *.
  revert H. generalize (blocks s) (blocks s'). intros l l'. revert l.
  induction l' as [|b' l' IH]; intros [|b l]; simpl; try done.
  intros [= Hb Hl]. rewrite Hb. destruct (pageNumber b =? id); [|by apply IH].
  split; eauto.
Qed.

Lemma shape_getBlock_None s s' id :
  shape s' = shape s → getBlock s' id = None ↔ getBlock s id = None.
Proof.
  intros Hsh. pose proof (shape_resident s s' id Hsh) as Hr. unfold resident in Hr.
  destruct (getBlock s' id), (getBlock s id); split; intros H; try done; exfalso.
  - destruct (proj1 Hr) as [? ?]; [by eexists | done].
  - destruct (proj2 Hr) as [? ?]; [by eexists | done].
Qed.

(** ** Blocks and positions *)

Lemma div_block (ps r t : Z) : 0 < ps → r / ps = t ↔ t * ps ≤ r < t * ps + ps.
Proof.
  intros Hps. pose proof (Z.div_mod r ps ltac:(lia)) as Hdm.
  pose proof (Z.mod_pos_bound r ps Hps) as Hm. split.
  - intros <-. lia.
  - intros [H1 H2]. symmetry. apply (Z.div_unique r ps t (r - t * ps)); lia.
Qed.

Lemma div_block_le (ps a b : Z) : 0 < ps → a ≤ b → a / ps ≤ b / ps.
Proof. intros. apply Z.div_le_mono; lia. Qed.

Lemma getBlock_pageNumber s id b : getBlock s id = Some b → pageNumber b = id.
Proof.
  unfold getBlock. intros H. apply find_some in H as [_ H]. by apply Z.eqb_eq.
Qed.

Lemma getBlock_elem_of s id b : getBlock s id = Some b → b ∈ blocks s.
Proof.
  unfold getBlock. intros H. apply find_some in H as [H _]. by apply list_elem_of_In.
Qed.

Lemma getBlock_length s id b :
  wf s → getBlock s id = Some b →
  length (rowNodes b) = Z.to_nat (pageSize (cacheParams s)).
Proof.
  intros (_ & _ & Hl) H. rewrite Forall_forall in Hl.
  apply Hl. by eapply getBlock_elem_of.
Qed.

Lemma resident_keys s id : resident s id ↔ id ∈ keys s.
Proof.
  unfold resident, getBlock, keys. induction (blocks s) as [|b bs IH]; simpl.
  - split; [by intros [? ?] | by intros ?%elem_of_nil].
  - rewrite elem_of_cons. destruct (pageNumber b =? id) eqn:E.
    + apply Z.eqb_eq in E. split; eauto.
    + apply Z.eqb_neq in E. rewrite IH. split; [auto | intros [?|?]; [lia | done]].
Qed.

(** A resident block of a well-formed cache has a row at each of its
    positions. *)
Lemma slot_is_Some s r :
  wf s → resident s (r / pageSize (cacheParams s)) → is_Some (slot s r).
Proof.
  intros Hwf [b Hb]. unfold slot. rewrite Hb. unfold slotOf, getStartRow.
  pose proof (getBlock_pageNumber _ _ _ Hb) as Hn.
  pose proof (getBlock_length _ _ _ Hwf Hb) as Hl.
  destruct Hwf as (Hps & _).
  pose proof (proj1 (div_block _ r _ Hps) eq_refl) as Hr.
  rewrite Hn. destruct (_ <? 0) eqn:E; [apply Z.ltb_lt in E; lia|].
  apply lookup_lt_is_Some. lia.
Qed.

Lemma slot_None s r :
  wf s → slot s r = None ↔ getBlock s (r / pageSize (cacheParams s)) = None.
Proof.
  intros Hwf. split.
  - intros H. destruct (getBlock s _) eqn:E; [|done].
    destruct (slot_is_Some s r Hwf) as [n Hn]; [by eexists | congruence].
  - intros H. unfold slot. by rewrite H.
Qed.

(** ** What an edit of one block does to the rows *)

Lemma edits_untouched t F s s' id :
  edits t F s s' → keepsShape F → id ≠ t → getBlock s' id = getBlock s id.
Proof.
  intros He HF Hne. rewrite (edits_getBlock _ _ _ _ _ He HF).
  by destruct (decide (id = t)).
Qed.

Lemma edits_keeps_slot t F s s' r :
  edits t F s s' → keepsData F → slot s' r = slot s r.
Proof.
  intros He HF. unfold slot.
  rewrite (edits_getBlock _ _ _ _ _ He (keepsData_keepsShape _ HF)).
  destruct He as [-> _].
  destruct (decide (_ = t)); [|done].
  destruct (getBlock s _) as [b|]; [|done]. simpl.
  unfold slotOf. destruct (HF b) as (-> & -> & _). done.
Qed.

Lemma edits_keeps_dirty t F s s' id :
  edits t F s s' → keepsData F → dirtyAt s' id = dirtyAt s id.
Proof.
  intros He HF. unfold dirtyAt.
  rewrite (edits_getBlock _ _ _ _ _ He (keepsData_keepsShape _ HF)).
  destruct (decide (_ = t)); [|done].
  destruct (getBlock s _) as [b|]; [|done]. simpl. apply HF.
Qed.

Lemma writeSlot_keepsShape p r node : keepsShape (writeSlot p r node).
Proof.
  intros b. unfold writeSlot. destruct (_ <? 0); [done|]. simpl.
  by rewrite length_insert.
Qed.

Lemma writeSlot_dirty p r node b : dirty (writeSlot p r node b) = dirty b.
Proof. unfold writeSlot. by destruct (_ <? 0). Qed.

Lemma markDirty_keepsShape : keepsShape markDirty.
Proof. by intros b. Qed.

(** Writing position [r] of its own block changes the row at [r] and at no
    other position. *)
Lemma edits_write_slot s s' r node r' :
  let ps := pageSize (cacheParams s) in
  wf s → resident s (r / ps) →
  edits (r / ps) (writeSlot (cacheParams s) r node) s s' →
  slot s' r' = if decide (r' = r) then Some node else slot s r'.
Proof.
  intros ps Hwf [b Hb] He. unfold slot.
  rewrite (edits_getBlock _ _ _ _ _ He (writeSlot_keepsShape _ _ _)).
  destruct He as [Hp _]. rewrite Hp. fold ps.
  pose proof (getBlock_pageNumber _ _ _ Hb) as Hn.
  pose proof (getBlock_length _ _ _ Hwf Hb) as Hl. fold ps in Hl.
  destruct Hwf as (Hps & _). fold ps in Hps.
  pose proof (proj1 (div_block ps r _ Hps) eq_refl) as Hr.
  destruct (decide (r' / ps = r / ps)) as [Heq|Hne].
  - rewrite Heq, Hb. simpl.
    pose proof (proj1 (div_block ps r' _ Hps) Heq) as Hr'.
    unfold slotOf, writeSlot, getStartRow. fold ps. rewrite Hn.
    destruct (r - r / ps * ps <? 0) eqn:E1; [apply Z.ltb_lt in E1; lia|].
    cbn [pageNumber rowNodes].
    destruct (r' - r / ps * ps <? 0) eqn:E2; [apply Z.ltb_lt in E2; lia|].
    destruct (decide (r' = r)) as [->|Hrr].
    + apply list_lookup_insert_eq. lia.
    + apply list_lookup_insert_ne. lia.
  - destruct (decide (r' = r)) as [->|]; [done | done].
Qed.

(** ** The primitives of the shift as edits *)

Lemma map_cond_compose (t : Z) (F G : InfiniteBlock -> InfiniteBlock) bs :
  (∀ b, pageNumber (F b) = pageNumber b) →
  map (fun b => if pageNumber b =? t then G b else b)
    (map (fun b => if pageNumber b =? t then F b else b) bs)
  = map (fun b => if pageNumber b =? t then G (F b) else b) bs.
Proof.
  intros HF. rewrite map_map. apply map_ext. intros b.
  destruct (pageNumber b =? t) eqn:E; [|by rewrite E].
  by rewrite HF, E.
Qed.

Lemma map_cond_absent (t : Z) (F : InfiniteBlock -> InfiniteBlock) bs :
  find (fun b => pageNumber b =? t) bs = None →
  map (fun b => if pageNumber b =? t then F b else b) bs = bs.
Proof.
  induction bs as [|b bs IH]; simpl; [done|].
  destruct (pageNumber b =? t); [done|]. intros H. by rewrite IH.
Qed.

Lemma edits_absent t F s : getBlock s t = None → edits t F s s.
Proof.
  intros H. split; [done|]. simpl. symmetry. by apply map_cond_absent.
Qed.

Lemma block_getRow_spec id r s :
  ∃ F s',
    block_getRow id r s
    = (match getBlock s id with
       | Some b => slotOf (cacheParams s) b r
       | None => None
       end, s')
    ∧ keepsData F ∧ edits id F s s'
    ∧ scalars s' = scalars s ∧ nextRowId s' = nextRowId s.
Proof.
  unfold block_getRow. destruct (getBlock s id) as [b|] eqn:Hb.
  - set (stamp := lastAccessedSequence s + 1).
    destruct (needsLoad b) eqn:Hload.
    + exists (fun b => markState Loading (markAccessed stamp b)). eexists.
      split; [reflexivity|]. split; [by intros b'|].
      unfold load.
      assert (Hb' : getBlock (set_lastAccessedSequence stamp
                      (updateBlock id (markAccessed stamp) s)) id
                    = Some (markAccessed stamp b)).
      { unfold getBlock in *. simpl. rewrite find_map_cond by done.
        rewrite Hb. by destruct (decide (id = id)). }
      rewrite Hb'. repeat split. simpl. by rewrite map_cond_compose.
    + exists (markAccessed stamp). eexists.
      split; [reflexivity|]. split; [by intros b'|]. by repeat split.
  - exists (fun b => b), s. split; [done|]. split; [by intros b'|].
    split; [by apply edits_absent | done].
Qed.

(** [getRow] without creation returns the row at the position, stamps the
    block that holds it, and leaves every row and every other block as it
    was. *)
Lemma getRow_true_spec r s :
  ∃ F s',
    getRow r true s = (slot s r, s')
    ∧ keepsData F
    ∧ edits (r / pageSize (cacheParams s)) F s s'
    ∧ scalars s' = scalars s
    ∧ nextRowId s' = nextRowId s.
Proof.
  unfold getRow, slot. set (t := r / pageSize (cacheParams s)).
  destruct (getBlock s t) as [b|] eqn:Hb.
  - destruct (block_getRow_spec t r s) as (F & s' & Hrun & HF & He & Hsc & Hid).
    rewrite Hb in Hrun. by exists F, s'.
  - exists (fun b => b), s. split; [done|]. split; [by intros b'|].
    split; [by apply edits_absent | done].
Qed.

Lemma setRowNode_edits page r node s :
  edits page (writeSlot (cacheParams s) r node) s (setRowNode page r node s).
Proof. done. Qed.

Lemma setDirty_edits page s : edits page markDirty s (setDirty page s).
Proof. done. Qed.

Lemma markDirty_edits_slot page s s' r :
  edits page markDirty s s' → slot s' r = slot s r.
Proof.
  intros He. unfold slot.
  rewrite (edits_getBlock _ _ _ _ _ He markDirty_keepsShape).
  destruct He as [-> _]. destruct (decide (_ = page)); [|done].
  by destruct (getBlock s _).
Qed.

Lemma dirtyAt_markDirty page s s' :
  edits page markDirty s s' → resident s page → dirtyAt s' page = true.
Proof.
  intros He [b Hb]. unfold dirtyAt.
  rewrite (edits_getBlock _ _ _ _ _ He markDirty_keepsShape).
  destruct (decide (page = page)); [|done]. by rewrite Hb.
Qed.

Lemma dirtyAt_writeSlot t p r node s s' id :
  edits t (writeSlot p r node) s s' → dirtyAt s' id = dirtyAt s id.
Proof.
  intros He. unfold dirtyAt.
  rewrite (edits_getBlock _ _ _ _ _ He (writeSlot_keepsShape _ _ _)).
  destruct (decide (id = t)); [|done].
  destruct (getBlock s id); [|done]. simpl. apply writeSlot_dirty.
Qed.

Lemma dirtyAt_markDirty_mono page s s' id :
  edits page markDirty s s' → dirtyAt s id = true → dirtyAt s' id = true.
Proof.
  intros He. unfold dirtyAt.
  rewrite (edits_getBlock _ _ _ _ _ He markDirty_keepsShape).
  destruct (decide (id = page)); [|done]. by destruct (getBlock s id).
Qed.

Lemma dirtyAt_markDirty_other page s s' id :
  edits page markDirty s s' → id ≠ page → dirtyAt s' id = dirtyAt s id.
Proof.
  intros He Hne. unfold dirtyAt.
  by rewrite (edits_untouched _ _ _ _ _ He markDirty_keepsShape Hne).
Qed.

(** ** One step of [moveItemsDown] *)

Lemma moveItemsDown_body_spec page idx cnt s r :
  let ps := pageSize (cacheParams s) in
  wf s → resident s page → r / ps = page →
  let s' := moveItemsDown_body page (idx + cnt) cnt s r in
  shape s' = shape s ∧ scalars s' = scalars s ∧ nextRowId s' = nextRowId s
  ∧ (∀ r', slot s' r'
           = if decide (r' = r ∧ idx + cnt ≤ r)
             then Some (default BlankRow (slot s (r - cnt)))
             else slot s r')
  ∧ (∀ id, dirtyAt s id = true → dirtyAt s' id = true)
  ∧ (∀ id, id ≠ page → dirtyAt s' id = dirtyAt s id)
  ∧ (idx + cnt ≤ r → slot s (r - cnt) = None → dirtyAt s' page = true)
  ∧ (∀ id, id ≠ page → r < idx + cnt ∨ id ≠ (r - cnt) / ps →
           getBlock s' id = getBlock s id).
Proof.
  intros ps Hwf Hres Hpage s'. subst s'. unfold moveItemsDown_body.
  destruct (r <? idx + cnt) eqn:Hlt.
  { apply Z.ltb_lt in Hlt. repeat split; try done.
    - intros r'. destruct (decide _) as [[_ ?]|]; [lia | done].
    - lia. }
  apply Z.ltb_ge in Hlt.
  destruct (getRow_true_spec (r - cnt) s) as (F & s1 & Hg & HF & He & Hsc & Hid).
  rewrite Hg. fold ps in He.
  pose proof (keepsData_keepsShape _ HF) as HFs.
  pose proof (edits_shape _ _ _ _ He HFs) as Hsh1.
  pose proof (shape_wf _ _ Hsh1 Hwf) as Hwf1.
  pose proof (proj1 He) as Hp1.
  assert (Hres1 : resident s1 page) by by apply (shape_resident _ _ _ Hsh1).
  assert (Hpage1 : r / pageSize (cacheParams s1) = page) by by rewrite Hp1.
  destruct (slot s (r - cnt)) as [node|] eqn:Hsrc.
  - pose proof (setRowNode_edits page r node s1) as He2.
    set (s2 := setRowNode page r node s1) in *.
    split; [by rewrite (edits_shape _ _ _ _ He2 (writeSlot_keepsShape _ _ _))|].
    split; [done|]. split; [done|].
    split.
    { intros r'. rewrite <- Hpage1 in He2, Hres1.
      rewrite (edits_write_slot s1 s2 r node r' Hwf1 Hres1 He2).
      rewrite (edits_keeps_slot _ _ _ _ r' He HF).
      destruct (decide (r' = r)) as [->|];
        destruct (decide (_ ∧ _)) as [[? ?]|Hn]; try done.
      exfalso. apply Hn. done. }
    split.
    { intros id. rewrite (dirtyAt_writeSlot _ _ _ _ _ _ id He2).
      by rewrite (edits_keeps_dirty _ _ _ _ id He HF). }
    split.
    { intros id _. rewrite (dirtyAt_writeSlot _ _ _ _ _ _ id He2).
      by rewrite (edits_keeps_dirty _ _ _ _ id He HF). }
    split; [done|].
    intros id Hne [?|Hne2]; [lia|].
    rewrite (edits_untouched _ _ _ _ id He2 (writeSlot_keepsShape _ _ _) Hne).
    by rewrite (edits_untouched _ _ _ _ id He HFs Hne2).
  - pose proof (setRowNode_edits page r BlankRow s1) as He2.
    change (setRowNode page r BlankRow s1) with (setBlankRowNode page r s1) in He2.
    set (s2 := setBlankRowNode page r s1) in *.
    pose proof (setDirty_edits page s2) as He3.
    set (s3 := setDirty page s2) in *.
    pose proof (edits_shape _ _ _ _ He2 (writeSlot_keepsShape _ _ _)) as Hsh2.
    pose proof (edits_shape _ _ _ _ He3 markDirty_keepsShape) as Hsh3.
    split; [by rewrite Hsh3, Hsh2|].
    split; [done|]. split; [done|].
    split.
    { intros r'. rewrite (markDirty_edits_slot _ _ _ r' He3).
      rewrite <- Hpage1 in He2, Hres1.
      rewrite (edits_write_slot s1 s2 r BlankRow r' Hwf1 Hres1 He2).
      rewrite (edits_keeps_slot _ _ _ _ r' He HF).
      destruct (decide (r' = r)) as [->|];
        destruct (decide (_ ∧ _)) as [[? ?]|Hn]; try done.
      exfalso. apply Hn. done. }
    split.
    { intros id Hd. apply (dirtyAt_markDirty_mono _ _ _ _ He3).
      rewrite (dirtyAt_writeSlot _ _ _ _ _ _ id He2).
      by rewrite (edits_keeps_dirty _ _ _ _ id He HF). }
    split.
    { intros id Hne. rewrite (dirtyAt_markDirty_other _ _ _ _ He3 Hne).
      rewrite (dirtyAt_writeSlot _ _ _ _ _ _ id He2).
      by rewrite (edits_keeps_dirty _ _ _ _ id He HF). }
    split.
    { intros _ _. apply (dirtyAt_markDirty _ _ _ He3).
      by apply (shape_resident _ _ _ Hsh2). }
    intros id Hne [?|Hne2]; [lia|].
    rewrite (edits_untouched _ _ _ _ id He3 markDirty_keepsShape Hne).
    rewrite (edits_untouched _ _ _ _ id He2 (writeSlot_keepsShape _ _ _) Hne).
    by rewrite (edits_untouched _ _ _ _ id He HFs Hne2).
Qed.

Lemma shape_params s s' : shape s' = shape s → cacheParams s' = cacheParams s.
Proof. unfold shape. by intros [= -> _]. Qed.

(** ** The walk of [moveItemsDown] over the positions of one block *)

Lemma moveItemsDown_loop_spec page idx cnt :
  0 ≤ cnt →
  ∀ (n : nat) hi s,
    let ps := pageSize (cacheParams s) in
    wf s → resident s page →
    page * ps ≤ hi - Z.of_nat n + 1 → hi < page * ps + ps →
    let s' := fold_left (moveItemsDown_body page (idx + cnt) cnt)
                (rowsDownFrom hi n) s in
    shape s' = shape s ∧ scalars s' = scalars s ∧ nextRowId s' = nextRowId s
    ∧ (∀ r', slot s' r'
             = if decide (hi - Z.of_nat n < r' ≤ hi ∧ idx + cnt ≤ r')
               then Some (default BlankRow (slot s (r' - cnt)))
               else slot s r')
    ∧ (∀ id, dirtyAt s id = true → dirtyAt s' id = true)
    ∧ (∀ id, id ≠ page → dirtyAt s' id = dirtyAt s id)
    ∧ (∀ r', hi - Z.of_nat n < r' ≤ hi → idx + cnt ≤ r' →
             slot s (r' - cnt) = None → dirtyAt s' page = true)
    ∧ (∀ id, page < id ∨ (id ≠ page ∧ id * ps + ps ≤ idx) →
             getBlock s' id = getBlock s id).
Proof.
  intros Hcnt n. induction n as [|n IH]; intros hi s ps Hwf Hres Hlo Hhi s'.
  { subst s'. simpl. repeat split; try done.
    - intros r'. destruct (decide _) as [[? ?]|]; [lia | done].
    - intros r' ?. lia. }
  subst s'. simpl.
  assert (Hps : 0 < ps) by apply Hwf.
  assert (Hpage : hi / ps = page) by (apply div_block; lia).
  destruct (moveItemsDown_body_spec page idx cnt s hi Hwf Hres Hpage)
    as (Hsh1 & Hsc1 & Hid1 & Hslot1 & Hmono1 & Hoth1 & Hd1 & Hun1).
  set (s1 := moveItemsDown_body page (idx + cnt) cnt s hi) in *.
  pose proof (shape_wf _ _ Hsh1 Hwf) as Hwf1.
  pose proof (shape_params _ _ Hsh1) as Hp1.
  assert (Hres1 : resident s1 page) by by apply (shape_resident _ _ _ Hsh1).
  specialize (IH (hi - 1) s1). rewrite Hp1 in IH. fold ps in IH.
  destruct (IH Hwf1 Hres1 ltac:(lia) ltac:(lia))
    as (Hsh & Hsc & Hid & Hslot & Hmono & Hoth & Hd & Hun).
  clear IH.
  split; [by rewrite Hsh|]. split; [by rewrite Hsc|]. split; [by rewrite Hid|].
  split.
  { intros r'. rewrite Hslot.
    destruct (decide (hi - 1 - Z.of_nat n < r' ≤ hi - 1 ∧ idx + cnt ≤ r'))
      as [[Hr Hge]|Hn].
    - rewrite Hslot1.
      destruct (decide (r' - cnt = hi ∧ _)) as [[? ?]|_]; [lia|].
      destruct (decide (hi - Z.of_nat (S n) < r' ≤ hi ∧ idx + cnt ≤ r'))
        as [_|Hn']; [done | lia].
    - rewrite Hslot1.
      destruct (decide (r' = hi ∧ idx + cnt ≤ hi)) as [[-> ?]|Hn1];
        destruct (decide (hi - Z.of_nat (S n) < _ ≤ hi ∧ _)) as [[? ?]|Hn2];
        try done; lia. }
  split; [by auto|].
  split; [by intros id Hne; rewrite Hoth, Hoth1|].
  split.
  { intros r' Hr Hge Hnone. destruct (decide (r' = hi)) as [->|Hne].
    - apply Hmono. by apply Hd1.
    - apply (Hd r'); [lia | done |]. rewrite Hslot1.
      destruct (decide (r' - cnt = hi ∧ _)) as [[? ?]|_]; [lia | done]. }
  intros id Hid'. rewrite Hun by done. apply Hun1; [lia|].
  destruct (decide (hi < idx + cnt)) as [|Hge]; [by left | right].
  intros Heq. symmetry in Heq. apply (div_block ps _ _ Hps) in Heq.
  assert (Hle : (hi - cnt) / ps ≤ hi / ps) by (apply div_block_le; lia).
  destruct Hid' as [?|[? ?]]; [|lia].
  assert (id = (hi - cnt) / ps) by (symmetry; by apply div_block). lia.
Qed.

Lemma moveItemsDown_spec page idx cnt s :
  let ps := pageSize (cacheParams s) in
  0 ≤ cnt → wf s → resident s page →
  let s' := moveItemsDown page idx cnt s in
  shape s' = shape s ∧ scalars s' = scalars s ∧ nextRowId s' = nextRowId s
  ∧ (∀ r', slot s' r'
           = if decide (r' / ps = page ∧ idx + cnt ≤ r')
             then Some (default BlankRow (slot s (r' - cnt)))
             else slot s r')
  ∧ (∀ id, dirtyAt s id = true → dirtyAt s' id = true)
  ∧ (∀ id, id ≠ page → dirtyAt s' id = dirtyAt s id)
  ∧ (∀ r', r' / ps = page → idx + cnt ≤ r' →
           slot s (r' - cnt) = None → dirtyAt s' page = true)
  ∧ (∀ id, page < id ∨ (id ≠ page ∧ id * ps + ps ≤ idx) →
           getBlock s' id = getBlock s id).
Proof.
  intros ps Hcnt Hwf Hres s'. subst s'. unfold moveItemsDown, getEndRow, getStartRow.
  fold ps. assert (Hps : 0 < ps) by apply Hwf.
  replace (page * ps + ps - page * ps) with ps by lia.
  destruct (moveItemsDown_loop_spec page idx cnt Hcnt (Z.to_nat ps)
              (page * ps + ps - 1) s Hwf Hres)
    as (Hsh & Hsc & Hid & Hslot & Hmono & Hoth & Hd & Hun); fold ps; [lia | lia |].
  rewrite Z2Nat.id in Hslot, Hd by lia.
  split; [done|]. split; [done|]. split; [done|].
  split.
  { intros r'. rewrite Hslot.
    destruct (decide (r' / ps = page ∧ idx + cnt ≤ r')) as [[Hb ?]|Hn].
    - apply (div_block ps _ _ Hps) in Hb.
      destruct (decide _) as [|Hn']; [done | lia].
    - destruct (decide _) as [[Hr ?]|]; [|done].
      exfalso. apply Hn. split; [|done]. apply div_block; lia. }
  split; [done|]. split; [done|]. split; [|done].
  intros r' Hb. apply Hd. apply (div_block ps _ _ Hps) in Hb. lia.
Qed.

(** ** [insertItems] on one block *)

Lemma freshRows_app n ds1 ds2 :
  freshRows n (ds1 ++ ds2) = freshRows n ds1 ++ freshRows (n + length ds1) ds2.
Proof.
  revert n. induction ds1 as [|d ds1 IH]; intros n; simpl.
  - f_equal. lia.
  - rewrite IH. do 3 f_equal. lia.
Qed.

Lemma setNewData_spec page r d s :
  let (node, s') := setNewData page r d s in
  node = Row (nextRowId s) d
  ∧ edits page (writeSlot (cacheParams s) r node) s s'
  ∧ scalars s' = scalars s
  ∧ nextRowId s' = S (nextRowId s).
Proof. done. Qed.

Lemma insertItems_loop_spec page idx :
  ∀ items k acc s,
    let ps := pageSize (cacheParams s) in
    let ds := itemsInBlock (cacheParams s) page idx k items in
    wf s → resident s page →
    ∃ s', insertItems_loop page idx k items acc s
          = (acc ++ freshRows (nextRowId s) ds, s')
    ∧ nextRowId s' = (nextRowId s + length ds)%nat
    ∧ shape s' = shape s ∧ scalars s' = scalars s
    ∧ (∀ r', ¬ (r' / ps = page ∧ idx + k ≤ r' < idx + k + Z.of_nat (length items)) →
             slot s' r' = slot s r')
    ∧ (∀ (i : nat) d, items !! i = Some d → (idx + k + Z.of_nat i) / ps = page →
         ∃ id, slot s' (idx + k + Z.of_nat i) = Some (Row id d)
               ∧ (nextRowId s ≤ id < nextRowId s')%nat)
    ∧ (∀ id, dirtyAt s' id = dirtyAt s id)
    ∧ (∀ id, id ≠ page → getBlock s' id = getBlock s id).
Proof.
  induction items as [|d items IH]; intros k acc s ps ds Hwf Hres; subst ds.
  { exists s. simpl. rewrite app_nil_r, Nat.add_0_r. repeat split; try done. }
  assert (Hps : 0 < ps) by apply Hwf.
  cbn [insertItems_loop itemsInBlock length]. unfold getEndRow, getStartRow. fold ps.
  destruct ((page * ps <=? idx + k) && (idx + k <? page * ps + ps)) eqn:Hin.
  - apply andb_true_iff in Hin as [H1%Z.leb_le H2%Z.ltb_lt].
    assert (Hpage : (idx + k) / ps = page) by (apply div_block; lia).
    pose proof (setNewData_spec page (idx + k) d s) as Hnew.
    destruct (setNewData page (idx + k) d s) as [node s1].
    destruct Hnew as (Hnode & He & Hsc1 & Hid1).
    pose proof (edits_shape _ _ _ _ He (writeSlot_keepsShape _ _ _)) as Hsh1.
    pose proof (shape_wf _ _ Hsh1 Hwf) as Hwf1.
    pose proof (shape_params _ _ Hsh1) as Hp1.
    assert (Hres1 : resident s1 page) by by apply (shape_resident _ _ _ Hsh1).
    destruct (IH (k + 1) (acc ++ [node]) s1 Hwf1 Hres1)
      as (s' & Hrun & Hid & Hsh & Hsc & Hslot & Hnewi & Hd & Hun).
    clear IH. rewrite Hp1 in Hrun, Hid, Hslot, Hnewi. fold ps in Hslot, Hnewi.
    unfold getEndRow, getStartRow in *. fold ps in Hrun, Hid.
    exists s'. split.
    { rewrite Hrun. simpl. rewrite <- app_assoc. simpl. by rewrite Hnode, Hid1. }
    split; [rewrite Hid; simpl; lia|].
    split; [by rewrite Hsh|]. split; [by rewrite Hsc|].
    assert (Hwrite : ∀ r', slot s1 r'
                     = if decide (r' = idx + k) then Some node else slot s r').
    { intros r'. rewrite <- Hpage in He, Hres.
      apply (edits_write_slot s s1 (idx + k) node r' Hwf Hres He). }
    split.
    { intros r' Hout. rewrite Hslot by lia. rewrite Hwrite.
      destruct (decide (r' = idx + k)) as [->|]; [|done].
      exfalso. apply Hout. lia. }
    split.
    { intros i d' Hi Hpi. destruct i as [|i]; simpl in Hi.
      - injection Hi as <-. exists (nextRowId s).
        replace (idx + k + Z.of_nat 0) with (idx + k) by lia.
        rewrite Hslot by lia. rewrite Hwrite.
        destruct (decide (idx + k = idx + k)); [|done].
        split; [by rewrite Hnode | lia].
      - destruct (Hnewi i d' Hi) as (id & Hs & Hrange).
        { rewrite <- Hpi. f_equal. lia. }
        exists id. split; [|lia]. rewrite <- Hs. f_equal. lia. }
    split.
    { intros id. rewrite Hd. apply (dirtyAt_writeSlot _ _ _ _ _ _ id He). }
    intros id Hne. rewrite Hun by done.
    apply (edits_untouched _ _ _ _ id He (writeSlot_keepsShape _ _ _) Hne).
  - destruct (IH (k + 1) acc s Hwf Hres)
      as (s' & Hrun & Hid & Hsh & Hsc & Hslot & Hnewi & Hd & Hun).
    clear IH. fold ps in Hslot, Hnewi.
    unfold getEndRow, getStartRow in *. fold ps in Hrun, Hid.
    exists s'. split; [done|]. split; [done|]. split; [done|]. split; [done|].
    split; [intros r' Hout; apply Hslot; lia|].
    split; [|done].
    intros i d' Hi Hpi. destruct i as [|i]; simpl in Hi.
    + exfalso. apply (div_block ps _ _ Hps) in Hpi.
      apply andb_false_iff in Hin as [H%Z.leb_gt|H%Z.ltb_ge]; lia.
    + destruct (Hnewi i d' Hi) as (id & Hs & Hrange).
      { rewrite <- Hpi. f_equal. lia. }
      exists id. split; [|lia]. rewrite <- Hs. f_equal. lia.
Qed.

Lemma itemsInBlock_skipped p page idx k items :
  0 ≤ k → getEndRow p page ≤ idx → itemsInBlock p page idx k items = [].
Proof.
  revert k. induction items as [|d items IH]; intros k Hk Hend; simpl; [done|].
  destruct (_ <=? _) eqn:E1; destruct (_ <? _) eqn:E2; simpl;
    try (apply IH; lia).
  apply Z.ltb_lt in E2. lia.
Qed.

Lemma slot_getBlock_eq s s' r :
  cacheParams s' = cacheParams s →
  getBlock s' (r / pageSize (cacheParams s)) = getBlock s (r / pageSize (cacheParams s)) →
  slot s' r = slot s r.
Proof. intros Hp Hb. unfold slot. by rewrite Hp, Hb. Qed.

(** ** One call of the callback of [insertItemsAtIndex] *)

Lemma insertItemsAtIndex_block_spec idx items acc s page :
  let ps := pageSize (cacheParams s) in
  let cnt := Z.of_nat (length items) in
  let ds := itemsInBlock (cacheParams s) page idx 0 items in
  wf s → resident s page →
  ∃ s', insertItemsAtIndex_block idx items (acc, s) page
        = (acc ++ freshRows (nextRowId s) ds, s')
  ∧ nextRowId s' = (nextRowId s + length ds)%nat
  ∧ shape s' = shape s ∧ scalars s' = scalars s
  ∧ (∀ r', r' / ps = page → idx + cnt ≤ r' →
       slot s' r' = Some (default BlankRow (slot s (r' - cnt)))
       ∧ (slot s (r' - cnt) = None → dirtyAt s' page = true))
  ∧ (∀ (i : nat) d, items !! i = Some d → (idx + Z.of_nat i) / ps = page →
       ∃ id, slot s' (idx + Z.of_nat i) = Some (Row id d)
             ∧ (nextRowId s ≤ id < nextRowId s')%nat)
  ∧ (∀ r', r' < idx → slot s' r' = slot s r')
  ∧ (∀ r', r' / ps ≠ page → slot s' r' = slot s r')
  ∧ (∀ id, page < id ∨ id * ps + ps ≤ idx → getBlock s' id = getBlock s id).
Proof.
  intros ps cnt ds Hwf Hres. subst ds.
  assert (Hps : 0 < ps) by apply Hwf.
  unfold insertItemsAtIndex_block.
  destruct (getEndRow (cacheParams s) page <=? idx) eqn:Hskip.
  { apply Z.leb_le in Hskip. rewrite itemsInBlock_skipped by (done || lia).
    exists s. simpl. rewrite app_nil_r, Nat.add_0_r.
    unfold getEndRow, getStartRow in Hskip. fold ps in Hskip.
    repeat split; try done.
    - exfalso. apply (div_block ps _ _ Hps) in H. lia.
    - exfalso. apply (div_block ps _ _ Hps) in H. lia.
    - intros i d _ Hi. exfalso. apply (div_block ps _ _ Hps) in Hi. lia. }
  apply Z.leb_gt in Hskip. unfold getEndRow, getStartRow in Hskip. fold ps in Hskip.
  destruct (moveItemsDown_spec page idx cnt s ltac:(lia) Hwf Hres)
    as (Hsh1 & Hsc1 & Hid1 & Hslot1 & Hmono1 & Hoth1 & Hd1 & Hun1).
  fold ps in Hslot1, Hd1, Hun1. fold cnt.
  set (s1 := moveItemsDown page idx cnt s) in *.
  pose proof (shape_wf _ _ Hsh1 Hwf) as Hwf1.
  pose proof (shape_params _ _ Hsh1) as Hp1.
  assert (Hres1 : resident s1 page) by by apply (shape_resident _ _ _ Hsh1).
  unfold insertItems.
  destruct (insertItems_loop_spec page idx items 0 [] s1 Hwf1 Hres1)
    as (s2 & Hrun & Hid & Hsh & Hsc & Hslot & Hnewi & Hd & Hun).
  rewrite Hp1 in Hrun, Hid, Hslot, Hnewi. fold ps cnt in Hslot, Hnewi.
  rewrite Hrun. exists s2. simpl.
  split; [by rewrite Hid1|]. split; [by rewrite Hid, Hid1|].
  split; [by rewrite Hsh|]. split; [by rewrite Hsc|].
  split.
  { intros r' Hb Hge. split.
    - rewrite Hslot by lia. rewrite Hslot1.
      destruct (decide _) as [|Hn]; [done|]. exfalso. by apply Hn.
    - intros Hnone. rewrite Hd. by apply (Hd1 r'). }
  split.
  { intros i d Hi Hb. destruct (Hnewi i d Hi) as (id & Hs & Hr).
    - rewrite <- Hb. f_equal. lia.
    - exists id. split; [|lia]. rewrite <- Hs. f_equal. lia. }
  split.
  { intros r' Hlt. rewrite Hslot by lia. rewrite Hslot1.
    destruct (decide _) as [[? ?]|]; [lia | done]. }
  split.
  { intros r' Hne. rewrite Hslot by (intros [? ?]; done). rewrite Hslot1.
    destruct (decide _) as [[? ?]|]; [done | done]. }
  intros id Hid'.
  assert (Hne : id ≠ page) by (intros ->; lia).
  rewrite Hun by done. apply Hun1. destruct Hid'; [by left | by right].
Qed.

(** ** The pass of [insertItemsAtIndex] over the blocks *)

Lemma insertItemsAtIndex_fold_spec idx items :
  ∀ l acc s,
    let ps := pageSize (cacheParams s) in
    let cnt := Z.of_nat (length items) in
    let ds := materialized (cacheParams s) idx items l in
    wf s → StronglySorted (flip Z.lt) l → Forall (resident s) l →
    ∃ s', fold_left (insertItemsAtIndex_block idx items) l (acc, s)
          = (acc ++ freshRows (nextRowId s) ds, s')
    ∧ nextRowId s' = (nextRowId s + length ds)%nat
    ∧ shape s' = shape s ∧ scalars s' = scalars s
    ∧ (∀ page r', page ∈ l → r' / ps = page → idx + cnt ≤ r' →
         slot s' r' = Some (default BlankRow (slot s (r' - cnt)))
         ∧ (slot s (r' - cnt) = None → dirtyAt s' page = true))
    ∧ (∀ (i : nat) d, items !! i = Some d → (idx + Z.of_nat i) / ps ∈ l →
         ∃ id, slot s' (idx + Z.of_nat i) = Some (Row id d)
               ∧ (nextRowId s ≤ id < nextRowId s')%nat)
    ∧ (∀ r', r' < idx → slot s' r' = slot s r')
    ∧ (∀ r', r' / ps ∉ l → slot s' r' = slot s r')
    ∧ (∀ id, (∀ page, page ∈ l → page < id ∨ id * ps + ps ≤ idx) →
         getBlock s' id = getBlock s id).
Proof.
  induction l as [|page l IH]; intros acc s ps cnt ds Hwf Hsorted Hres; subst ds.
  { exists s. simpl. rewrite app_nil_r, Nat.add_0_r.
    split; [done|]. split; [done|]. split; [done|]. split; [done|].
    split; [by intros ? ? ?%elem_of_nil|].
    split; [by intros ? ? ? ?%elem_of_nil|]. done. }
  assert (Hps : 0 < ps) by apply Hwf.
  apply StronglySorted_inv in Hsorted as [Hsorted Hhd].
  apply Forall_cons in Hres as [Hrp Hres].
  destruct (insertItemsAtIndex_block_spec idx items acc s page Hwf Hrp)
    as (s1 & Hrun1 & Hid1 & Hsh1 & Hsc1 & HA1 & HN1 & HL1 & HB1 & HC1).
  fold ps cnt in HA1, HN1, HB1, HC1.
  pose proof (shape_wf _ _ Hsh1 Hwf) as Hwf1.
  pose proof (shape_params _ _ Hsh1) as Hp1.
  assert (Hres1 : Forall (resident s1) l).
  { eapply Forall_impl; [exact Hres|]. intros id. by apply shape_resident. }
  destruct (IH (acc ++ freshRows (nextRowId s)
                        (itemsInBlock (cacheParams s) page idx 0 items))
              s1 Hwf1 Hsorted Hres1)
    as (s' & Hrun & Hid & Hsh & Hsc & HA & HN & HL & HB & HC).
  clear IH. rewrite Hp1 in Hrun, Hid, HA, HN, HB, HC.
  fold ps cnt in HA, HN, HB, HC.
  assert (Hpage_kept : getBlock s' page = getBlock s1 page).
  { apply HC. intros page' Hin. left.
    rewrite Forall_forall in Hhd. apply (Hhd page' Hin). }
  assert (Hp' : cacheParams s' = cacheParams s1) by by apply shape_params.
  exists s'. cbn [fold_left]. rewrite Hrun1. split.
  { rewrite Hrun. unfold materialized. cbn [flat_map].
    by rewrite <- app_assoc, freshRows_app, Hid1. }
  unfold materialized in *. cbn [flat_map]. rewrite length_app.
  split; [rewrite Hid, Hid1; lia|].
  split; [by rewrite Hsh|]. split; [by rewrite Hsc|].
  assert (Hlow : ∀ page' r', page' ∈ l → r' / ps ≤ page' → slot s1 r' = slot s r').
  { intros page' r' Hin Hle. apply HB1.
    rewrite Forall_forall in Hhd. specialize (Hhd page' Hin).
    unfold flip in Hhd. lia. }
  split.
  { intros page' r' Hin Hb Hge. apply elem_of_cons in Hin as [->|Hin].
    - destruct (HA1 r' Hb Hge) as [Hs Hdirty]. split.
      + rewrite <- Hs. apply slot_getBlock_eq; [done|].
        rewrite Hp1. fold ps. by rewrite Hb.
      + intros Hnone. unfold dirtyAt. rewrite Hpage_kept. by apply Hdirty.
    - assert (Hsrc : slot s1 (r' - cnt) = slot s (r' - cnt)).
      { apply (Hlow page'); [done|]. rewrite <- Hb. apply div_block_le; lia. }
      destruct (HA page' r' Hin Hb Hge) as [Hs Hdirty].
      rewrite Hsrc in Hs, Hdirty. done. }
  split.
  { intros i d Hi Hin. apply elem_of_cons in Hin as [Hb|Hin].
    - destruct (HN1 i d Hi Hb) as (id & Hs & Hr). exists id. split; [|lia].
      rewrite <- Hs. apply slot_getBlock_eq; [done|].
      rewrite Hp1. fold ps. by rewrite Hb.
    - destruct (HN i d Hi Hin) as (id & Hs & Hr). exists id. split; [done | lia]. }
  split; [by intros r' Hlt; rewrite HL, HL1|].
  split.
  { intros r' Hnin. apply not_elem_of_cons in Hnin as [Hne Hnin].
    by rewrite HB, HB1. }
  intros id Hcond. rewrite HC.
  - apply HC1. apply Hcond. by left.
  - intros page' Hin. apply Hcond. by right.
Qed.

(** ** What the insertion leaves alone, in any state *)

Lemma frame_refl s : frame s s.
Proof. done. Qed.

Lemma frame_trans s1 s2 s3 : frame s1 s2 → frame s2 s3 → frame s1 s3.
Proof. intros [? ?] [? ?]. split; congruence. Qed.

Lemma moveItemsDown_body_frame page last cnt s r :
  let s' := moveItemsDown_body page last cnt s r in
  frame s s' ∧ nextRowId s' = nextRowId s.
Proof.
  unfold moveItemsDown_body. destruct (r <? last); [done|].
  destruct (getRow_true_spec (r - cnt) s) as (F & s1 & Hg & _ & [Hp _] & Hsc & Hid).
  rewrite Hg. destruct (slot s (r - cnt)); by repeat split.
Qed.

Lemma moveItemsDown_fold_frame page last cnt l :
  ∀ s, let s' := fold_left (moveItemsDown_body page last cnt) l s in
       frame s s' ∧ nextRowId s' = nextRowId s.
Proof.
  induction l as [|r l IH]; intros s; [done|]. simpl.
  destruct (moveItemsDown_body_frame page last cnt s r) as [Hf Hid].
  destruct (IH (moveItemsDown_body page last cnt s r)) as [Hf' Hid'].
  split; [by eapply frame_trans | congruence].
Qed.

Lemma moveItemsDown_frame page idx cnt s :
  let s' := moveItemsDown page idx cnt s in
  frame s s' ∧ nextRowId s' = nextRowId s.
Proof. apply moveItemsDown_fold_frame. Qed.

Lemma insertItems_loop_frame page idx :
  ∀ items k acc s,
    let ds := itemsInBlock (cacheParams s) page idx k items in
    ∃ s', insertItems_loop page idx k items acc s
          = (acc ++ freshRows (nextRowId s) ds, s')
    ∧ nextRowId s' = (nextRowId s + length ds)%nat
    ∧ frame s s'.
Proof.
  induction items as [|d items IH]; intros k acc s ds; subst ds.
  { exists s. simpl. by rewrite app_nil_r, Nat.add_0_r. }
  cbn [insertItems_loop itemsInBlock].
  destruct (_ && _).
  - unfold setNewData.
    set (node := Row (nextRowId s) d).
    set (s1 := set_nextRowId _ _).
    destruct (IH (k + 1) (acc ++ [node]) s1) as (s' & Hrun & Hid & Hf).
    exists s'. split.
    { rewrite Hrun. simpl. by rewrite <- app_assoc. }
    split; [rewrite Hid; simpl; lia|].
    eapply frame_trans; [|exact Hf]. done.
  - destruct (IH (k + 1) acc s) as (s' & Hrun & Hid & Hf). by exists s'.
Qed.

Lemma insertItemsAtIndex_block_frame idx items acc s page :
  let ds := if getEndRow (cacheParams s) page <=? idx then []
            else itemsInBlock (cacheParams s) page idx 0 items in
  ∃ s', insertItemsAtIndex_block idx items (acc, s) page
        = (acc ++ freshRows (nextRowId s) ds, s')
  ∧ nextRowId s' = (nextRowId s + length ds)%nat
  ∧ frame s s'.
Proof.
  intros ds. subst ds. unfold insertItemsAtIndex_block.
  destruct (_ <=? idx).
  { exists s. simpl. by rewrite app_nil_r, Nat.add_0_r. }
  destruct (moveItemsDown_frame page idx (Z.of_nat (length items)) s) as [[Hp1 Hsc1] Hid1].
  set (s1 := moveItemsDown _ _ _ _) in *. unfold insertItems.
  destruct (insertItems_loop_frame page idx items 0 [] s1) as (s2 & Hrun & Hid & Hf).
  rewrite Hrun. exists s2. rewrite Hp1, Hid1 in *. simpl.
  split; [done|]. split; [done|]. by eapply frame_trans.
Qed.

Lemma materializedBy_materialized p idx items visit :
  materializedBy p idx items visit = materialized p idx items visit.
Proof.
  unfold materializedBy, materialized.
  induction visit as [|b visit IH]; simpl; [done|]. rewrite IH. f_equal.
  destruct (_ <=? idx) eqn:E; [|done].
  apply Z.leb_le in E. by rewrite itemsInBlock_skipped.
Qed.

Lemma insertItemsAtIndex_fold_frame idx items :
  ∀ l acc s,
    let ds := materialized (cacheParams s) idx items l in
    ∃ s', fold_left (insertItemsAtIndex_block idx items) l (acc, s)
          = (acc ++ freshRows (nextRowId s) ds, s')
    ∧ nextRowId s' = (nextRowId s + length ds)%nat
    ∧ frame s s'.
Proof.
  intros l acc s ds. subst ds. rewrite <- materializedBy_materialized.
  revert acc s. induction l as [|page l IH]; intros acc s.
  { exists s. simpl. by rewrite app_nil_r, Nat.add_0_r. }
  destruct (insertItemsAtIndex_block_frame idx items acc s page)
    as (s1 & Hrun1 & Hid1 & Hf1).
  cbn [fold_left]. rewrite Hrun1.
  destruct (IH (acc ++ freshRows (nextRowId s)
                  (if getEndRow (cacheParams s) page <=? idx then []
                   else itemsInBlock (cacheParams s) page idx 0 items)) s1)
    as (s' & Hrun & Hid & Hf).
  exists s'. rewrite (proj1 Hf1) in Hrun, Hid. unfold materializedBy in *.
  cbn [flat_map]. rewrite freshRows_app, length_app, app_assoc, <- Hid1.
  split; [done|]. split; [lia|]. by eapply frame_trans.
Qed.

(** ** The order of the visit *)

Lemma StronglySorted_le_NoDup (l : list Z) :
  StronglySorted Z.le l → NoDup l → StronglySorted Z.lt l.
Proof.
  induction 1 as [|x l Hs IH Hx]; intros Hnd; [constructor|].
  apply NoDup_cons in Hnd as [Hnin Hnd]. constructor; [by apply IH|].
  rewrite Forall_forall in *. intros y Hy. specialize (Hx y Hy).
  assert (x ≠ y) by (intros ->; done). lia.
Qed.

Lemma getBlockIdsSorted_perm s : getBlockIdsSorted s ≡ₚ keys s.
Proof. apply merge_sort_Permutation. Qed.

Lemma forEachBlockInReverseOrder_perm s : forEachBlockInReverseOrder s ≡ₚ keys s.
Proof.
  unfold forEachBlockInReverseOrder. rewrite reverse_Permutation.
  apply getBlockIdsSorted_perm.
Qed.

Lemma forEachBlockInReverseOrder_sorted s :
  NoDup (keys s) → StronglySorted (flip Z.lt) (forEachBlockInReverseOrder s).
Proof.
  intros Hnd. unfold forEachBlockInReverseOrder.
  apply Sorted_StronglySorted; [intros x y z; unfold flip; lia|].
  apply Sorted_reverse, StronglySorted_Sorted, StronglySorted_le_NoDup.
  - apply (StronglySorted_merge_sort Z.le).
  - by rewrite getBlockIdsSorted_perm.
Qed.

Lemma forEachBlockInReverseOrder_resident s id :
  id ∈ forEachBlockInReverseOrder s ↔ resident s id.
Proof. by rewrite forEachBlockInReverseOrder_perm, resident_keys. Qed.

Lemma insertItemsAtIndex_blocks idx items s :
  ∃ newNodes s1,
    fold_left (insertItemsAtIndex_block idx items)
      (forEachBlockInReverseOrder s) ([], s) = (newNodes, s1)
    ∧ blocks (insertItemsAtIndex idx items s) = blocks s1
    ∧ cacheParams (insertItemsAtIndex idx items s) = cacheParams s1.
Proof.
  unfold insertItemsAtIndex.
  destruct (fold_left _ _ _) as [newNodes s1]. exists newNodes, s1.
  split; [done|]. unfold dispatchModelUpdated, isActive, isMaxRowFound.
  by destruct (maxRowFound s1); simpl; destruct (active s1).
Qed.

(** ** The insertion as a whole *)

Lemma insertItemsAtIndex_spec idx items s :
  let ps := pageSize (cacheParams s) in
  let cnt := Z.of_nat (length items) in
  let s' := insertItemsAtIndex idx items s in
  wf s →
  shape s' = shape s
  ∧ (∀ r', resident s (r' / ps) → idx + cnt ≤ r' →
       slot s' r' = Some (default BlankRow (slot s (r' - cnt)))
       ∧ (slot s (r' - cnt) = None → dirtyAt s' (r' / ps) = true))
  ∧ (∀ (i : nat) d, items !! i = Some d → resident s ((idx + Z.of_nat i) / ps) →
       ∃ id, slot s' (idx + Z.of_nat i) = Some (Row id d)
             ∧ (nextRowId s ≤ id < nextRowId s')%nat)
  ∧ (∀ r', r' < idx → slot s' r' = slot s r')
  ∧ (∀ id, id * ps + ps ≤ idx → getBlock s' id = getBlock s id).
Proof.
  intros ps cnt s' Hwf. subst s'.
  destruct (insertItemsAtIndex_blocks idx items s) as (newNodes & s1 & Hfold & Hb & Hp).
  destruct (insertItemsAtIndex_fold_spec idx items (forEachBlockInReverseOrder s) [] s Hwf)
    as (s1' & Hrun & Hid & Hsh & Hsc & HA & HN & HL & HB & HC).
  { apply forEachBlockInReverseOrder_sorted, Hwf. }
  { apply Forall_forall. intros id. by rewrite forEachBlockInReverseOrder_resident. }
  rewrite Hrun in Hfold. injection Hfold as _ <-.
  fold ps cnt in HA, HN, HB, HC.
  set (s' := insertItemsAtIndex idx items s) in *.
  assert (Hslot : ∀ r, slot s' r = slot s1' r).
  { intros r. unfold slot, getBlock. by rewrite Hp, Hb. }
  assert (Hget : ∀ id, getBlock s' id = getBlock s1' id).
  { intros id. unfold getBlock. by rewrite Hb. }
  assert (Hnext : nextRowId s' = nextRowId s1').
  { unfold s', insertItemsAtIndex. rewrite Hrun.
    unfold dispatchModelUpdated, isActive, isMaxRowFound.
    by destruct (maxRowFound s1'); simpl; destruct (active s1'). }
  split.
  { rewrite <- Hsh. unfold shape. by rewrite Hp, Hb. }
  split.
  { intros r' Hres Hge. rewrite Hslot. unfold dirtyAt. rewrite Hget.
    apply (HA (r' / ps)); [|done|done].
    by apply forEachBlockInReverseOrder_resident. }
  split.
  { intros i d Hi Hres. rewrite Hslot, Hnext. apply HN; [done|].
    by apply forEachBlockInReverseOrder_resident. }
  split; [by intros r' Hlt; rewrite Hslot; apply HL|].
  intros id Hend. rewrite Hget. apply HC. intros page _. by right.
Qed.

Lemma rowsDownFrom_map (last : Z) (count : nat) :
  rowsDownFrom last count = map (fun k => last - Z.of_nat k) (seq 0 count).
Proof.
  revert last. induction count as [|count IH]; intros last; simpl; [done|].
  rewrite IH. f_equal; [lia|]. rewrite <- seq_shift, map_map.
  apply map_ext. intros k. lia.
Qed.

(** ** The shift *)

Lemma twoBlocks_wf : wf twoBlocks.
Proof.
  split; [done|]. split.
  - apply (bool_decide_unpack _). by vm_compute.
  - by repeat constructor.
Qed.

Lemma upperBlockOnly_wf : wf upperBlockOnly.
Proof.
  split; [done|]. split; [apply NoDup_singleton | by repeat constructor].
Qed.

(** C1.  In [insertItemsAtIndex index items] the resident blocks are visited
    in descending order of their numbers, each once; the callback returns at
    once on a block whose [endRow] is at or before [index], and the call
    leaves such a block as it was; [moveItemsDown] goes through the positions
    [endRow - 1], [endRow - 2], ... of its block and does nothing at a
    position before [index + length items]; and at the end every position
    [r] of a resident block at or beyond [index + length items] holds the
    row that was at [r - length items] before the call: each source was read
    before the call wrote over it.  (Where no block holds the source, [r]
    holds a blank and its block is dirty.) *)
Theorem insertItemsAtIndex_shifts_in_descending_order idx items s :
  let p := cacheParams s in
  let ps := pageSize p in
  let cnt := Z.of_nat (length items) in
  let s' := insertItemsAtIndex idx items s in
  wf s →
  (StronglySorted (flip Z.lt) (forEachBlockInReverseOrder s)
   ∧ forEachBlockInReverseOrder s ≡ₚ keys s)
  ∧ (∀ acc t block, getEndRow (cacheParams t) block ≤ idx →
       insertItemsAtIndex_block idx items (acc, t) block = (acc, t))
  ∧ (∀ block, getEndRow p block ≤ idx → getBlock s' block = getBlock s block)
  ∧ (∀ t page,
       moveItemsDown page idx cnt t
       = fold_left (moveItemsDown_body page (idx + cnt) cnt)
           (map (fun k => getEndRow (cacheParams t) page - 1 - Z.of_nat k)
              (seq 0 (Z.to_nat (pageSize (cacheParams t))))) t)
  ∧ (∀ t page r, r < idx + cnt → moveItemsDown_body page (idx + cnt) cnt t r = t)
  ∧ (∀ r, resident s (r / ps) → idx + cnt ≤ r →
       (resident s ((r - cnt) / ps) →
          ∃ node, slot s (r - cnt) = Some node ∧ slot s' r = Some node)
       ∧ (getBlock s ((r - cnt) / ps) = None →
            slot s' r = Some BlankRow ∧ dirtyAt s' (r / ps) = true)).
Proof.
  intros p ps cnt s' Hwf.
  destruct (insertItemsAtIndex_spec idx items s Hwf) as (_ & HA & _ & _ & HC).
  fold ps cnt s' in HA, HC.
  split.
  { split; [apply forEachBlockInReverseOrder_sorted, Hwf
           | apply forEachBlockInReverseOrder_perm]. }
  split.
  { intros acc t block Hend. unfold insertItemsAtIndex_block.
    apply Z.leb_le in Hend. by rewrite Hend. }
  split.
  { intros block Hend. apply HC. unfold getEndRow, getStartRow in Hend. done. }
  split.
  { intros t page. unfold moveItemsDown. rewrite rowsDownFrom_map.
    unfold getEndRow, getStartRow. do 3 f_equal. lia. }
  split.
  { intros t page r Hlt. unfold moveItemsDown_body.
    apply Z.ltb_lt in Hlt. by rewrite Hlt. }
  intros r Hres Hge. destruct (HA r Hres Hge) as [Hs Hd]. split.
  - intros Hsrc. destruct (slot_is_Some s (r - cnt) Hwf Hsrc) as [node Hnode].
    exists node. by rewrite Hs, Hnode.
  - intros Hsrc%slot_None; [|done]. split; [by rewrite Hs, Hsrc | by apply Hd].
Qed.

Lemma insertItemsAtIndex_shifts_in_descending_order_witness :
  wf twoBlocks
  ∧ slot (insertItemsAtIndex 1 [99] twoBlocks) 2 = Some (Row 1 11)
  ∧ slot (insertItemsAtIndex 1 [99] twoBlocks) 3 = Some (Row 2 12).
Proof.
  split; [exact twoBlocks_wf|].
  destruct (insertItemsAtIndex_shifts_in_descending_order 1 [99] twoBlocks twoBlocks_wf)
    as (_ & _ & _ & _ & _ & H).
  split.
  - destruct (H 2) as [H2 _]; [by eexists | simpl; lia |].
    destruct H2 as (node & Hsrc & Hdst); [by eexists|].
    vm_compute in Hsrc. injection Hsrc as <-. exact Hdst.
  - destruct (H 3) as [H3 _]; [by eexists | simpl; lia |].
    destruct H3 as (node & Hsrc & Hdst); [by eexists|].
    vm_compute in Hsrc. injection Hsrc as <-. exact Hdst.
Defined.

(** ** The walk of [moveItemsDown] up to and past one position *)

Lemma rowsDownFrom_split (a b : nat) hi :
  rowsDownFrom hi (a + S b)
  = rowsDownFrom hi a ++ (hi - Z.of_nat a) :: rowsDownFrom (hi - Z.of_nat a - 1) b.
Proof.
  revert hi. induction a as [|a IH]; intros hi.
  - cbn [Nat.add rowsDownFrom app]. by rewrite Z.sub_0_r.
  - cbn [Nat.add rowsDownFrom app]. rewrite IH.
    by replace (hi - Z.of_nat (S a)) with (hi - 1 - Z.of_nat a) by lia.
Qed.

Lemma moveItemsDown_walk page idx cnt :
  ∀ (n : nat) hi s,
    let ps := pageSize (cacheParams s) in
    wf s → resident s page →
    page * ps ≤ hi - Z.of_nat n + 1 → hi < page * ps + ps →
    let s' := fold_left (moveItemsDown_body page (idx + cnt) cnt)
                (rowsDownFrom hi n) s in
    shape s' = shape s
    ∧ (∀ r', hi < r' → slot s' r' = slot s r')
    ∧ (∀ id, dirtyAt s id = true → dirtyAt s' id = true).
Proof.
  intros n. induction n as [|n IH]; intros hi s ps Hwf Hres Hlo Hhi s'.
  { subst s'. by simpl. }
  subst s'. cbn [rowsDownFrom fold_left].
  assert (Hps : 0 < ps) by apply Hwf.
  assert (Hpage : hi / ps = page) by (apply div_block; lia).
  destruct (moveItemsDown_body_spec page idx cnt s hi Hwf Hres Hpage)
    as (Hsh1 & _ & _ & Hslot1 & Hmono1 & _).
  set (s1 := moveItemsDown_body page (idx + cnt) cnt s hi) in *.
  pose proof (shape_wf _ _ Hsh1 Hwf) as Hwf1.
  pose proof (shape_params _ _ Hsh1) as Hp1.
  assert (Hres1 : resident s1 page) by by apply (shape_resident _ _ _ Hsh1).
  specialize (IH (hi - 1) s1). rewrite Hp1 in IH. fold ps in IH.
  destruct (IH Hwf1 Hres1 ltac:(lia) ltac:(lia)) as (Hsh & Hslot & Hmono).
  split; [by rewrite Hsh|]. split; [|by auto].
  intros r' Hr. rewrite Hslot by lia. rewrite Hslot1.
  destruct (decide (r' = hi ∧ _)) as [[? _]|_]; [lia | done].
Qed.

(** C3.  [moveItemsDown] walks the positions of its block from the last down
    to the first.  Take a position [r] of the block that is to be moved and
    whose source position [r - moveCount] lies in no resident block, and let
    [t] be the cache when the walk reaches [r].  There [getRow source true]
    returns no row and leaves the cache as it is, so no block is created, and
    the step is [setBlankRowNode] followed by [setDirty] on the destination
    block.  When [moveItemsDown] returns, position [r] holds a blank and its
    block is dirty; the resident blocks are those of before, the source block
    is still absent and nothing has been notified.  [moveItemsDown] returns a
    cache: there is no error outcome. *)
Theorem moveItemsDown_missing_source_blank_and_dirty page moveFromIndex moveCount s r :
  let ps := pageSize (cacheParams s) in
  let startRow := getStartRow (cacheParams s) page in
  let endRow := getEndRow (cacheParams s) page in
  let body := moveItemsDown_body page (moveFromIndex + moveCount) moveCount in
  let t := fold_left body (rowsDownFrom (endRow - 1) (Z.to_nat (endRow - 1 - r))) s in
  let s' := moveItemsDown page moveFromIndex moveCount s in
  wf s → resident s page → r / ps = page → moveFromIndex + moveCount ≤ r →
  getBlock s ((r - moveCount) / ps) = None →
  s' = fold_left body (rowsDownFrom (r - 1) (Z.to_nat (r - startRow))) (body t r)
  ∧ getRow (r - moveCount) true t = (None, t)
  ∧ body t r = setDirty page (setBlankRowNode page r t)
  ∧ slot s' r = Some BlankRow
  ∧ dirtyAt s' page = true
  ∧ keys s' = keys s
  ∧ getBlock s' ((r - moveCount) / ps) = None
  ∧ events s' = events s.
Proof.
  intros ps startRow endRow body t s' Hwf Hres Hpage Hlast Hnone.
  assert (Hps : 0 < ps) by apply Hwf.
  pose proof (proj1 (div_block ps r page Hps) Hpage) as Hr.
  assert (Hstart : startRow = page * ps) by done.
  assert (Hend : endRow = page * ps + ps) by done.
  (* the walk before [r] *)
  destruct (moveItemsDown_walk page moveFromIndex moveCount
              (Z.to_nat (endRow - 1 - r)) (endRow - 1) s Hwf Hres)
    as (Hsht & _ & _); fold ps; [lia | lia |].
  fold body in Hsht. fold t in Hsht.
  pose proof (shape_wf _ _ Hsht Hwf) as Hwft.
  pose proof (shape_params _ _ Hsht) as Hpt.
  assert (Hrest : resident t page) by by apply (shape_resident _ _ _ Hsht).
  assert (Hnonet : getBlock t ((r - moveCount) / ps) = None)
    by by apply (shape_getBlock_None _ _ _ Hsht).
  (* the step at [r] *)
  assert (Hget : getRow (r - moveCount) true t = (None, t)).
  { unfold getRow. rewrite Hpt. fold ps. by rewrite Hnonet. }
  assert (Hstep : body t r = setDirty page (setBlankRowNode page r t)).
  { unfold body, moveItemsDown_body. rewrite Hget.
    destruct (r <? moveFromIndex + moveCount) eqn:E; [apply Z.ltb_lt in E; lia | done]. }
  assert (Hpaget : r / pageSize (cacheParams t) = page) by by rewrite Hpt.
  destruct (moveItemsDown_body_spec page moveFromIndex moveCount t r Hwft Hrest Hpaget)
    as (Hshu & _ & _ & Hslotu & _ & _ & Hdu & _).
  fold body in Hshu, Hslotu, Hdu.
  assert (Hsrct : slot t (r - moveCount) = None).
  { apply (slot_None _ _ Hwft). rewrite Hpt. by fold ps. }
  set (u := body t r) in *.
  pose proof (shape_wf _ _ Hshu Hwft) as Hwfu.
  pose proof (shape_params _ _ Hshu) as Hpu.
  assert (Hresu : resident u page) by by apply (shape_resident _ _ _ Hshu).
  (* the walk after [r] *)
  destruct (moveItemsDown_walk page moveFromIndex moveCount
              (Z.to_nat (r - startRow)) (r - 1) u Hwfu Hresu)
    as (Hsh & Hslot & Hmono); rewrite ?Hpu, ?Hpt; fold ps; [lia | lia |].
  fold body in Hsh, Hslot, Hmono.
  assert (Hrun : s' = fold_left body
                        (rowsDownFrom (r - 1) (Z.to_nat (r - startRow))) u).
  { subst s' u t. unfold moveItemsDown. fold ps startRow endRow body.
    replace (Z.to_nat (endRow - startRow))
      with (Z.to_nat (endRow - 1 - r) + S (Z.to_nat (r - startRow)))%nat by lia.
    rewrite rowsDownFrom_split, fold_left_app.
    replace (endRow - 1 - Z.of_nat (Z.to_nat (endRow - 1 - r))) with r by lia.
    done. }
  split; [done|]. split; [done|]. split; [done|].
  rewrite Hrun.
  assert (Hshape : shape (fold_left body
                            (rowsDownFrom (r - 1) (Z.to_nat (r - startRow))) u)
                   = shape s) by by rewrite Hsh, Hshu.
  split.
  { rewrite Hslot by lia. rewrite Hslotu.
    destruct (decide (r = r ∧ _)) as [_|Hn]; [by rewrite Hsrct | by exfalso; apply Hn]. }
  split; [by apply Hmono, Hdu|].
  split; [by apply shape_keys|].
  split; [by apply (shape_getBlock_None _ _ _ Hshape)|].
  rewrite <- Hrun. subst s'.
  destruct (moveItemsDown_frame page moveFromIndex moveCount s) as [[_ Hsc] _].
  unfold scalars in Hsc. by injection Hsc.
Qed.

Lemma moveItemsDown_missing_source_blank_and_dirty_witness :
  slot (moveItemsDown 1 1 1 upperBlockOnly) 2 = Some BlankRow
  ∧ dirtyAt (moveItemsDown 1 1 1 upperBlockOnly) 1 = true
  ∧ slot (moveItemsDown 1 1 1 upperBlockOnly) 3 = Some (Row 2 12).
Proof.
  destruct (moveItemsDown_missing_source_blank_and_dirty 1 1 1 upperBlockOnly 2
              upperBlockOnly_wf)
    as (_ & _ & _ & Hs & Hd & _).
  - by eexists.
  - reflexivity.
  - lia.
  - reflexivity.
  - split; [exact Hs | split; [exact Hd | reflexivity]].
Defined.

(** ** The row count estimate and the notifications *)

Lemma insertItemsAtIndex_run idx items s :
  ∃ s1,
    fold_left (insertItemsAtIndex_block idx items)
      (forEachBlockInReverseOrder s) ([], s)
    = (freshRows (nextRowId s)
         (materialized (cacheParams s) idx items (forEachBlockInReverseOrder s)), s1)
    ∧ frame s s1.
Proof.
  destruct (insertItemsAtIndex_fold_frame idx items (forEachBlockInReverseOrder s) [] s)
    as (s1 & Hrun & _ & Hf).
  exists s1. by rewrite Hrun.
Qed.

Lemma insertItemsAtIndex_estimate idx items s :
  virtualRowCount (insertItemsAtIndex idx items s)
  = (if maxRowFound s then virtualRowCount s + Z.of_nat (length items)
     else virtualRowCount s)
  ∧ maxRowFound (insertItemsAtIndex idx items s) = maxRowFound s.
Proof.
  unfold insertItemsAtIndex.
  destruct (insertItemsAtIndex_run idx items s) as (s1 & -> & [_ Hsc]).
  unfold scalars in Hsc. injection Hsc as Hv Hm Ha He.
  unfold isMaxRowFound, getVirtualRowCount, dispatchModelUpdated, isActive.
  rewrite <- Hm, <- Hv.
  destruct (maxRowFound s1) eqn:Em; simpl; destruct (active s1); simpl; done.
Qed.

(** C6.  [insertItemsAtIndex index items] adds [length items] to
    [virtualRowCount] when [maxRowFound] is true and leaves it as it was when
    [maxRowFound] is false; [maxRowFound] itself is not changed. *)
Theorem insertItemsAtIndex_virtualRowCount idx items s :
  let s' := insertItemsAtIndex idx items s in
  virtualRowCount s'
  = (if maxRowFound s then virtualRowCount s + Z.of_nat (length items)
     else virtualRowCount s)
  ∧ maxRowFound s' = maxRowFound s.
Proof. apply insertItemsAtIndex_estimate. Qed.

Lemma itemsInBlock_elem_of p block idx k items d :
  d ∈ itemsInBlock p block idx k items → d ∈ items.
Proof.
  revert k. induction items as [|x items IH]; intros k; simpl; [done|].
  destruct (_ && _).
  - intros [->|H]%elem_of_cons; [left | right; by eapply IH].
  - intros H. right. by eapply IH.
Qed.

Lemma materialized_elem_of p idx items visit d :
  d ∈ materialized p idx items visit → d ∈ items.
Proof.
  unfold materialized. induction visit as [|b visit IH]; simpl.
  - by intros ?%elem_of_nil.
  - intros [H|H]%elem_of_app; [by eapply itemsInBlock_elem_of | by apply IH].
Qed.

Lemma freshRows_Forall n ds (P : DataItem → Prop) :
  Forall P ds →
  Forall (fun node => ∃ id d, node = Row id d ∧ (n ≤ id)%nat ∧ P d) (freshRows n ds).
Proof.
  intros H. revert n. induction H as [|d ds Hd _ IH]; intros n; simpl; [done|].
  constructor; [by exists n, d|].
  eapply Forall_impl; [apply (IH (S n))|].
  intros node (id & d' & -> & Hle & HP). exists id, d'. split; [done|]. split; [lia | done].
Qed.

(** C7, as the code has it.  [insertItemsAtIndex index items] sends a
    model-updated notification if the cache is active and none if it is not,
    and then one items-added notification.  Its payload holds row identities
    made by this call and nothing else, one for each item whose target
    position lies in a resident block: the blocks in descending order of
    their numbers and, within a block, the items in their order. *)
Theorem insertItemsAtIndex_events idx items s :
  let s' := insertItemsAtIndex idx items s in
  let payload :=
    freshRows (nextRowId s)
      (materialized (cacheParams s) idx items (forEachBlockInReverseOrder s)) in
  events s'
  = events s ++ (if active s then [EVENT_MODEL_UPDATED] else [])
      ++ [EVENT_ITEMS_ADDED payload]
  ∧ Forall (fun node => ∃ id d, node = Row id d ∧ (nextRowId s ≤ id)%nat ∧ d ∈ items)
      payload.
Proof.
  intros s' payload. subst s' payload. split.
  - unfold insertItemsAtIndex.
    destruct (insertItemsAtIndex_run idx items s) as (s1 & -> & [_ Hsc]).
    unfold scalars in Hsc. injection Hsc as Hv Hm Ha He.
    unfold isMaxRowFound, dispatchModelUpdated, isActive. rewrite <- Ha, <- He.
    destruct (maxRowFound s1); simpl; destruct (active s1); simpl;
      by rewrite <- ?app_assoc.
  - apply freshRows_Forall, Forall_forall. intros d. apply materialized_elem_of.
Qed.

(** C7 as stated fails.  On a cache that is not active the call sends no
    model-updated notification; and the two items 98, 99 inserted at
    position 1, which fall into blocks 0 and 1, come in the payload in the
    order 99, 98, in the active cache too. *)
Lemma insertItemsAtIndex_events_counterexample :
  events (insertItemsAtIndex 1 [98; 99] twoBlocksInactive)
  = [EVENT_ITEMS_ADDED [Row 4 99; Row 5 98]]
  ∧ events (insertItemsAtIndex 1 [98; 99] twoBlocks)
    = [EVENT_MODEL_UPDATED; EVENT_ITEMS_ADDED [Row 4 99; Row 5 98]]
  ∧ EVENT_MODEL_UPDATED ∉ events (insertItemsAtIndex 1 [98; 99] twoBlocksInactive).
Proof.
  split; [by vm_compute|]. split; [by vm_compute|].
  intros H. vm_compute in H. apply list_elem_of_singleton in H. done.
Qed.

(** ** Creating a block *)

Lemma sameButState_refl b : sameButState b b.
Proof. done. Qed.

Lemma sameButState_trans b1 b2 b3 :
  sameButState b1 b2 → sameButState b2 b3 → sameButState b1 b3.
Proof. unfold sameButState. intros (?&?&?&?&?) (?&?&?&?&?). repeat split; congruence. Qed.

Lemma quiet_refl s : quiet s s.
Proof.
  repeat split. apply Forall2_same_length_lookup. split; [done|].
  intros i b b' H1 H2. assert (b = b') as -> by congruence. done.
Qed.

Lemma quiet_trans s1 s2 s3 : quiet s1 s2 → quiet s2 s3 → quiet s1 s3.
Proof.
  intros (?&H12&?&?&?&?&?) (?&H23&?&?&?&?&?).
  repeat split; try congruence.
  eapply Forall2_trans; [|exact H12|exact H23].
  intros b1 b2 b3. apply sameButState_trans.
Qed.

Lemma load_quiet id s : quiet s (load id s).
Proof.
  unfold load. destruct (getBlock s id) as [b|]; [|apply quiet_refl].
  repeat split. simpl. apply Forall2_fmap_r, Forall_Forall2_diag, Forall_forall.
  intros b' _. simpl. by destruct (pageNumber b' =? id).
Qed.

Lemma checkBlockToLoad_quiet s : quiet s (checkBlockToLoad s).
Proof.
  unfold checkBlockToLoad. generalize (blocks s) at 1. intros l. revert s.
  induction l as [|b l IH]; intros s; [apply quiet_refl|]. simpl.
  eapply quiet_trans; [|apply IH].
  destruct (needsLoad b); [apply load_quiet | apply quiet_refl].
Qed.

Lemma find_Forall2 (R : InfiniteBlock → InfiniteBlock → Prop) id l l' :
  (∀ b b', R b b' → pageNumber b' = pageNumber b) →
  Forall2 R l l' →
  match find (fun b => pageNumber b =? id) l with
  | Some b => ∃ b', find (fun b => pageNumber b =? id) l' = Some b' ∧ R b b'
  | None => find (fun b => pageNumber b =? id) l' = None
  end.
Proof.
  intros HR. induction 1 as [|b b' l l' Hb _ IH]; simpl; [done|].
  rewrite (HR _ _ Hb). destruct (pageNumber b =? id); [by exists b' | done].
Qed.

Lemma quiet_getBlock s s' id :
  quiet s s' →
  match getBlock s id with
  | Some b => ∃ b', getBlock s' id = Some b' ∧ sameButState b b'
  | None => getBlock s' id = None
  end.
Proof.
  intros (_ & H & _). apply find_Forall2; [|done]. by intros b b' (_ & ? & _).
Qed.

Lemma quiet_keys s s' : quiet s s' → keys s' = keys s.
Proof.
  intros (_ & H & _). unfold keys.
  induction H as [|b b' l l' (_ & Hb & _) _ IH]; simpl; [done|]. by rewrite Hb, IH.
Qed.

Lemma quiet_shape s s' : quiet s s' → shape s' = shape s.
Proof.
  intros (Hp & H & _). unfold shape. rewrite Hp. f_equal.
  induction H as [|b b' l l' (_ & Hb & Hr & _) _ IH]; simpl; [done|].
  by rewrite Hb, Hr, IH.
Qed.

Lemma lru_fold_candidates x l acc :
  fold_left (lruStep x) l acc = fold_left (lruStep x) (candidates x l) acc.
Proof.
  revert acc. unfold candidates. induction l as [|b l IH]; intros acc; [done|].
  simpl. rewrite IH. unfold filter at 2. simpl.
  destruct (decide (blockObj b ≠ blockObj x)) as [Hne|Heq]; simpl.
  - done.
  - unfold lruStep at 2. destruct (Nat.eqb_spec (blockObj b) (blockObj x)); [done|].
    by destruct Heq.
Qed.

Lemma lru_fold_firstLeast x a c :
  Forall (fun b => blockObj b ≠ blockObj x) (a :: c) →
  ∃ m, fold_left (lruStep x) c (Some a) = Some m ∧ firstLeast m (a :: c).
Proof.
  induction c as [|b c IH] using rev_ind; intros Hall.
  { exists a. split; [done|]. exists [], []. by repeat split. }
  rewrite app_comm_cons in Hall. apply Forall_app in Hall as [Hc Hb].
  apply Forall_inv in Hb.
  destruct (IH Hc) as (m & Hm & pre & post & Heq & Hpre & Hpost).
  rewrite fold_left_app, Hm. simpl. unfold lruStep.
  destruct (Nat.eqb_spec (blockObj b) (blockObj x)); [done|].
  destruct (lastAccessed b <? lastAccessed m) eqn:Hlt.
  - apply Z.ltb_lt in Hlt. exists b. split; [done|].
    exists (a :: c), []. split; [done|]. split; [|done].
    rewrite Heq. apply Forall_app. split.
    + eapply Forall_impl; [exact Hpre|]. simpl. intros; lia.
    + constructor; [lia|]. eapply Forall_impl; [exact Hpost|]. simpl. intros; lia.
  - apply Z.ltb_ge in Hlt. exists m. split; [done|].
    exists pre, (post ++ [b]). split.
    + rewrite app_comm_cons, Heq, <- app_assoc. done.
    + split; [done|]. apply Forall_app. split; [done|]. by constructor.
Qed.

(** [findLeastRecentlyUsedPage] returns nothing when no other block is
    resident, and otherwise the first of the other blocks, in the order of
    the scan, among those with the least [lastAccessed]. *)
Lemma findLeastRecentlyUsedPage_spec x s :
  match candidates x (forEachBlockInOrder s) with
  | [] => findLeastRecentlyUsedPage x s = None
  | _ :: _ =>
      ∃ m, findLeastRecentlyUsedPage x s = Some m
           ∧ firstLeast m (candidates x (forEachBlockInOrder s))
  end.
Proof.
  unfold findLeastRecentlyUsedPage. rewrite lru_fold_candidates.
  destruct (candidates x (forEachBlockInOrder s)) as [|a c] eqn:E; [done|].
  simpl. unfold lruStep at 2.
  assert (Hall : Forall (fun b => blockObj b ≠ blockObj x) (a :: c)).
  { rewrite <- E. unfold candidates. apply Forall_forall.
    intros b Hb. by apply list_elem_of_filter in Hb as [? _]. }
  pose proof (Forall_inv Hall) as Ha. simpl in Ha.
  destruct (Nat.eqb_spec (blockObj a) (blockObj x)); [done|].
  by apply lru_fold_firstLeast.
Qed.

Lemma find_absent id (l : list InfiniteBlock) b :
  find (fun b => pageNumber b =? id) l = None → b ∈ l → pageNumber b ≠ id.
Proof.
  intros Hn Hb Heq. apply list_elem_of_In in Hb.
  apply (find_none _ _ Hn) in Hb. apply Z.eqb_neq in Hb. done.
Qed.

Lemma find_app_absent id (l : list InfiniteBlock) nb :
  find (fun b => pageNumber b =? id) l = None → pageNumber nb = id →
  find (fun b => pageNumber b =? id) (l ++ [nb]) = Some nb.
Proof.
  intros Hn Hb. induction l as [|b l IH]; simpl in *.
  - by rewrite Hb, Z.eqb_refl.
  - destruct (pageNumber b =? id); [done | by apply IH].
Qed.

Lemma find_filter_ne id k (l : list InfiniteBlock) :
  id ≠ k →
  find (fun b => pageNumber b =? id) (filter (fun b => pageNumber b ≠ k) l)
  = find (fun b => pageNumber b =? id) l.
Proof.
  intros Hne. induction l as [|b l IH]; [done|].
  rewrite filter_cons. destruct (decide (pageNumber b ≠ k)) as [Hk|Hk]; simpl.
  - by rewrite IH.
  - rewrite IH. destruct (Z.eqb_spec (pageNumber b) id); [|done].
    exfalso. apply Hk. lia.
Qed.

Lemma find_filter_eq k (l : list InfiniteBlock) :
  find (fun b => pageNumber b =? k) (filter (fun b => pageNumber b ≠ k) l) = None.
Proof.
  induction l as [|b l IH]; [done|].
  rewrite filter_cons. destruct (decide (pageNumber b ≠ k)) as [Hk|Hk]; simpl; [|done].
  destruct (Z.eqb_spec (pageNumber b) k); [done | done].
Qed.

Lemma setBlock_new id nb s :
  getBlock s id = None → blocks (setBlock id nb s) = blocks s ++ [nb].
Proof. intros H. unfold setBlock. by rewrite H. Qed.

Lemma createBlock_unfold id s :
  createBlock id s = checkBlockToLoad (createBlock_evicted id s).
Proof. done. Qed.

Lemma createBlock_inserted_blocks id s :
  getBlock s id = None →
  blocks (createBlock_inserted id s)
  = blocks s ++ [new_InfiniteBlock (nextBlockObj s) id (cacheParams s)].
Proof. intros H. unfold createBlock_inserted. by rewrite setBlock_new. Qed.

Lemma createBlock_inserted_params id s :
  cacheParams (createBlock_inserted id s) = cacheParams s.
Proof.
  unfold createBlock_inserted, setBlock. by destruct (getBlock _ id).
Qed.

Lemma createBlock_evicted_params id s :
  cacheParams (createBlock_evicted id s) = cacheParams s.
Proof.
  unfold createBlock_evicted. destruct (needToPurge _).
  - destruct (findLeastRecentlyUsedPage _ _); simpl; apply createBlock_inserted_params.
  - apply createBlock_inserted_params.
Qed.

(** The block that the scan finds is not the new one, nor under its number. *)
Lemma lru_not_new id s m :
  getBlock s id = None →
  findLeastRecentlyUsedPage (new_InfiniteBlock (nextBlockObj s) id (cacheParams s))
    (createBlock_inserted id s) = Some m →
  m ∈ blocks s ∧ pageNumber m ≠ id ∧ blockObj m ≠ nextBlockObj s.
Proof.
  intros Hnone Hm.
  pose proof (findLeastRecentlyUsedPage_spec
                (new_InfiniteBlock (nextBlockObj s) id (cacheParams s))
                (createBlock_inserted id s)) as Hspec.
  destruct (candidates _ _) as [|a c] eqn:E; [congruence|].
  destruct Hspec as (m' & Hm' & pre & post & Heq & _).
  assert (m' = m) as -> by congruence.
  assert (Hin : m ∈ a :: c).
  { rewrite Heq. apply elem_of_app. right. by left. }
  rewrite <- E in Hin. unfold candidates in Hin.
  apply list_elem_of_filter in Hin as [Hobj Hin]. simpl in Hobj.
  unfold forEachBlockInOrder in Hin. rewrite createBlock_inserted_blocks in Hin by done.
  apply elem_of_app in Hin as [Hin|Hin].
  - split; [done|]. split; [|done]. by eapply find_absent.
  - apply list_elem_of_singleton in Hin. by subst m.
Qed.

(** After [createBlock] the new block is resident, whatever was evicted. *)
Lemma createBlock_resident id s :
  getBlock s id = None →
  ∃ b', getBlock (createBlock id s) id = Some b'
        ∧ sameButState (new_InfiniteBlock (nextBlockObj s) id (cacheParams s)) b'
        ∧ cacheParams (createBlock id s) = cacheParams s.
Proof.
  intros Hnone. rewrite createBlock_unfold.
  set (nb := new_InfiniteBlock (nextBlockObj s) id (cacheParams s)).
  assert (H3 : getBlock (createBlock_inserted id s) id = Some nb).
  { unfold getBlock. rewrite createBlock_inserted_blocks by done.
    by apply find_app_absent. }
  assert (H4 : getBlock (createBlock_evicted id s) id = Some nb).
  { unfold createBlock_evicted. fold nb. destruct (needToPurge _); [|done].
    destruct (findLeastRecentlyUsedPage _ _) as [m|] eqn:Hm; [|done].
    apply lru_not_new in Hm as (_ & Hne & _); [|done].
    unfold removeBlockFromCache, removeBlock, getBlock. simpl.
    rewrite find_filter_ne by done. exact H3. }
  pose proof (checkBlockToLoad_quiet (createBlock_evicted id s)) as Hq.
  pose proof (quiet_getBlock _ _ id Hq) as Hg. rewrite H4 in Hg.
  destruct Hg as (b' & Hb' & Hsame). exists b'. split; [done|]. split; [done|].
  destruct Hq as (-> & _). apply createBlock_evicted_params.
Qed.

(** ** [getRow] *)

Lemma getRow_resident r dontCreatePage s :
  resident s (r / pageSize (cacheParams s)) →
  ∃ s', getRow r dontCreatePage s = (slot s r, s')
        ∧ shape s' = shape s ∧ scalars s' = scalars s
        ∧ (∀ r', slot s' r' = slot s r').
Proof.
  intros [b Hb]. unfold getRow. rewrite Hb.
  destruct (block_getRow_spec (r / pageSize (cacheParams s)) r s)
    as (F & s' & Hrun & HF & He & Hsc & _).
  exists s'. unfold slot. rewrite Hrun, Hb. split; [done|].
  split; [by apply (edits_shape _ _ _ _ He), keepsData_keepsShape|].
  split; [done|]. intros r'. apply (edits_keeps_slot _ _ _ _ r' He HF).
Qed.

Lemma getRow_create r s :
  let ps := pageSize (cacheParams s) in
  0 < ps → getBlock s (r / ps) = None →
  ∃ b s',
    getRow r false s = (Some BlankRow, s')
    ∧ getBlock (createBlock (r / ps) s) (r / ps) = Some b
    ∧ pageNumber b = r / ps
    ∧ slotOf (cacheParams s) b r = Some BlankRow
    ∧ resident s' (r / ps)
    ∧ cacheParams s' = cacheParams s
    ∧ scalars s' = scalars (createBlock (r / ps) s).
Proof.
  intros ps Hps Hnone. unfold getRow. fold ps. rewrite Hnone.
  destruct (createBlock_resident (r / ps) s Hnone) as (b & Hb & Hsame & Hp).
  destruct (block_getRow_spec (r / ps) r (createBlock (r / ps) s))
    as (F & s' & Hrun & HF & He & Hsc & _).
  rewrite Hb, Hp in Hrun.
  assert (Hslot : slotOf (cacheParams s) b r = Some BlankRow).
  { destruct Hsame as (_ & Hn & Hr & _). simpl in Hn, Hr.
    unfold slotOf, getStartRow. rewrite Hn, Hr. fold ps.
    pose proof (proj1 (div_block ps r _ Hps) eq_refl) as Hrange.
    destruct (_ <? 0) eqn:E; [apply Z.ltb_lt in E; lia|].
    apply lookup_replicate_2. lia. }
  exists b, s'. rewrite Hrun, Hslot. split; [done|]. split; [done|].
  split; [apply Hsame|]. split; [done|].
  split.
  { apply (shape_resident _ _ _ (edits_shape _ _ _ _ He (keepsData_keepsShape _ HF))).
    by eexists. }
  split; [|done]. destruct He as [-> _]. done.
Qed.

(** C8.  [getRow i] computes [blockId = floor (i / pageSize)].  The range
    of that block, from [blockId * pageSize] to [(blockId + 1) * pageSize]
    without the latter, contains [i], and it is the range of no other block.
    The row returned is the slot for [i] of the block with that number: of
    the resident one, or of the one that [createBlock blockId] has just made;
    and that block is resident after the call.  Without a block and without
    leave to create one, no row is returned. *)
Theorem getRow_served_by_owning_block r dontCreatePage s :
  let p := cacheParams s in
  let blockId := r / pageSize p in
  0 < pageSize p →
  (getStartRow p blockId = blockId * pageSize p
   ∧ getEndRow p blockId = (blockId + 1) * pageSize p
   ∧ getStartRow p blockId ≤ r < getEndRow p blockId)
  ∧ (∀ id, getStartRow p id ≤ r < getEndRow p id → id = blockId)
  ∧ (∀ b, getBlock s blockId = Some b →
       pageNumber b = blockId
       ∧ fst (getRow r dontCreatePage s) = slotOf p b r
       ∧ resident (snd (getRow r dontCreatePage s)) blockId)
  ∧ (getBlock s blockId = None → dontCreatePage = false →
       ∃ b, getBlock (createBlock blockId s) blockId = Some b
            ∧ pageNumber b = blockId
            ∧ fst (getRow r dontCreatePage s) = slotOf p b r
            ∧ resident (snd (getRow r dontCreatePage s)) blockId)
  ∧ (getBlock s blockId = None → dontCreatePage = true →
       getRow r dontCreatePage s = (None, s)).
Proof.
  intros p blockId Hps.
  pose proof (proj1 (div_block _ r _ Hps) eq_refl) as Hrange. fold p blockId in Hrange.
  unfold getEndRow, getStartRow.
  split; [repeat split; lia|].
  split.
  { intros id Hid. symmetry. apply div_block; [done | lia]. }
  split.
  { intros b Hb. split; [by eapply getBlock_pageNumber|].
    destruct (getRow_resident r dontCreatePage s) as (s' & Hrun & Hsh & _).
    { by eexists. }
    rewrite Hrun. simpl. split.
    - unfold slot. fold p blockId. by rewrite Hb.
    - apply (shape_resident _ _ _ Hsh). by eexists. }
  split.
  { intros Hnone ->.
    destruct (getRow_create r s Hps Hnone) as (b & s' & Hrun & Hb & Hn & Hslot & Hres & _).
    exists b. rewrite Hrun. simpl. fold p in Hslot. by rewrite Hslot. }
  intros Hnone ->. unfold getRow. fold p blockId. by rewrite Hnone.
Qed.

Lemma getRow_served_by_owning_block_witness :
  fst (getRow 3 false twoBlocks) = Some (Row 3 13)
  ∧ resident (snd (getRow 3 false twoBlocks)) 1.
Proof.
  destruct (getRow_served_by_owning_block 3 false twoBlocks) as (_ & _ & H & _).
  - simpl. lia.
  - destruct (H (mkBlock 1 1 [Row 2 12; Row 3 13] Loaded false 2) eq_refl)
      as (_ & Hrow & Hres).
    split; [exact Hrow | exact Hres].
Defined.

(** C10.  The hook [init], run on the cache as constructed, calls
    [getRow 0] with leave to create: block 0 is created and is resident when
    [init] is over, so that the block map of an initialized cache is not
    empty. *)
Theorem init_creates_block_zero params :
  let s := init (new_InfiniteCache params) in
  0 < pageSize params →
  blocks (new_InfiniteCache params) = []
  ∧ init (new_InfiniteCache params) = snd (getRow 0 false (new_InfiniteCache params))
  ∧ resident s 0
  ∧ blocks s ≠ [].
Proof.
  intros s Hps. subst s. split; [done|]. split; [done|].
  destruct (getRow_create 0 (new_InfiniteCache params)) as (b & s' & Hrun & _ & _ & _ & Hres & _).
  { done. }
  { done. }
  unfold init. rewrite Hrun. simpl. rewrite Z.div_0_l in Hres by (simpl; lia).
  split; [done|]. intros Hnil. destruct Hres as [b' Hb'].
  unfold getBlock in Hb'. by rewrite Hnil in Hb'.
Qed.

Lemma init_creates_block_zero_witness :
  resident (init (new_InfiniteCache (mkParams 100 None))) 0.
Proof.
  destruct (init_creates_block_zero (mkParams 100 None)) as (_ & _ & H & _).
  - simpl. lia.
  - exact H.
Defined.

(** ** The example of the two blocks *)

Lemma getRows_resident positions :
  ∀ s, Forall (fun r => resident s (r / pageSize (cacheParams s))) positions →
       ∃ s', getRows positions s = (map (slot s) positions, s')
             ∧ shape s' = shape s ∧ scalars s' = scalars s
             ∧ (∀ r', slot s' r' = slot s r').
Proof.
  induction positions as [|r positions IH]; intros s Hres.
  { by exists s. }
  apply Forall_cons in Hres as [Hr Hres].
  destruct (getRow_resident r false s Hr) as (s1 & Hrun1 & Hsh1 & Hsc1 & Hslot1).
  destruct (IH s1) as (s' & Hrun & Hsh & Hsc & Hslot).
  { rewrite (shape_params _ _ Hsh1). eapply Forall_impl; [exact Hres|].
    intros r' Hr'. by apply (shape_resident _ _ _ Hsh1). }
  exists s'. simpl. rewrite Hrun1, Hrun.
  split.
  { do 2 f_equal. apply map_ext. intros r'. apply Hslot1. }
  split; [by rewrite Hsh|]. split; [by rewrite Hsc|].
  intros r'. by rewrite Hslot.
Qed.

Lemma getRows_app l1 l2 s :
  getRows (l1 ++ l2) s
  = let (rows1, s1) := getRows l1 s in
    let (rows2, s2) := getRows l2 s1 in
    (rows1 ++ rows2, s2).
Proof.
  revert s. induction l1 as [|r l1 IH]; intros s; simpl.
  - by destruct (getRows l2 s).
  - destruct (getRow r false s) as [row s1]. rewrite IH.
    destruct (getRows l1 s1) as [rows1 s2]. by destruct (getRows l2 s2).
Qed.

(** C2, as the code has it.  With two rows to the block and the rows
    [r0 r1 | r2 r3] in the resident blocks 0 and 1, [insertItemsAtIndex 1 [x]]
    puts a new row for [x] at position 1 and moves [r1] to 2 and [r2] to 3:
    a reader of the positions 0 to 3 gets [r0], the row of [x], [r1], [r2].
    Position 4 belongs to block 2, which is not resident, and the visit goes
    over the resident blocks only: [r3] is not kept, blocks 0 and 1 are still
    the resident blocks after the call, and the reader who goes on to
    position 4 has block 2 created and gets a blank.  [virtualRowCount] grows
    by one if the end of the data was known and is unchanged if not. *)
Theorem insertItemsAtIndex_two_blocks s m b0 b1 r0 r1 r2 r3 x :
  let s' := insertItemsAtIndex 1 [x] s in
  cacheParams s = mkParams 2 m → blocks s = [b0; b1] →
  pageNumber b0 = 0 → rowNodes b0 = [r0; r1] →
  pageNumber b1 = 1 → rowNodes b1 = [r2; r3] →
  (∃ id, (nextRowId s ≤ id)%nat
         ∧ fst (getRows [0; 1; 2; 3; 4] s')
           = [Some r0; Some (Row id x); Some r1; Some r2; Some BlankRow])
  ∧ keys s' = [0; 1]
  ∧ virtualRowCount s'
    = (if maxRowFound s then virtualRowCount s + 1 else virtualRowCount s).
Proof.
  intros s' Hp Hb Hn0 Hr0 Hn1 Hr1.
  assert (Hwf : wf s).
  { split; [by rewrite Hp|]. unfold keys. rewrite Hp, Hb. simpl. split.
    - rewrite Hn0, Hn1. apply (bool_decide_unpack _). by vm_compute.
    - repeat constructor; [by rewrite Hr0 | by rewrite Hr1]. }
  assert (Hg0 : getBlock s 0 = Some b0).
  { unfold getBlock. rewrite Hb. simpl. by rewrite Hn0. }
  assert (Hg1 : getBlock s 1 = Some b1).
  { unfold getBlock. rewrite Hb. simpl. by rewrite Hn0, Hn1. }
  assert (Hslots : slot s 0 = Some r0 ∧ slot s 1 = Some r1 ∧ slot s 2 = Some r2).
  { unfold slot, slotOf, getStartRow. rewrite Hp. simpl.
    change (0 `div` 2) with 0. change (1 `div` 2) with 0. change (2 `div` 2) with 1.
    rewrite Hg0, Hg1, Hn0, Hn1, Hr0, Hr1. done. }
  destruct Hslots as (Hs0 & Hs1 & Hs2).
  destruct (insertItemsAtIndex_spec 1 [x] s Hwf) as (Hsh & HA & HN & HL & _).
  fold s' in Hsh, HA, HN, HL. rewrite Hp in HA, HN. simpl in HA, HN.
  assert (Hk : keys s' = [0; 1]).
  { rewrite (shape_keys _ _ Hsh). unfold keys. rewrite Hb. simpl. by rewrite Hn0, Hn1. }
  assert (Hp' : cacheParams s' = mkParams 2 m) by by rewrite (shape_params _ _ Hsh).
  destruct (HN 0%nat x eq_refl) as (id & Hx & Hid).
  { change ((1 + Z.of_nat 0) `div` 2) with 0. by eexists. }
  change (1 + Z.of_nat 0) with 1 in Hx.
  destruct (HA 2) as [H2 _]; [change (2 `div` 2) with 1; by eexists | simpl; lia |].
  destruct (HA 3) as [H3 _]; [change (3 `div` 2) with 1; by eexists | simpl; lia |].
  change (2 - Z.of_nat 1) with 1 in H2. change (3 - Z.of_nat 1) with 2 in H3.
  rewrite Hs1 in H2. rewrite Hs2 in H3. simpl in H2, H3.
  pose proof (HL 0 ltac:(lia)) as H0. rewrite Hs0 in H0.
  split.
  { exists id. split; [lia|].
    change [0; 1; 2; 3; 4] with ([0; 1; 2; 3] ++ [4]). rewrite getRows_app.
    destruct (getRows_resident [0; 1; 2; 3] s') as (s1 & Hrun & Hsh1 & _).
    { rewrite Hp'. simpl.
      repeat constructor; apply resident_keys; rewrite Hk;
        apply (bool_decide_unpack _); by vm_compute. }
    rewrite Hrun. simpl. rewrite H0, Hx, H2, H3.
    destruct (getRow_create 4 s1) as (b & s2 & Hrun2 & _).
    { rewrite (shape_params _ _ Hsh1), Hp'. done. }
    { rewrite (shape_params _ _ Hsh1), Hp'. simpl. change (4 `div` 2) with 2.
      destruct (getBlock s1 2) eqn:E; [|done]. exfalso.
      assert (Hres : resident s1 2) by by eexists.
      apply resident_keys in Hres. rewrite (shape_keys _ _ Hsh1), Hk in Hres.
      apply list_elem_of_In in Hres. simpl in Hres. intuition lia. }
    rewrite Hrun2. done. }
  split; [done|].
  destruct (insertItemsAtIndex_estimate 1 [x] s) as [Hv _]. exact Hv.
Qed.

Lemma insertItemsAtIndex_two_blocks_witness :
  keys (insertItemsAtIndex 1 [99] twoBlocks) = [0; 1].
Proof.
  destruct (insertItemsAtIndex_two_blocks twoBlocks None
              (mkBlock 0 0 [Row 0 10; Row 1 11] Loaded false 1)
              (mkBlock 1 1 [Row 2 12; Row 3 13] Loaded false 2)
              (Row 0 10) (Row 1 11) (Row 2 12) (Row 3 13) 99
              eq_refl eq_refl eq_refl eq_refl eq_refl eq_refl)
    as (_ & H & _).
  exact H.
Defined.

(** C2 as stated fails: after [insertItemsAtIndex 1 [99]] on [twoBlocks] the
    reader of the positions 0 to 4 gets a blank at position 4 and not the
    row [r3], which is in no block any more. *)
Lemma insertItemsAtIndex_two_blocks_counterexample :
  fst (getRows [0; 1; 2; 3; 4] (insertItemsAtIndex 1 [99] twoBlocks))
  = [Some (Row 0 10); Some (Row 4 99); Some (Row 1 11); Some (Row 2 12); Some BlankRow]
  ∧ fst (getRows [0; 1; 2; 3; 4] (insertItemsAtIndex 1 [99] twoBlocks))
    ≠ [Some (Row 0 10); Some (Row 4 99); Some (Row 1 11); Some (Row 2 12);
       Some (Row 3 13)]
  ∧ Forall (fun b => Row 3 13 ∉ rowNodes b)
      (blocks (insertItemsAtIndex 1 [99] twoBlocks)).
Proof.
  split; [by vm_compute|]. split; [by vm_compute|].
  vm_compute. repeat constructor.
  - intros H. apply list_elem_of_In in H. simpl in H. intuition congruence.
  - intros H. apply list_elem_of_In in H. simpl in H. intuition congruence.
Qed.

(** ** Eviction *)

Lemma keys_filter k (l : list InfiniteBlock) :
  map pageNumber (filter (fun b => pageNumber b ≠ k) l)
  = filter (fun n => n ≠ k) (map pageNumber l).
Proof.
  induction l as [|b l IH]; [done|]. simpl. rewrite !filter_cons.
  destruct (decide (pageNumber b ≠ k)); simpl; by rewrite IH.
Qed.

Lemma filter_ne_absent (k : Z) (l : list Z) : k ∉ l → filter (fun n => n ≠ k) l = l.
Proof.
  induction l as [|x l IH]; [done|]. intros [Hx Hl]%not_elem_of_cons.
  rewrite filter_cons. destruct (decide (x ≠ k)) as [?|Hn]; [by rewrite IH|].
  exfalso. apply Hn. congruence.
Qed.

Lemma filter_ne_length (k : Z) (l : list Z) :
  NoDup l → k ∈ l → S (length (filter (fun n => n ≠ k) l)) = length l.
Proof.
  induction 1 as [|x l Hx Hnd IH]; [by intros ?%elem_of_nil|].
  intros Hk. rewrite filter_cons. destruct (decide (x ≠ k)) as [Hne|Heq]; simpl.
  - apply elem_of_cons in Hk as [->|Hk]; [done|]. by rewrite IH.
  - assert (x = k) as -> by (destruct (decide (x = k)); [done | by destruct Heq]).
    by rewrite filter_ne_absent.
Qed.

Lemma checkBlockToLoad_scalar_fields s :
  loadListeners (checkBlockToLoad s) = loadListeners s
  ∧ events (checkBlockToLoad s) = events s.
Proof.
  destruct (checkBlockToLoad_quiet s) as (_ & _ & Hsc & _ & _ & Hl & _).
  split; [done|]. unfold scalars in Hsc. by injection Hsc.
Qed.

(** [createBlock] registers [onPageLoaded] on the new block object, once. *)
Lemma createBlock_loadListeners id s :
  loadListeners (createBlock id s) = loadListeners s ++ [nextBlockObj s].
Proof.
  rewrite createBlock_unfold.
  rewrite (proj1 (checkBlockToLoad_scalar_fields _)).
  unfold createBlock_evicted, createBlock_inserted, setBlock.
  destruct (needToPurge _); [destruct (findLeastRecentlyUsedPage _ _)|];
    simpl; by destruct (getBlock _ id).
Qed.




(** ** Eviction and the load listener *)

Lemma filter_singleton_elem_of (obj : nat) (l : list nat) :
  filter (fun o => o = obj) l = [obj] → obj ∈ l.
Proof.
  intros H. assert (Hin : obj ∈ filter (fun o => o = obj) l) by (rewrite H; by left).
  by apply list_elem_of_filter in Hin as [_ ?].
Qed.

Lemma filter_nil_not_elem_of (obj : nat) (l : list nat) :
  filter (fun o => o = obj) l = [] → obj ∉ l.
Proof.
  intros H Hin. assert (Hf : obj ∈ filter (fun o => o = obj) l).
  { by apply list_elem_of_filter. }
  rewrite H in Hf. by apply elem_of_nil in Hf.
Qed.

Lemma removeFirst_last_one (obj : nat) (l : list nat) :
  filter (fun o => o = obj) l = [obj] → obj ∉ removeFirst obj l.
Proof.
  induction l as [|x l IH]; [done|]. rewrite filter_cons. simpl.
  destruct (decide (x = obj)) as [->|Hne].
  - rewrite Nat.eqb_refl. intros [= H]. by apply filter_nil_not_elem_of.
  - destruct (Nat.eqb_spec x obj); [done|]. intros H.
    apply not_elem_of_cons. split; [congruence | by apply IH].
Qed.

(** C5.  [removeBlockFromCache] takes the block out of the block map and
    changes nothing else in the cache: the listener that [createBlock]
    registered on the block object stays registered and the request in flight
    stays in flight.  So for a block that is evicted while it is loading,
    the answer of the datasource, items or failure, still calls the listener,
    once; and the request being answered, a second answer calls nothing. *)
Theorem evicted_block_still_notifies_listener page result s :
  let obj := blockObj page in
  let s1 := removeBlockFromCache (Some page) s in
  let s2 := fetchResolves obj result s1 in
  getBlock s (pageNumber page) = Some page → state page = Loading →
  filter (fun o => o = obj) (pendingLoads s) = [obj] →
  filter (fun l => l = obj) (loadListeners s) = [obj] →
  s1 = set_blocks (filter (fun b => pageNumber b ≠ pageNumber page) (blocks s)) s
  ∧ ¬ resident s1 (pageNumber page)
  ∧ (∀ id, id ≠ pageNumber page → getBlock s1 id = getBlock s id)
  ∧ loadListeners s1 = loadListeners s
  ∧ pendingLoads s1 = pendingLoads s
  ∧ pageLoadedCalls s1 = pageLoadedCalls s
  ∧ events s1 = events s
  ∧ pageLoadedCalls s2 = pageLoadedCalls s ++ [obj]
  ∧ (∀ result', fetchResolves obj result' s2 = s2)
  ∧ (∀ id s0, loadListeners (createBlock id s0)
              = loadListeners s0 ++ [nextBlockObj s0]).
Proof.
  intros obj s1 s2 Hres Hloading Hpending Hlisten.
  split; [done|].
  split.
  { intros [b Hb]. unfold s1, removeBlockFromCache, removeBlock, getBlock in Hb.
    simpl in Hb. by rewrite find_filter_eq in Hb. }
  split.
  { intros id Hne. unfold s1, removeBlockFromCache, removeBlock, getBlock. simpl.
    by apply find_filter_ne. }
  split; [done|]. split; [done|]. split; [done|]. split; [done|].
  assert (Hin : obj ∈ pendingLoads s1) by by apply filter_singleton_elem_of.
  assert (Hgone : obj ∉ pendingLoads s2).
  { unfold s2, fetchResolves. rewrite (bool_decide_eq_true_2 _ Hin).
    destruct result; simpl; by apply removeFirst_last_one. }
  split.
  { unfold s2, fetchResolves. rewrite (bool_decide_eq_true_2 _ Hin).
    destruct result; simpl; by rewrite Hlisten. }
  split.
  { intros result'. unfold fetchResolves at 1.
    by rewrite (bool_decide_eq_false_2 _ Hgone). }
  apply createBlock_loadListeners.
Qed.

Lemma evicted_block_still_notifies_listener_witness :
  let s := init (new_InfiniteCache (mkParams 2 None)) in
  let page := mkBlock 0 0 [BlankRow; BlankRow] Loading false 1 in
  getBlock s 0 = Some page
  ∧ pageLoadedCalls
      (fetchResolves 0 (Some [7; 8]) (removeBlockFromCache (Some page) s))
    = [0%nat].
Proof.
  split; [reflexivity|].
  destruct (evicted_block_still_notifies_listener
              (mkBlock 0 0 [BlankRow; BlankRow] Loading false 1) (Some [7; 8])
              (init (new_InfiniteCache (mkParams 2 None))))
    as (_ & _ & _ & _ & _ & _ & _ & H & _).
  - reflexivity.
  - reflexivity.
  - reflexivity.
  - reflexivity.
  - exact H.
Defined.

(** ** Purging *)

Lemma purge_fold l :
  ∀ s, let s' := fold_left (fun s' b => removeBlockFromCache (Some b) s') l s in
       (∀ b, b ∈ blocks s' → b ∈ blocks s ∧ pageNumber b ∉ map pageNumber l)
       ∧ s' = set_blocks (blocks s') s.
Proof.
  induction l as [|x l IH]; intros s; simpl.
  { split; [|by destruct s]. intros b Hb. split; [done | by intros ?%elem_of_nil]. }
  destruct (IH (removeBlock (pageNumber x) s)) as [Hin Heq]. split.
  - intros b Hb. destruct (Hin b Hb) as [Hb' Hl]. simpl in Hb'.
    apply list_elem_of_filter in Hb' as [Hne Hb']. split; [done|].
    by apply not_elem_of_cons.
  - rewrite Heq at 1. done.
Qed.

Lemma purgeCache_blocks s : blocks (purgeCache s) = [].
Proof.
  unfold purgeCache, forEachBlockInOrder.
  destruct (purge_fold (blocks s) s) as [Hin _].
  set (s' := fold_left _ _ _) in *.
  assert (Hnil : blocks s' = []).
  { destruct (blocks s') as [|b bs] eqn:E; [done|]. exfalso.
    destruct (Hin b) as [Hb Hn]; [by left|].
    apply Hn, list_elem_of_fmap. by exists b. }
  unfold dispatchModelUpdated, isActive. by destruct (active s').
Qed.

Lemma purgeCache_eq s :
  purgeCache s
  = set_events (events s ++ (if active s then [EVENT_MODEL_UPDATED] else []))
      (set_blocks [] s).
Proof.
  pose proof (purgeCache_blocks s) as Hnil. revert Hnil.
  unfold purgeCache, forEachBlockInOrder.
  destruct (purge_fold (blocks s) s) as [_ Heq].
  set (s' := fold_left _ _ _) in *. rewrite Heq.
  unfold dispatchModelUpdated, isActive, dispatchEvent. simpl.
  destruct (active s); simpl; intros ->; [done|].
  unfold set_events, set_blocks. simpl. by rewrite app_nil_r.
Qed.

(** C9, as the code has it.  [purgeCache] evicts every resident block and
    then sends a model-updated notification if the cache is active, and none
    if it is not; nothing else in the cache changes.  Called twice in a row,
    it leaves no resident block after the first call and none after the
    second, and each call sends its own notification under that same
    condition.  The purged cache creates the block again at the next
    [getRow]. *)
Theorem purgeCache_twice s :
  let s1 := purgeCache s in
  let s2 := purgeCache s1 in
  let sent := if active s then [EVENT_MODEL_UPDATED] else [] in
  0 < pageSize (cacheParams s) →
  blocks s1 = [] ∧ blocks s2 = []
  ∧ events s1 = events s ++ sent
  ∧ events s2 = events s1 ++ sent
  ∧ s1 = set_events (events s ++ sent) (set_blocks [] s)
  ∧ s2 = set_events (events s1 ++ sent) s1
  ∧ (∀ r, fst (getRow r false s1) = Some BlankRow
          ∧ resident (snd (getRow r false s1)) (r / pageSize (cacheParams s))).
Proof.
  intros s1 s2 sent Hps.
  assert (H1 : s1 = set_events (events s ++ sent) (set_blocks [] s))
    by apply purgeCache_eq.
  assert (H2 : s2 = set_events (events s1 ++ sent) (set_blocks [] s1)).
  { unfold s2. rewrite purgeCache_eq. by rewrite H1. }
  split; [by rewrite H1|]. split; [by rewrite H2|].
  split; [by rewrite H1|]. split; [by rewrite H2|].
  split; [done|]. split; [by rewrite H2, H1|].
  intros r.
  destruct (getRow_create r s1) as (b & s' & Hrun & _ & _ & _ & Hres & _).
  { by rewrite H1. }
  { by rewrite H1. }
  rewrite Hrun. simpl. split; [done|]. by rewrite H1 in Hres.
Qed.

Lemma purgeCache_twice_witness :
  blocks (purgeCache (purgeCache twoBlocks)) = []
  ∧ events (purgeCache (purgeCache twoBlocks))
    = [EVENT_MODEL_UPDATED; EVENT_MODEL_UPDATED].
Proof.
  destruct (purgeCache_twice twoBlocks) as (_ & Hb & H1 & H2 & _).
  - simpl. lia.
  - split; [exact Hb|]. rewrite H2, H1. reflexivity.
Defined.

(** C9 as stated fails on a cache that is not active: [purgeCache] evicts
    the blocks and sends no notification. *)
Lemma purgeCache_counterexample :
  blocks (purgeCache twoBlocksInactive) = []
  ∧ events (purgeCache twoBlocksInactive) = events twoBlocksInactive
  ∧ events (purgeCache twoBlocksInactive) = [].
Proof. by vm_compute. Qed.

(** ** Well-formedness is an invariant *)

Lemma wf_new_InfiniteCache params :
  0 < pageSize params → wf (new_InfiniteCache params).
Proof. intros Hps. split; [done|]. split; [apply NoDup_nil_2 | done]. Qed.

Lemma wf_createBlock id s : wf s → getBlock s id = None → wf (createBlock id s).
Proof.
  intros (Hps & Hnd & Hlen) Hnone. rewrite createBlock_unfold.
  apply (shape_wf _ _ (quiet_shape _ _ (checkBlockToLoad_quiet _))).
  assert (Hid : id ∉ keys s).
  { intros Hid%resident_keys. destruct Hid as [b Hb]. congruence. }
  assert (Hwf3 : wf (createBlock_inserted id s)).
  { split; [by rewrite createBlock_inserted_params|].
    unfold keys. rewrite createBlock_inserted_params, createBlock_inserted_blocks by done.
    split.
    - rewrite map_app. apply NoDup_app. split; [done|]. split; [|apply NoDup_singleton].
      intros k Hk Hk'%list_elem_of_singleton. simpl in Hk'. by subst k.
    - apply Forall_app. split; [done|]. constructor; [|done].
      simpl. by rewrite length_replicate. }
  unfold createBlock_evicted. destruct (needToPurge _); [|done].
  destruct (findLeastRecentlyUsedPage _ _) as [m|]; [|done].
  destruct Hwf3 as (Hps3 & Hnd3 & Hlen3).
  split; [done|]. unfold keys. simpl. split.
  - rewrite keys_filter. by apply NoDup_filter.
  - apply Forall_forall. intros b [_ Hb]%list_elem_of_filter.
    rewrite Forall_forall in Hlen3. by apply Hlen3.
Qed.

Lemma wf_getRow r dontCreatePage s : wf s → wf (snd (getRow r dontCreatePage s)).
Proof.
  intros Hwf. unfold getRow.
  destruct (getBlock s _) as [b|] eqn:Hb.
  - destruct (block_getRow_spec (r / pageSize (cacheParams s)) r s)
      as (F & s' & Hrun & HF & He & _).
    rewrite Hrun. simpl.
    by apply (shape_wf _ _ (edits_shape _ _ _ _ He (keepsData_keepsShape _ HF))).
  - destruct dontCreatePage; [done|].
    set (id := r / pageSize (cacheParams s)) in *.
    destruct (block_getRow_spec id r (createBlock id s))
      as (F & s' & Hrun & HF & He & _).
    rewrite Hrun. simpl.
    apply (shape_wf _ _ (edits_shape _ _ _ _ He (keepsData_keepsShape _ HF))).
    by apply wf_createBlock.
Qed.

Lemma wf_insertItemsAtIndex idx items s : wf s → wf (insertItemsAtIndex idx items s).
Proof.
  intros Hwf. destruct (insertItemsAtIndex_spec idx items s Hwf) as (Hsh & _).
  by apply (shape_wf _ _ Hsh).
Qed.

Lemma wf_setDirty_fold (l : list InfiniteBlock) :
  ∀ s, shape (fold_left (fun s' b => setDirty (pageNumber b) s') l s) = shape s.
Proof.
  induction l as [|b l IH]; intros s; [done|]. simpl. rewrite IH.
  apply (edits_shape _ _ _ _ (setDirty_edits _ _) markDirty_keepsShape).
Qed.

Lemma wf_refreshCache s : wf s → wf (refreshCache s).
Proof.
  intros Hwf. unfold refreshCache.
  apply (shape_wf _ _ (quiet_shape _ _ (checkBlockToLoad_quiet _))).
  by apply (shape_wf _ _ (wf_setDirty_fold _ _)).
Qed.

Lemma wf_purgeCache s : wf s → wf (purgeCache s).
Proof.
  intros (Hps & _). rewrite purgeCache_eq.
  split; [done|]. split; [apply NoDup_nil_2 | done].
Qed.

Lemma populate_length firstId slots items :
  length (populate firstId slots items) = slots.
Proof.
  revert firstId items. induction slots as [|slots IH]; intros firstId items; [done|].
  simpl. destruct items; simpl; by rewrite IH.
Qed.

Lemma wf_fetchResolves obj result s : wf s → wf (fetchResolves obj result s).
Proof.
  intros Hwf. unfold fetchResolves. destruct (bool_decide _); [|done].
  apply (shape_wf s); [|done]. unfold shape.
  destruct result as [items|]; simpl; f_equal; rewrite map_map; apply map_ext;
    intros b; destruct (Nat.eqb _ _); try done.
  simpl. by rewrite populate_length.
Qed.

(** X17.  Every cache that the operations produce from an initialized cache with
    a positive page size is well-formed. *)
Lemma reachable_wf s : reachable s → wf s.
Proof.
  induction 1 as [params Hps| | | | |].
  - apply wf_getRow. by apply wf_new_InfiniteCache.
  - by apply wf_getRow.
  - by apply wf_insertItemsAtIndex.
  - by apply wf_refreshCache.
  - by apply wf_purgeCache.
  - by apply wf_fetchResolves.
Qed.

(** * Further properties of the operations *)

(** ** Reading rows *)

Lemma getRow_true_fst r s : fst (getRow r true s) = slot s r.
Proof. destruct (getRow_true_spec r s) as (F & s' & -> & _). done. Qed.

Lemma getRow_true_shape r s :
  shape (snd (getRow r true s)) = shape s
  ∧ scalars (snd (getRow r true s)) = scalars s.
Proof.
  destruct (getRow_true_spec r s) as (F & s' & -> & HF & He & Hsc & _). simpl.
  split; [|done]. by apply (edits_shape _ _ _ _ He), keepsData_keepsShape.
Qed.

Lemma shape_slot_None s s' r :
  shape s' = shape s → ¬ resident s (r / pageSize (cacheParams s)) → slot s' r = None.
Proof.
  intros Hsh Hres. unfold slot. rewrite (shape_params _ _ Hsh).
  destruct (getBlock s' _) as [b|] eqn:Hb; [|done].
  exfalso. apply Hres, (shape_resident _ _ _ Hsh). by eexists.
Qed.

Lemma not_resident_slot s r :
  ¬ resident s (r / pageSize (cacheParams s)) → slot s r = None.
Proof. by apply shape_slot_None. Qed.

(** X1.  [getRow] without leave to create returns no row exactly when no block
    is resident for the position; whatever it returns, the same blocks are
    resident afterwards and nothing has been notified. *)
Theorem getRow_without_creation r s :
  let ps := pageSize (cacheParams s) in
  wf s →
  (fst (getRow r true s) = None ↔ ¬ resident s (r / ps))
  ∧ keys (snd (getRow r true s)) = keys s
  ∧ events (snd (getRow r true s)) = events s
  ∧ virtualRowCount (snd (getRow r true s)) = virtualRowCount s.
Proof.
  intros ps Hwf. destruct (getRow_true_shape r s) as [Hsh Hsc].
  unfold scalars in Hsc. injection Hsc as Hv _ _ He.
  split; [|by rewrite (shape_keys _ _ Hsh)].
  rewrite getRow_true_fst, (slot_None s r Hwf). fold ps. split.
  - intros Hn [b Hb]. congruence.
  - intros Hn. destruct (getBlock s _) eqn:E; [|done]. exfalso. apply Hn. by eexists.
Qed.

Lemma getRow_without_creation_witness :
  fst (getRow 5 true twoBlocks) = None
  ∧ keys (snd (getRow 5 true twoBlocks)) = [0; 1].
Proof.
  destruct (getRow_without_creation 5 twoBlocks twoBlocks_wf) as (Hnone & Hkeys & _).
  split; [|exact Hkeys]. apply Hnone. intros [b Hb]. vm_compute in Hb. discriminate Hb.
Defined.

(** X2.  [getRow] with leave to create always returns a row, on a well-formed
    cache: the row of the resident block, or a blank of the block it
    creates. *)
Theorem getRow_with_creation_returns_row r s :
  wf s →
  ∃ node, fst (getRow r false s) = Some node
          ∧ (¬ resident s (r / pageSize (cacheParams s)) → node = BlankRow).
Proof.
  intros Hwf. destruct (getBlock s (r / pageSize (cacheParams s))) as [b|] eqn:Hb.
  - assert (Hres : resident s (r / pageSize (cacheParams s))) by by eexists.
    destruct (getRow_resident r false s Hres) as (s' & Hrun & _).
    destruct (slot_is_Some s r Hwf Hres) as [node Hnode].
    exists node. rewrite Hrun. simpl. split; [done|]. intros Hn. by destruct Hn.
  - destruct (getRow_create r s (proj1 Hwf) Hb) as (b & s' & Hrun & _).
    exists BlankRow. by rewrite Hrun.
Qed.

Lemma getRow_with_creation_returns_row_witness :
  fst (getRow 5 false twoBlocks) = Some BlankRow.
Proof.
  destruct (getRow_with_creation_returns_row 5 twoBlocks twoBlocks_wf)
    as (node & Hrow & Hblank).
  rewrite Hrow. f_equal. apply Hblank.
  intros [b Hb]. vm_compute in Hb. discriminate Hb.
Defined.

(** X3.  A read of a position whose block is resident changes no row, creates
    and evicts no block and notifies nothing, with or without leave to
    create: what it changes is the stamp and the load state of that block. *)
Theorem getRow_of_resident_block_reads_only r dontCreatePage s :
  let s' := snd (getRow r dontCreatePage s) in
  resident s (r / pageSize (cacheParams s)) →
  fst (getRow r dontCreatePage s) = fst (getRow r true s)
  ∧ (∀ r', fst (getRow r' true s') = fst (getRow r' true s))
  ∧ keys s' = keys s
  ∧ events s' = events s
  ∧ virtualRowCount s' = virtualRowCount s
  ∧ (∀ id, id ≠ r / pageSize (cacheParams s) → getBlock s' id = getBlock s id).
Proof.
  intros s' Hres. subst s'.
  destruct Hres as [b Hb].
  assert (Hrun : getRow r dontCreatePage s
                 = block_getRow (r / pageSize (cacheParams s)) r s).
  { unfold getRow. by rewrite Hb. }
  destruct (block_getRow_spec (r / pageSize (cacheParams s)) r s)
    as (F & s' & Hrun' & HF & He & Hsc & _).
  rewrite Hrun, Hrun', Hb. simpl.
  unfold scalars in Hsc. injection Hsc as Hv _ _ Hev.
  pose proof (edits_shape _ _ _ _ He (keepsData_keepsShape _ HF)) as Hsh.
  split; [by rewrite getRow_true_fst; unfold slot; rewrite Hb|].
  split.
  { intros r'. rewrite !getRow_true_fst. apply (edits_keeps_slot _ _ _ _ r' He HF). }
  split; [by apply shape_keys|]. split; [done|]. split; [done|].
  intros id Hne. by apply (edits_untouched _ _ _ _ id He (keepsData_keepsShape _ HF)).
Qed.

Lemma getRow_of_resident_block_reads_only_witness :
  fst (getRow 1 false twoBlocks) = fst (getRow 1 true twoBlocks)
  ∧ keys (snd (getRow 1 false twoBlocks)) = [0; 1].
Proof.
  destruct (getRow_of_resident_block_reads_only 1 false twoBlocks)
    as (Hrow & _ & Hkeys & _).
  - by eexists.
  - split; [exact Hrow | exact Hkeys].
Defined.

(** X4.  Two reads of one position in a row return the same row, and the second
    read finds the same blocks resident as the first has left: a block that
    the first read creates is not created again. *)
Theorem getRow_twice_same_row r dontCreatePage s :
  let s1 := snd (getRow r dontCreatePage s) in
  0 < pageSize (cacheParams s) →
  fst (getRow r dontCreatePage s1) = fst (getRow r dontCreatePage s)
  ∧ keys (snd (getRow r dontCreatePage s1)) = keys s1.
Proof.
  intros s1 Hps. subst s1.
  destruct (getBlock s (r / pageSize (cacheParams s))) as [b|] eqn:Hb.
  - assert (Hres : resident s (r / pageSize (cacheParams s))) by by eexists.
    destruct (getRow_resident r dontCreatePage s Hres) as (s' & Hrun & Hsh & _ & Hslot).
    rewrite Hrun. simpl.
    assert (Hres' : resident s' (r / pageSize (cacheParams s'))).
    { rewrite (shape_params _ _ Hsh). by apply (shape_resident _ _ _ Hsh). }
    destruct (getRow_resident r dontCreatePage s' Hres') as (s2 & Hrun2 & Hsh2 & _).
    rewrite Hrun2. simpl. split; [apply Hslot | by apply shape_keys].
  - destruct dontCreatePage.
    + assert (Hrun : getRow r true s = (None, s)) by (unfold getRow; by rewrite Hb).
      rewrite Hrun. simpl. by rewrite Hrun.
    + set (id := r / pageSize (cacheParams s)) in *.
      destruct (createBlock_resident id s Hb) as (nb & Hnb & Hsame & Hp).
      destruct (block_getRow_spec id r (createBlock id s))
        as (F & s' & Hrun' & HF & He & _).
      assert (Hrun : getRow r false s = block_getRow id r (createBlock id s)).
      { unfold getRow. fold id. by rewrite Hb. }
      rewrite Hrun, Hrun', Hnb. simpl.
      pose proof (edits_shape _ _ _ _ He (keepsData_keepsShape _ HF)) as Hsh.
      assert (Hps' : cacheParams s' = cacheParams s) by by rewrite (shape_params _ _ Hsh).
      assert (Hres' : resident s' (r / pageSize (cacheParams s'))).
      { rewrite Hps'. fold id. apply (shape_resident _ _ _ Hsh). by eexists. }
      destruct (getRow_resident r false s' Hres') as (s2 & Hrun2 & Hsh2 & _).
      rewrite Hrun2. simpl. split; [|by apply shape_keys].
      rewrite (edits_keeps_slot _ _ _ _ r He HF). unfold slot. rewrite Hp. fold id.
      by rewrite Hnb.
Qed.

Lemma getRow_twice_same_row_witness :
  fst (getRow 5 false (snd (getRow 5 false twoBlocks))) = fst (getRow 5 false twoBlocks).
Proof.
  destruct (getRow_twice_same_row 5 false twoBlocks) as [H _]; [simpl; lia|]. exact H.
Defined.

(** ** What the insertion does to the rows and to the blocks *)

Lemma materialized_nil p idx visit : materialized p idx [] visit = [].
Proof. unfold materialized. induction visit as [|b visit IH]; [done | by simpl]. Qed.

(** X5.  After [insertItemsAtIndex index items], a read of the position
    [index + i] returns a row that carries [items[i]] and that this call has
    made, if the block of that position is resident. *)
Theorem insertItemsAtIndex_then_getRow idx items s (i : nat) d :
  let s' := insertItemsAtIndex idx items s in
  let r := idx + Z.of_nat i in
  wf s → items !! i = Some d → resident s (r / pageSize (cacheParams s)) →
  ∃ id, fst (getRow r true s') = Some (Row id d)
        ∧ fst (getRow r false s') = Some (Row id d)
        ∧ (nextRowId s ≤ id < nextRowId s')%nat.
Proof.
  intros s' r Hwf Hi Hres.
  destruct (insertItemsAtIndex_spec idx items s Hwf) as (Hsh & _ & HN & _).
  fold s' in Hsh, HN.
  destruct (HN i d Hi Hres) as (id & Hslot & Hid). fold r in Hslot.
  exists id. rewrite getRow_true_fst. split; [done|]. split; [|done].
  destruct (getRow_resident r false s') as (s2 & Hrun & _).
  { rewrite (shape_params _ _ Hsh). by apply (shape_resident _ _ _ Hsh). }
  by rewrite Hrun.
Qed.

Lemma insertItemsAtIndex_then_getRow_witness :
  ∃ id, fst (getRow 1 true (insertItemsAtIndex 1 [99] twoBlocks)) = Some (Row id 99).
Proof.
  destruct (insertItemsAtIndex_then_getRow 1 [99] twoBlocks 0 99 twoBlocks_wf)
    as (id & Hrow & _).
  - reflexivity.
  - by eexists.
  - exists id. exact Hrow.
Defined.

(** X6.  [insertItemsAtIndex] leaves the row at every position before the index
    as it was, in the blocks that it visits as in those that it skips. *)
Theorem insertItemsAtIndex_keeps_rows_before_index idx items s r :
  wf s → r < idx →
  fst (getRow r true (insertItemsAtIndex idx items s)) = fst (getRow r true s).
Proof.
  intros Hwf Hlt. rewrite !getRow_true_fst.
  destruct (insertItemsAtIndex_spec idx items s Hwf) as (_ & _ & _ & HL & _).
  by apply HL.
Qed.

Lemma insertItemsAtIndex_keeps_rows_before_index_witness :
  fst (getRow 2 true (insertItemsAtIndex 3 [98; 99] twoBlocks)) = Some (Row 2 12).
Proof.
  rewrite (insertItemsAtIndex_keeps_rows_before_index 3 [98; 99] twoBlocks 2 twoBlocks_wf).
  - reflexivity.
  - lia.
Defined.

(** X7.  [insertItemsAtIndex] creates no block and evicts none: the resident
    blocks are the same before and after, in the same order of the block
    map and with the same number of slots. *)
Theorem insertItemsAtIndex_keeps_resident_blocks idx items s :
  let s' := insertItemsAtIndex idx items s in
  wf s →
  keys s' = keys s
  ∧ getBlockCount s' = getBlockCount s
  ∧ map (fun b => length (rowNodes b)) (blocks s')
    = map (fun b => length (rowNodes b)) (blocks s)
  ∧ cacheParams s' = cacheParams s.
Proof.
  intros s' Hwf.
  destruct (insertItemsAtIndex_spec idx items s Hwf) as (Hsh & _). fold s' in Hsh.
  pose proof (shape_keys _ _ Hsh) as Hk.
  split; [done|]. split.
  { unfold getBlockCount. f_equal.
    rewrite <- (length_map pageNumber (blocks s')), <- (length_map pageNumber (blocks s)).
    fold (keys s') (keys s). by rewrite Hk. }
  split; [|by apply shape_params].
  unfold shape in Hsh. injection Hsh as _ Hm.
  apply (f_equal (map snd)) in Hm. by rewrite !map_map in Hm.
Qed.

Lemma insertItemsAtIndex_keeps_resident_blocks_witness :
  keys (insertItemsAtIndex 0 [7; 8; 9] twoBlocks) = [0; 1].
Proof.
  destruct (insertItemsAtIndex_keeps_resident_blocks 0 [7; 8; 9] twoBlocks twoBlocks_wf)
    as (H & _).
  exact H.
Defined.

(** X8.  [insertItemsAtIndex] with no item moves no row: every position reads as
    before, [virtualRowCount] is unchanged, and the items-added notification
    goes out all the same, with an empty payload. *)
Theorem insertItemsAtIndex_no_items idx s :
  let s' := insertItemsAtIndex idx [] s in
  wf s →
  (∀ r, fst (getRow r true s') = fst (getRow r true s))
  ∧ virtualRowCount s' = virtualRowCount s
  ∧ nextRowId s' = nextRowId s
  ∧ events s' = events s ++ (if active s then [EVENT_MODEL_UPDATED] else [])
                  ++ [EVENT_ITEMS_ADDED []].
Proof.
  intros s' Hwf.
  destruct (insertItemsAtIndex_spec idx [] s Hwf) as (Hsh & HA & _ & HL & _).
  fold s' in Hsh, HA, HL. simpl in HA.
  split.
  { intros r. rewrite !getRow_true_fst.
    destruct (decide (r < idx)) as [Hlt|Hge]; [by apply HL|].
    destruct (getBlock s (r / pageSize (cacheParams s))) as [b|] eqn:Hb.
    - assert (Hres : resident s (r / pageSize (cacheParams s))) by by eexists.
      destruct (HA r Hres ltac:(lia)) as [Hs _].
      destruct (slot_is_Some s r Hwf Hres) as [node Hnode].
      rewrite Hs, Z.sub_0_r, Hnode. done.
    - assert (Hn : ¬ resident s (r / pageSize (cacheParams s))).
      { intros [b Hb']. congruence. }
      by rewrite (shape_slot_None _ _ _ Hsh Hn), (not_resident_slot _ _ Hn). }
  destruct (insertItemsAtIndex_estimate idx [] s) as [Hv _]. fold s' in Hv.
  split; [rewrite Hv; destruct (maxRowFound s); simpl; lia|].
  unfold s', insertItemsAtIndex.
  destruct (insertItemsAtIndex_fold_frame idx [] (forEachBlockInReverseOrder s) [] s)
    as (s1 & Hrun & Hid & [_ Hsc]).
  rewrite Hrun. rewrite materialized_nil in *. simpl in *.
  unfold scalars in Hsc. injection Hsc as _ Hm Ha He.
  unfold isMaxRowFound, dispatchModelUpdated, isActive. rewrite <- Ha, <- He.
  destruct (maxRowFound s1); simpl; destruct (active s1); simpl;
    rewrite <- ?app_assoc; split; (done || lia).
Qed.

Lemma insertItemsAtIndex_no_items_witness :
  nextRowId (insertItemsAtIndex 1 [] twoBlocks) = nextRowId twoBlocks.
Proof.
  destruct (insertItemsAtIndex_no_items 1 twoBlocks twoBlocks_wf) as (_ & _ & H & _).
  exact H.
Defined.

(** X9.  [moveItemsDown] writes in its own block only, and there only at the
    positions from [moveFromIndex + moveCount] on; it makes no row identity,
    notifies nothing and leaves the resident blocks as they are. *)
Theorem moveItemsDown_writes_own_block_only page idx cnt s :
  let ps := pageSize (cacheParams s) in
  let s' := moveItemsDown page idx cnt s in
  wf s → resident s page → 0 ≤ cnt →
  (∀ r, r / ps ≠ page ∨ r < idx + cnt →
        fst (getRow r true s') = fst (getRow r true s))
  ∧ keys s' = keys s
  ∧ nextRowId s' = nextRowId s
  ∧ events s' = events s
  ∧ virtualRowCount s' = virtualRowCount s.
Proof.
  intros ps s' Hwf Hres Hcnt.
  destruct (moveItemsDown_spec page idx cnt s Hcnt Hwf Hres)
    as (Hsh & Hsc & Hid & Hslot & _).
  fold ps s' in Hsh, Hsc, Hid, Hslot.
  unfold scalars in Hsc. injection Hsc as Hv _ _ He.
  split.
  { intros r Hr. rewrite !getRow_true_fst, Hslot.
    destruct (decide _) as [[? ?]|]; [|done]. destruct Hr; [done | lia]. }
  split; [by apply shape_keys|]. done.
Qed.

Lemma moveItemsDown_writes_own_block_only_witness :
  fst (getRow 1 true (moveItemsDown 1 1 1 twoBlocks)) = Some (Row 1 11).
Proof.
  destruct (moveItemsDown_writes_own_block_only 1 1 1 twoBlocks twoBlocks_wf)
    as (H & _).
  - by eexists.
  - lia.
  - rewrite (H 1); [reflexivity | left; by vm_compute].
Defined.

(** ** Refreshing *)

Lemma markDirty_fold (l : list InfiniteBlock) :
  ∀ s, fold_left (fun s' b => setDirty (pageNumber b) s') l s
       = set_blocks
           (map (fun b => if bool_decide (pageNumber b ∈ map pageNumber l)
                          then markDirty b else b) (blocks s)) s.
Proof.
  induction l as [|x l IH]; intros s.
  { simpl. destruct s as [p bs v mr a las nr nb ll pl plc ev].
    unfold set_blocks. simpl. f_equal. induction bs as [|b bs IHb]; [done|].
    simpl. by rewrite <- IHb. }
  simpl. rewrite IH. unfold setDirty, updateBlock, set_blocks. simpl. f_equal.
  rewrite map_map. apply map_ext. intros b.
  destruct (Z.eqb_spec (pageNumber b) (pageNumber x)) as [Heq|Hne].
  - rewrite (bool_decide_eq_true_2 (pageNumber b ∈ pageNumber x :: map pageNumber l));
      [|rewrite Heq; by left].
    by destruct (bool_decide _).
  - destruct (decide (pageNumber b ∈ map pageNumber l)) as [Hin|Hnin].
    + rewrite !bool_decide_eq_true_2; [done | by right | done].
    + rewrite !bool_decide_eq_false_2; [done | | done].
      by intros [?|?]%elem_of_cons.
Qed.

(** X13.  [refreshCache] marks every resident block dirty.  It takes no block out
    of the cache and puts none in, changes no row and no stamp, and notifies
    nothing. *)
Theorem refreshCache_marks_every_block_dirty s :
  Forall2 (fun b b' => blockObj b' = blockObj b ∧ pageNumber b' = pageNumber b
                       ∧ rowNodes b' = rowNodes b
                       ∧ lastAccessed b' = lastAccessed b
                       ∧ dirty b' = true)
    (blocks s) (blocks (refreshCache s))
  ∧ keys (refreshCache s) = keys s
  ∧ events (refreshCache s) = events s
  ∧ virtualRowCount (refreshCache s) = virtualRowCount s
  ∧ cacheParams (refreshCache s) = cacheParams s.
Proof.
  unfold refreshCache, forEachBlockInOrder. rewrite markDirty_fold.
  set (s1 := set_blocks _ s).
  destruct (checkBlockToLoad_quiet s1) as (Hp & Hb & Hsc & _).
  pose proof (quiet_keys _ _ (checkBlockToLoad_quiet s1)) as Hk.
  unfold scalars in Hsc. injection Hsc as Hv _ _ He.
  assert (H1 : blocks s1 = map markDirty (blocks s)).
  { unfold s1. simpl. apply map_ext_in. intros b Hb'.
    rewrite bool_decide_eq_true_2; [done|].
    apply list_elem_of_fmap. exists b. split; [done | by apply list_elem_of_In]. }
  split.
  { rewrite H1 in Hb. change (map markDirty (blocks s)) with (markDirty <$> blocks s) in Hb.
    rewrite Forall2_fmap_l in Hb.
    eapply Forall2_impl; [exact Hb|]. intros b b' (?&?&?&?&?). simpl in *. done. }
  split.
  { rewrite Hk. unfold keys. rewrite H1, map_map. done. }
  done.
Qed.

(** ** The least recently used block *)

Lemma firstLeast_least m l :
  firstLeast m l → m ∈ l ∧ Forall (fun b => lastAccessed m ≤ lastAccessed b) l.
Proof.
  intros (pre & post & -> & Hpre & Hpost). split.
  - apply elem_of_app. right. by left.
  - apply Forall_app. split.
    + eapply Forall_impl; [exact Hpre|]. simpl. intros; lia.
    + constructor; [lia | done].
Qed.

(** X14.  [findLeastRecentlyUsedPage] never returns the excluded block.  It
    returns nothing exactly when the cache holds no other block, and
    otherwise a resident block whose [lastAccessed] is not above that of any
    other block but the excluded one. *)
Theorem findLeastRecentlyUsedPage_least pageToExclude s :
  match findLeastRecentlyUsedPage pageToExclude s with
  | None => ∀ b, b ∈ blocks s → blockObj b = blockObj pageToExclude
  | Some lru =>
      lru ∈ blocks s
      ∧ blockObj lru ≠ blockObj pageToExclude
      ∧ (∀ b, b ∈ blocks s → blockObj b ≠ blockObj pageToExclude →
              lastAccessed lru ≤ lastAccessed b)
  end.
Proof.
  pose proof (findLeastRecentlyUsedPage_spec pageToExclude s) as Hspec.
  unfold forEachBlockInOrder in Hspec.
  destruct (candidates pageToExclude (blocks s)) as [|a c] eqn:E.
  - rewrite Hspec. intros b Hb.
    destruct (decide (blockObj b = blockObj pageToExclude)) as [|Hne]; [done|].
    assert (Hin : b ∈ candidates pageToExclude (blocks s)).
    { by apply list_elem_of_filter. }
    rewrite E in Hin. by apply elem_of_nil in Hin.
  - destruct Hspec as (m & -> & Hfirst).
    apply firstLeast_least in Hfirst as [Hin Hleast]. rewrite <- E in Hin, Hleast.
    apply list_elem_of_filter in Hin as [Hobj Hin].
    split; [done|]. split; [done|].
    intros b Hb Hne. rewrite Forall_forall in Hleast. apply Hleast.
    by apply list_elem_of_filter.
Qed.

(** ** Creating a block within the bound *)

Lemma find_app_present id (l l' : list InfiniteBlock) b :
  find (fun b => pageNumber b =? id) l = Some b →
  find (fun b => pageNumber b =? id) (l ++ l') = Some b.
Proof.
  induction l as [|x l IH]; simpl; [done|].
  destruct (pageNumber x =? id); [done | apply IH].
Qed.

Lemma needToPurge_inserted id s :
  getBlock s id = None →
  needToPurge (createBlock_inserted id s)
  = match maxBlocksInCache (cacheParams s) with
    | Some m => m <? getBlockCount s + 1
    | None => false
    end.
Proof.
  intros Hnone. unfold needToPurge, getBlockCount.
  rewrite createBlock_inserted_params, createBlock_inserted_blocks by done.
  destruct (maxBlocksInCache _); [|done]. rewrite length_app. simpl. f_equal. lia.
Qed.

(** X15.  Without a bound on the number of blocks, or with room under the bound,
    [createBlock] evicts nothing: the resident blocks are those that were
    resident, with their rows, flags and stamps, and the new one after
    them. *)
Theorem createBlock_with_room_evicts_nothing id s :
  getBlock s id = None →
  match maxBlocksInCache (cacheParams s) with
  | Some m => getBlockCount s < m
  | None => True
  end →
  keys (createBlock id s) = keys s ++ [id]
  ∧ getBlockCount (createBlock id s) = getBlockCount s + 1
  ∧ (∀ k b, getBlock s k = Some b →
       ∃ b', getBlock (createBlock id s) k = Some b' ∧ sameButState b b')
  ∧ events (createBlock id s) = events s.
Proof.
  intros Hnone Hroom.
  assert (Hev : createBlock_evicted id s = createBlock_inserted id s).
  { unfold createBlock_evicted. rewrite needToPurge_inserted by done.
    destruct (maxBlocksInCache _) as [m|]; [|done].
    destruct (Z.ltb_spec m (getBlockCount s + 1)); [lia | done]. }
  rewrite createBlock_unfold, Hev.
  pose proof (checkBlockToLoad_quiet (createBlock_inserted id s)) as Hq.
  assert (Hk : keys (checkBlockToLoad (createBlock_inserted id s)) = keys s ++ [id]).
  { rewrite (quiet_keys _ _ Hq). unfold keys.
    rewrite createBlock_inserted_blocks by done. by rewrite map_app. }
  split; [done|]. split.
  { unfold getBlockCount.
    rewrite <- (length_map pageNumber (blocks (checkBlockToLoad _))).
    fold (keys (checkBlockToLoad (createBlock_inserted id s))).
    rewrite Hk, length_app. unfold keys. rewrite length_map. simpl. lia. }
  split.
  { intros k b Hb. pose proof (quiet_getBlock _ _ k Hq) as Hg.
    assert (H3 : getBlock (createBlock_inserted id s) k = Some b).
    { unfold getBlock. rewrite createBlock_inserted_blocks by done.
      by apply find_app_present. }
    by rewrite H3 in Hg. }
  rewrite (proj2 (checkBlockToLoad_scalar_fields _)).
  unfold createBlock_inserted, setBlock. by destruct (getBlock _ id).
Qed.

Lemma createBlock_with_room_evicts_nothing_witness :
  keys (createBlock 2 twoBlocks) = [0; 1; 2].
Proof.
  destruct (createBlock_with_room_evicts_nothing 2 twoBlocks) as (H & _).
  - reflexivity.
  - exact I.
  - exact H.
Defined.

(** ** The items that the insertion places *)

Lemma inBlock_div p b r :
  0 < pageSize p →
  (getStartRow p b <=? r) && (r <? getEndRow p b) = bool_decide (r / pageSize p = b).
Proof.
  intros Hps. unfold getEndRow, getStartRow.
  destruct (decide (r / pageSize p = b)) as [Heq|Hne].
  - rewrite (bool_decide_eq_true_2 _ Heq). apply (div_block _ _ _ Hps) in Heq.
    apply andb_true_iff. split; [apply Z.leb_le | apply Z.ltb_lt]; lia.
  - rewrite (bool_decide_eq_false_2 _ Hne). apply andb_false_iff.
    destruct (Z.leb_spec (b * pageSize p) r); [|by left]. right.
    apply Z.ltb_ge. destruct (decide (b * pageSize p + pageSize p ≤ r)); [done|].
    exfalso. apply Hne. apply div_block; lia.
Qed.

Lemma materialized_step p idx k d items visit :
  0 < pageSize p → NoDup visit →
  flat_map (fun b => itemsInBlock p b idx k (d :: items)) visit
  ≡ₚ (if bool_decide ((idx + k) / pageSize p ∈ visit) then [d] else [])
     ++ flat_map (fun b => itemsInBlock p b idx (k + 1) items) visit.
Proof.
  intros Hps. induction 1 as [|b visit Hb Hnd IH].
  { cbn [flat_map]. rewrite bool_decide_eq_false_2; [done|]. by intros ?%elem_of_nil. }
  cbn [flat_map itemsInBlock]. rewrite IH, (inBlock_div p b _ Hps).
  destruct (decide ((idx + k) / pageSize p = b)) as [Heq|Hne].
  - rewrite (bool_decide_eq_true_2 _ Heq).
    rewrite (bool_decide_eq_true_2 (_ ∈ b :: visit)) by (rewrite Heq; by left).
    rewrite (bool_decide_eq_false_2 (_ ∈ visit)) by by rewrite Heq.
    done.
  - rewrite (bool_decide_eq_false_2 _ Hne).
    destruct (decide ((idx + k) / pageSize p ∈ visit)) as [Hin|Hnin].
    + rewrite !bool_decide_eq_true_2; [|by right|done]. simpl.
      by rewrite Permutation_middle.
    + rewrite !bool_decide_eq_false_2; [done| |done].
      by intros [?|?]%elem_of_cons.
Qed.

Lemma materialized_perm p idx visit :
  0 < pageSize p → NoDup visit →
  ∀ items k,
    flat_map (fun b => itemsInBlock p b idx k items) visit
    ≡ₚ itemsWithTargetIn p visit (idx + k) items.
Proof.
  intros Hps Hnd. induction items as [|d items IH]; intros k.
  { simpl. induction visit as [|b visit IHv]; [done|].
    simpl. apply IHv. by apply NoDup_cons in Hnd as [_ ?]. }
  rewrite (materialized_step _ _ _ _ _ _ Hps Hnd), IH. simpl.
  replace (idx + (k + 1)) with (idx + k + 1) by lia.
  by destruct (bool_decide _).
Qed.

Lemma itemsWithTargetIn_ext p v1 v2 :
  (∀ x, x ∈ v1 ↔ x ∈ v2) →
  ∀ items r, itemsWithTargetIn p v1 r items = itemsWithTargetIn p v2 r items.
Proof.
  intros Hv. induction items as [|d items IH]; intros r; [done|]. simpl.
  rewrite IH. by rewrite (bool_decide_ext _ _ (Hv _)).
Qed.

(** X10.  The payload of the items-added notification of [insertItemsAtIndex]
    carries the inserted items whose target position lies in a resident
    block, each of them once, and no other item; the call makes one row
    identity for each of them and no other row identity. *)
Theorem insertItemsAtIndex_places_items_of_resident_blocks idx items s :
  let s' := insertItemsAtIndex idx items s in
  wf s →
  ∃ payload ds,
    last (events s') = Some (EVENT_ITEMS_ADDED payload)
    ∧ payload = freshRows (nextRowId s) ds
    ∧ ds ≡ₚ itemsWithTargetIn (cacheParams s) (keys s) idx items
    ∧ nextRowId s' = (nextRowId s + length ds)%nat.
Proof.
  intros s' (Hps & Hnd & _).
  set (visit := forEachBlockInReverseOrder s).
  exists (freshRows (nextRowId s) (materialized (cacheParams s) idx items visit)),
         (materialized (cacheParams s) idx items visit).
  unfold s', insertItemsAtIndex.
  destruct (insertItemsAtIndex_fold_frame idx items visit [] s)
    as (s1 & Hrun & Hid & _).
  fold visit. rewrite Hrun. simpl.
  split.
  { unfold dispatchEvent. simpl. apply last_snoc. }
  split; [done|]. split.
  { unfold materialized.
    rewrite (materialized_perm _ idx visit Hps); [|].
    - rewrite Z.add_0_r. apply reflexive_eq, itemsWithTargetIn_ext.
      intros x. unfold visit. by rewrite forEachBlockInReverseOrder_perm.
    - unfold visit. by rewrite forEachBlockInReverseOrder_perm. }
  rewrite <- Hid. unfold dispatchModelUpdated, isActive, isMaxRowFound.
  by destruct (maxRowFound s1); simpl; destruct (active s1).
Qed.

Lemma insertItemsAtIndex_places_items_of_resident_blocks_witness :
  nextRowId (insertItemsAtIndex 3 [97; 98; 99] twoBlocks) = 5%nat.
Proof.
  destruct (insertItemsAtIndex_places_items_of_resident_blocks
              3 [97; 98; 99] twoBlocks twoBlocks_wf)
    as (payload & ds & _ & _ & Hds & Hid).
  rewrite Hid. apply Permutation_length in Hds. rewrite Hds. reflexivity.
Defined.

(** ** The insertion puts no row identity at two positions *)

Lemma insertItems_loop_fresh_order page idx :
  ∀ items k acc s,
    let ps := pageSize (cacheParams s) in
    let s' := snd (insertItems_loop page idx k items acc s) in
    wf s → resident s page →
    ∀ (i j : nat) idi di idj dj,
      (i < j < length items)%nat →
      (idx + k + Z.of_nat i) / ps = page → (idx + k + Z.of_nat j) / ps = page →
      slot s' (idx + k + Z.of_nat i) = Some (Row idi di) →
      slot s' (idx + k + Z.of_nat j) = Some (Row idj dj) →
      (idi < idj)%nat.
Proof.
  induction items as [|d items IH]; intros k acc s ps s' Hwf Hres i j idi di idj dj
    Hij Hpi Hpj Hsi Hsj; [simpl in Hij; lia|].
  assert (Hps : 0 < ps) by apply Hwf.
  subst s'. cbn [insertItems_loop length] in *.
  unfold getEndRow, getStartRow in *. fold ps in Hsi, Hsj.
  destruct j as [|j]; [lia|].
  assert (Hj' : (idx + k + Z.of_nat (S j)) = idx + (k + 1) + Z.of_nat j) by lia.
  rewrite Hj' in Hpj, Hsj.
  destruct ((page * ps <=? idx + k) && (idx + k <? page * ps + ps)) eqn:Hin.
  - pose proof (setNewData_spec page (idx + k) d s) as Hnew.
    destruct (setNewData page (idx + k) d s) as [node s1].
    destruct Hnew as (Hnode & He & Hsc1 & Hid1).
    pose proof (edits_shape _ _ _ _ He (writeSlot_keepsShape _ _ _)) as Hsh1.
    pose proof (shape_wf _ _ Hsh1 Hwf) as Hwf1.
    pose proof (shape_params _ _ Hsh1) as Hp1.
    assert (Hres1 : resident s1 page) by by apply (shape_resident _ _ _ Hsh1).
    specialize (IH (k + 1) (acc ++ [node]) s1).
    destruct (insertItems_loop_spec page idx items (k + 1) (acc ++ [node]) s1 Hwf1 Hres1)
      as (s' & Hrun & _ & _ & _ & Hslot & Hnewi & _).
    rewrite Hrun in Hsi, Hsj, IH. simpl in Hsi, Hsj, IH.
    rewrite Hp1 in Hslot, Hnewi, IH. fold ps in Hslot, Hnewi, IH.
    destruct i as [|i].
    + replace (idx + k + Z.of_nat 0) with (idx + k) in * by lia.
      rewrite Hslot in Hsi by lia.
      apply andb_true_iff in Hin as [H1%Z.leb_le H2%Z.ltb_lt].
      assert (Hpage : (idx + k) / ps = page) by (apply div_block; lia).
      rewrite <- Hpage in He, Hres.
      rewrite (edits_write_slot s s1 (idx + k) node (idx + k) Hwf Hres He) in Hsi.
      destruct (decide (idx + k = idx + k)); [|done].
      rewrite Hnode in Hsi. injection Hsi as <- <-.
      destruct (lookup_lt_is_Some_2 items j ltac:(lia)) as [d' Hd'].
      destruct (Hnewi j d' Hd' Hpj) as (id & Hs & Hrange).
      rewrite Hs in Hsj. injection Hsj as <- <-. lia.
    + assert (Hi' : (idx + k + Z.of_nat (S i)) = idx + (k + 1) + Z.of_nat i) by lia.
      rewrite Hi' in Hpi, Hsi.
      apply (IH Hwf1 Hres1 i j idi di idj dj); (lia || done).
  - specialize (IH (k + 1) acc s Hwf Hres). simpl in IH. fold ps in IH.
    destruct i as [|i].
    + exfalso. replace (idx + k + Z.of_nat 0) with (idx + k) in Hpi by lia.
      apply (div_block ps _ _ Hps) in Hpi.
      apply andb_false_iff in Hin as [H%Z.leb_gt|H%Z.ltb_ge]; lia.
    + assert (Hi' : (idx + k + Z.of_nat (S i)) = idx + (k + 1) + Z.of_nat i) by lia.
      rewrite Hi' in Hpi, Hsi.
      apply (IH i j idi di idj dj); (lia || done).
Qed.

Lemma insertItemsAtIndex_block_fresh_order idx items acc s page :
  let ps := pageSize (cacheParams s) in
  let s' := snd (insertItemsAtIndex_block idx items (acc, s) page) in
  wf s → resident s page →
  ∀ (i j : nat) idi di idj dj,
    (i < j < length items)%nat →
    (idx + Z.of_nat i) / ps = page → (idx + Z.of_nat j) / ps = page →
    slot s' (idx + Z.of_nat i) = Some (Row idi di) →
    slot s' (idx + Z.of_nat j) = Some (Row idj dj) →
    (idi < idj)%nat.
Proof.
  intros ps s' Hwf Hres i j idi di idj dj Hij Hpi Hpj Hsi Hsj. subst s'.
  assert (Hps : 0 < ps) by apply Hwf.
  unfold insertItemsAtIndex_block in Hsi, Hsj.
  destruct (getEndRow (cacheParams s) page <=? idx) eqn:Hskip.
  { exfalso. apply Z.leb_le in Hskip. unfold getEndRow, getStartRow in Hskip.
    fold ps in Hskip. apply (div_block ps _ _ Hps) in Hpi. lia. }
  destruct (moveItemsDown_spec page idx (Z.of_nat (length items)) s ltac:(lia) Hwf Hres)
    as (Hsh1 & _).
  set (s1 := moveItemsDown page idx (Z.of_nat (length items)) s) in *.
  pose proof (shape_wf _ _ Hsh1 Hwf) as Hwf1.
  pose proof (shape_params _ _ Hsh1) as Hp1.
  assert (Hres1 : resident s1 page) by by apply (shape_resident _ _ _ Hsh1).
  pose proof (insertItems_loop_fresh_order page idx items 0 [] s1 Hwf1 Hres1
                i j idi di idj dj Hij) as Hord.
  rewrite Hp1 in Hord. fold ps in Hord. rewrite !Z.add_0_r in Hord.
  unfold insertItems in Hsi, Hsj.
  destruct (insertItems_loop page idx 0 items [] s1) as [nodes s2].
  simpl in *. by apply Hord.
Qed.

Lemma insertItemsAtIndex_fold_fresh_distinct idx items :
  ∀ l acc s,
    let ps := pageSize (cacheParams s) in
    let s' := snd (fold_left (insertItemsAtIndex_block idx items) l (acc, s)) in
    wf s → StronglySorted (flip Z.lt) l → Forall (resident s) l →
    ∀ (i j : nat) idi di idj dj,
      i ≠ j → (i < length items)%nat → (j < length items)%nat →
      (idx + Z.of_nat i) / ps ∈ l → (idx + Z.of_nat j) / ps ∈ l →
      slot s' (idx + Z.of_nat i) = Some (Row idi di) →
      slot s' (idx + Z.of_nat j) = Some (Row idj dj) →
      idi ≠ idj.
Proof.
  induction l as [|page l IH]; intros acc s ps s' Hwf Hsorted Hres i j idi di idj dj
    Hne Hi Hj Hpi Hpj Hsi Hsj; [by apply elem_of_nil in Hpi|].
  subst s'. cbn [fold_left] in Hsi, Hsj.
  pose proof (insertItemsAtIndex_block_fresh_order idx items acc s page Hwf) as Hord.
  apply StronglySorted_inv in Hsorted as [Hsorted Hhd].
  apply Forall_cons in Hres as [Hrp Hres].
  specialize (Hord Hrp). fold ps in Hord.
  destruct (insertItemsAtIndex_block_spec idx items acc s page Hwf Hrp)
    as (s1 & Hrun1 & _ & Hsh1 & _ & _ & HN1 & _).
  fold ps in HN1. rewrite Hrun1 in Hsi, Hsj, Hord. simpl in Hord.
  pose proof (shape_wf _ _ Hsh1 Hwf) as Hwf1.
  pose proof (shape_params _ _ Hsh1) as Hp1.
  assert (Hres1 : Forall (resident s1) l).
  { eapply Forall_impl; [exact Hres|]. intros id. by apply shape_resident. }
  set (acc1 := acc ++ freshRows (nextRowId s)
                        (itemsInBlock (cacheParams s) page idx 0 items)) in *.
  specialize (IH acc1 s1 Hwf1 Hsorted Hres1). rewrite Hp1 in IH. fold ps in IH.
  destruct (insertItemsAtIndex_fold_spec idx items l acc1 s1 Hwf1 Hsorted Hres1)
    as (s' & Hrun & _ & Hsh & _ & _ & HN & _ & _ & HC).
  rewrite Hp1 in HN, HC. fold ps in HN, HC.
  rewrite Hrun in Hsi, Hsj, IH. simpl in Hsi, Hsj, IH.
  assert (Hkept : ∀ r, r / ps = page → slot s' r = slot s1 r).
  { intros r Hr. apply slot_getBlock_eq; [by apply shape_params|].
    rewrite Hp1. fold ps. rewrite Hr. apply HC. intros page' Hin. left.
    rewrite Forall_forall in Hhd. apply (Hhd page' Hin). }
  destruct (lookup_lt_is_Some_2 items i Hi) as [di' Hdi].
  destruct (lookup_lt_is_Some_2 items j Hj) as [dj' Hdj].
  apply elem_of_cons in Hpi as [Hpi|Hpi]; apply elem_of_cons in Hpj as [Hpj|Hpj].
  - rewrite (Hkept _ Hpi) in Hsi. rewrite (Hkept _ Hpj) in Hsj.
    destruct (decide (i < j)%nat).
    + pose proof (Hord i j idi di idj dj ltac:(lia) Hpi Hpj Hsi Hsj). lia.
    + pose proof (Hord j i idj dj idi di ltac:(lia) Hpj Hpi Hsj Hsi). lia.
  - rewrite (Hkept _ Hpi) in Hsi.
    destruct (HN1 i di' Hdi Hpi) as (id & Hs & Hr).
    destruct (HN j dj' Hdj Hpj) as (id' & Hs' & Hr').
    rewrite Hs in Hsi. rewrite Hs' in Hsj.
    injection Hsi as <- _. injection Hsj as <- _. lia.
  - rewrite (Hkept _ Hpj) in Hsj.
    destruct (HN1 j dj' Hdj Hpj) as (id & Hs & Hr).
    destruct (HN i di' Hdi Hpi) as (id' & Hs' & Hr').
    rewrite Hs in Hsj. rewrite Hs' in Hsi.
    injection Hsi as <- _. injection Hsj as <- _. lia.
  - by apply (IH i j idi di idj dj).
Qed.

Lemma insertItemsAtIndex_nextRowId_le idx items s :
  (nextRowId s ≤ nextRowId (insertItemsAtIndex idx items s))%nat.
Proof.
  unfold insertItemsAtIndex.
  destruct (insertItemsAtIndex_fold_frame idx items (forEachBlockInReverseOrder s) [] s)
    as (s1 & Hrun & Hid & _).
  rewrite Hrun. unfold dispatchModelUpdated, isActive, isMaxRowFound.
  destruct (maxRowFound s1); simpl; destruct (active s1); simpl; lia.
Qed.

Lemma insertItemsAtIndex_fresh_distinct idx items s :
  let ps := pageSize (cacheParams s) in
  let s' := insertItemsAtIndex idx items s in
  wf s →
  ∀ (i j : nat) idi di idj dj,
    i ≠ j → (i < length items)%nat → (j < length items)%nat →
    resident s ((idx + Z.of_nat i) / ps) → resident s ((idx + Z.of_nat j) / ps) →
    slot s' (idx + Z.of_nat i) = Some (Row idi di) →
    slot s' (idx + Z.of_nat j) = Some (Row idj dj) →
    idi ≠ idj.
Proof.
  intros ps s' Hwf i j idi di idj dj Hne Hi Hj Hri Hrj Hsi Hsj.
  destruct (insertItemsAtIndex_blocks idx items s) as (newNodes & s1 & Hfold & Hb & Hp).
  assert (Hslot : ∀ r, slot s' r = slot s1 r).
  { intros r. unfold s', slot, getBlock. by rewrite Hp, Hb. }
  rewrite Hslot in Hsi, Hsj.
  pose proof (insertItemsAtIndex_fold_fresh_distinct idx items
                (forEachBlockInReverseOrder s) [] s Hwf) as H.
  rewrite Hfold in H. simpl in H. fold ps in H.
  apply (H (forEachBlockInReverseOrder_sorted s (proj1 (proj2 Hwf)))
           ltac:(apply Forall_forall; intros id;
                 by rewrite forEachBlockInReverseOrder_resident)
           i j idi di idj dj); try done;
    by apply forEachBlockInReverseOrder_resident.
Qed.

(** Where a row of the cache comes from after the insertion: from the same
    position, before the index; from [length items] positions above, from
    [index + length items] on; or from this call, in between. *)
Lemma insertItemsAtIndex_row_origin idx items s r id d :
  let cnt := Z.of_nat (length items) in
  let s' := insertItemsAtIndex idx items s in
  wf s → slot s' r = Some (Row id d) →
  (r < idx ∧ slot s r = Some (Row id d))
  ∨ (idx + cnt ≤ r ∧ slot s (r - cnt) = Some (Row id d))
  ∨ (idx ≤ r < idx + cnt ∧ resident s (r / pageSize (cacheParams s))
     ∧ (nextRowId s ≤ id < nextRowId s')%nat).
Proof.
  intros cnt s' Hwf Hs.
  destruct (insertItemsAtIndex_spec idx items s Hwf) as (Hsh & HA & HN & HL & _).
  fold cnt s' in Hsh, HA, HN, HL.
  destruct (getBlock s (r / pageSize (cacheParams s))) as [b|] eqn:Hb.
  2:{ exfalso. rewrite (shape_slot_None s s' r Hsh) in Hs; [done|].
      intros [b Hb']. congruence. }
  assert (Hres : resident s (r / pageSize (cacheParams s))) by by eexists.
  destruct (decide (r < idx)) as [Hlt|Hge1].
  { left. split; [done|]. by rewrite <- HL. }
  destruct (decide (idx + cnt ≤ r)) as [Hge|Hlt2].
  { right. left. split; [done|]. destruct (HA r Hres Hge) as [Hs' _].
    rewrite Hs' in Hs. destruct (slot s (r - cnt)) as [n|]; simpl in Hs; congruence. }
  right. right. split; [lia|]. split; [done|].
  assert (Hi : (Z.to_nat (r - idx) < length items)%nat) by lia.
  destruct (lookup_lt_is_Some_2 items _ Hi) as [d' Hd'].
  assert (Hr : idx + Z.of_nat (Z.to_nat (r - idx)) = r) by lia.
  destruct (HN _ d' Hd') as (id' & Hs' & Hrange); [by rewrite Hr|].
  rewrite Hr, Hs in Hs'. by injection Hs' as -> _.
Qed.

(** X11.  If no row identity is at two positions of the cache, and every row
    identity in it is one that the counter has given out, then the same
    holds after [insertItemsAtIndex]: the shift and the new rows put no row
    identity at two positions. *)
Theorem insertItemsAtIndex_duplicates_no_row idx items s :
  let s' := insertItemsAtIndex idx items s in
  wf s → rowsDistinct s → idsBelow s →
  rowsDistinct s' ∧ idsBelow s'.
Proof.
  intros s' Hwf Hdist Hbelow.
  pose proof (insertItemsAtIndex_nextRowId_le idx items s) as Hle. fold s' in Hle.
  split.
  - intros r1 r2 id d1 d2 H1 H2.
    pose proof (insertItemsAtIndex_row_origin idx items s r1 id d1 Hwf H1) as O1.
    pose proof (insertItemsAtIndex_row_origin idx items s r2 id d2 Hwf H2) as O2.
    fold s' in O1, O2.
    destruct O1 as [[L1 S1]|[[L1 S1]|(L1 & R1 & B1)]];
      destruct O2 as [[L2 S2]|[[L2 S2]|(L2 & R2 & B2)]];
      try (pose proof (Hbelow _ _ _ S1); lia);
      try (pose proof (Hbelow _ _ _ S2); lia);
      try (pose proof (Hdist _ _ _ _ _ S1 S2); lia).
    destruct (decide (r1 = r2)) as [|Hne]; [done|]. exfalso.
    assert (E1 : idx + Z.of_nat (Z.to_nat (r1 - idx)) = r1) by lia.
    assert (E2 : idx + Z.of_nat (Z.to_nat (r2 - idx)) = r2) by lia.
    apply (insertItemsAtIndex_fresh_distinct idx items s Hwf
             (Z.to_nat (r1 - idx)) (Z.to_nat (r2 - idx)) id d1 id d2);
      rewrite ?E1, ?E2; (lia || done).
  - intros r id d H.
    pose proof (insertItemsAtIndex_row_origin idx items s r id d Hwf H) as O.
    fold s' in O.
    destruct O as [[_ S]|[[_ S]|(_ & _ & B)]];
      [pose proof (Hbelow _ _ _ S); lia | pose proof (Hbelow _ _ _ S); lia | lia].
Qed.

Lemma twoBlocks_rows :
  ∀ r, slot twoBlocks r
       = if decide (r = 0) then Some (Row 0 10)
         else if decide (r = 1) then Some (Row 1 11)
         else if decide (r = 2) then Some (Row 2 12)
         else if decide (r = 3) then Some (Row 3 13)
         else None.
Proof.
  intros r. unfold slot. simpl.
  destruct (decide (r = 0)) as [->|]; [done|].
  destruct (decide (r = 1)) as [->|]; [done|].
  destruct (decide (r = 2)) as [->|]; [done|].
  destruct (decide (r = 3)) as [->|]; [done|].
  destruct (getBlock twoBlocks (r `div` 2)) as [b|] eqn:Hb; [|done]. exfalso.
  assert (Hres : resident twoBlocks (r / 2)) by by eexists.
  apply resident_keys, list_elem_of_In in Hres. simpl in Hres.
  destruct Hres as [H|[H|[]]]; symmetry in H;
    apply (div_block 2 r _ ltac:(lia)) in H; lia.
Qed.

Lemma insertItemsAtIndex_duplicates_no_row_witness :
  rowsDistinct (insertItemsAtIndex 1 [98; 99] twoBlocks).
Proof.
  destruct (insertItemsAtIndex_duplicates_no_row 1 [98; 99] twoBlocks twoBlocks_wf)
    as [H _].
  - intros r1 r2 id d1 d2. rewrite !twoBlocks_rows.
    repeat destruct (decide _); intros [= ? ?] [= ? ?]; lia.
  - intros r id d. rewrite twoBlocks_rows.
    repeat destruct (decide _); intros [= ? ?]; simpl; lia.
  - exact H.
Defined.

(** ** The bound on the number of blocks *)

Lemma objsKept_refl s : objsKept s s.
Proof. done. Qed.

Lemma objsKept_trans s1 s2 s3 : objsKept s1 s2 → objsKept s2 s3 → objsKept s1 s3.
Proof. intros [? ?] [? ?]. split; congruence. Qed.

Lemma updateBlock_objsKept t F s :
  (∀ b, blockObj (F b) = blockObj b) → objsKept s (updateBlock t F s).
Proof.
  intros HF. split; [|done]. simpl. rewrite map_map. apply map_ext.
  intros b. by destruct (pageNumber b =? t).
Qed.

Lemma writeSlot_blockObj p r node b : blockObj (writeSlot p r node b) = blockObj b.
Proof. unfold writeSlot. by destruct (_ <? 0). Qed.

Lemma quiet_objsKept s s' : quiet s s' → objsKept s s'.
Proof.
  intros (_ & H & _ & _ & Hn & _). split; [|done].
  induction H as [|b b' l l' (Hb & _) _ IH]; simpl; [done|]. by rewrite Hb, IH.
Qed.

Lemma block_getRow_objsKept id r s : objsKept s (snd (block_getRow id r s)).
Proof.
  unfold block_getRow. destruct (getBlock s id) as [b|]; [|done]. simpl.
  set (s1 := set_lastAccessedSequence _ _).
  assert (H1 : objsKept s s1) by by apply updateBlock_objsKept.
  destruct (needsLoad b); [|done].
  eapply objsKept_trans; [exact H1|]. apply quiet_objsKept, load_quiet.
Qed.

Lemma getRow_true_objsKept r s : objsKept s (snd (getRow r true s)).
Proof.
  unfold getRow. destruct (getBlock s _); [apply block_getRow_objsKept | done].
Qed.

Lemma moveItemsDown_body_objsKept page last cnt s r :
  objsKept s (moveItemsDown_body page last cnt s r).
Proof.
  unfold moveItemsDown_body. destruct (r <? last); [done|].
  pose proof (getRow_true_objsKept (r - cnt) s) as H1.
  destruct (getRow (r - cnt) true s) as [[node|] s1]; simpl in H1.
  - eapply objsKept_trans; [exact H1|]. apply updateBlock_objsKept.
    intros b. apply writeSlot_blockObj.
  - eapply objsKept_trans; [exact H1|].
    eapply objsKept_trans; [|by apply updateBlock_objsKept].
    apply updateBlock_objsKept. intros b. apply writeSlot_blockObj.
Qed.

Lemma moveItemsDown_objsKept page idx cnt s : objsKept s (moveItemsDown page idx cnt s).
Proof.
  unfold moveItemsDown. generalize (rowsDownFrom (getEndRow (cacheParams s) page - 1)
    (Z.to_nat (getEndRow (cacheParams s) page - getStartRow (cacheParams s) page))).
  generalize (idx + cnt). intros last l. revert s.
  induction l as [|r l IH]; intros s; [done|]. simpl.
  eapply objsKept_trans; [apply moveItemsDown_body_objsKept | apply IH].
Qed.

Lemma insertItems_loop_objsKept page idx :
  ∀ items k acc s, objsKept s (snd (insertItems_loop page idx k items acc s)).
Proof.
  induction items as [|d items IH]; intros k acc s; [done|].
  cbn [insertItems_loop]. destruct (_ && _); [|apply IH].
  unfold setNewData. eapply objsKept_trans; [|apply IH].
  eapply objsKept_trans; [apply updateBlock_objsKept|done].
  intros b. apply writeSlot_blockObj.
Qed.

Lemma insertItemsAtIndex_objsKept idx items s :
  objsKept s (insertItemsAtIndex idx items s).
Proof.
  unfold insertItemsAtIndex.
  assert (H : ∀ l acc t,
             objsKept t (snd (fold_left (insertItemsAtIndex_block idx items) l (acc, t)))).
  { induction l as [|page l IH]; intros acc t; [done|]. cbn [fold_left].
    assert (Hb : objsKept t (snd (insertItemsAtIndex_block idx items (acc, t) page))).
    { unfold insertItemsAtIndex_block. destruct (_ <=? idx); [done|].
      pose proof (insertItems_loop_objsKept page idx items 0 []
                    (moveItemsDown page idx (Z.of_nat (length items)) t)) as H2.
      unfold insertItems. destruct (insertItems_loop _ _ _ _ _ _) as [nodes t2].
      simpl in *. eapply objsKept_trans; [apply moveItemsDown_objsKept | exact H2]. }
    destruct (insertItemsAtIndex_block idx items (acc, t) page) as [acc1 t1].
    simpl in Hb. eapply objsKept_trans; [exact Hb | apply IH]. }
  specialize (H (forEachBlockInReverseOrder s) [] s).
  destruct (fold_left _ _ _) as [newNodes s1]. simpl in H.
  unfold dispatchModelUpdated, isActive, isMaxRowFound.
  destruct H as [H1 H2].
  by destruct (maxRowFound s1); simpl; destruct (active s1).
Qed.

Lemma refreshCache_objsKept s : objsKept s (refreshCache s).
Proof.
  unfold refreshCache, forEachBlockInOrder. rewrite markDirty_fold.
  eapply objsKept_trans; [|apply quiet_objsKept, checkBlockToLoad_quiet].
  split; [|done]. simpl. rewrite map_map. apply map_ext.
  intros b. by destruct (bool_decide _).
Qed.

Lemma fetchResolves_objsKept obj result s : objsKept s (fetchResolves obj result s).
Proof.
  unfold fetchResolves. destruct (bool_decide _); [|done].
  destruct result; (split; [|done]); simpl; rewrite map_map; apply map_ext;
    intros b; by destruct (Nat.eqb _ _).
Qed.

Lemma fetchResolves_params obj result s :
  cacheParams (fetchResolves obj result s) = cacheParams s.
Proof. unfold fetchResolves. destruct (bool_decide _); [|done]. by destruct result. Qed.

Lemma withinBound_kept s s' :
  wf s' → objsKept s s' → cacheParams s' = cacheParams s →
  withinBound s → withinBound s'.
Proof.
  intros Hwf' [Ho Hn] Hp (_ & Hfresh & Hbound). split; [done|]. split.
  - unfold objsFresh in *. rewrite Hn.
    apply (Forall_fmap blockObj (fun o => (o < nextBlockObj s)%nat)).
    apply (Forall_fmap blockObj (fun o => (o < nextBlockObj s)%nat)) in Hfresh.
    change (blockObj <$> blocks s') with (map blockObj (blocks s')). by rewrite Ho.
  - intros m Hm H1. rewrite Hp in Hm. specialize (Hbound m Hm H1).
    unfold getBlockCount in *.
    rewrite <- (length_map blockObj (blocks s')), Ho, length_map. done.
Qed.

Lemma createBlock_inserted_nextBlockObj id s :
  nextBlockObj (createBlock_inserted id s) = S (nextBlockObj s).
Proof. unfold createBlock_inserted, setBlock. by destruct (getBlock _ id). Qed.

Lemma withinBound_createBlock id s :
  getBlock s id = None → withinBound s → withinBound (createBlock id s).
Proof.
  intros Hnone (Hwf & Hfresh & Hbound).
  split; [by apply wf_createBlock|].
  pose proof (checkBlockToLoad_quiet (createBlock_evicted id s)) as Hq.
  pose proof (quiet_objsKept _ _ Hq) as [Ho Hn].
  set (nb := new_InfiniteBlock (nextBlockObj s) id (cacheParams s)).
  assert (Hfresh3 : Forall (fun b => (blockObj b < S (nextBlockObj s))%nat)
                      (blocks (createBlock_inserted id s))).
  { rewrite createBlock_inserted_blocks by done. apply Forall_app. split.
    - eapply Forall_impl; [exact Hfresh|]. simpl. intros; lia.
    - constructor; [simpl; lia | done]. }
  split.
  - unfold objsFresh. rewrite createBlock_unfold, Hn.
    apply (Forall_fmap blockObj (fun o => (o < _)%nat)).
    change (blockObj <$> blocks (checkBlockToLoad (createBlock_evicted id s)))
      with (map blockObj (blocks (checkBlockToLoad (createBlock_evicted id s)))).
    rewrite Ho. apply (Forall_fmap blockObj (fun o => (o < _)%nat)).
    unfold createBlock_evicted. fold nb.
    destruct (needToPurge _).
    + destruct (findLeastRecentlyUsedPage _ _) as [lru|]; simpl;
        rewrite createBlock_inserted_nextBlockObj; [|done].
      apply Forall_forall. intros b [_ Hb]%list_elem_of_filter.
      rewrite Forall_forall in Hfresh3. by apply Hfresh3.
    + by rewrite createBlock_inserted_nextBlockObj.
  - intros m Hm H1.
    destruct (createBlock_resident id s Hnone) as (_ & _ & _ & Hp).
    rewrite Hp in Hm. specialize (Hbound m Hm H1).
    assert (Hcount : getBlockCount (createBlock id s)
                     = getBlockCount (createBlock_evicted id s)).
    { unfold getBlockCount. f_equal. rewrite createBlock_unfold.
      rewrite <- (length_map blockObj (blocks (checkBlockToLoad _))), Ho.
      by rewrite length_map. }
    rewrite Hcount. unfold createBlock_evicted. fold nb.
    rewrite needToPurge_inserted by done. rewrite Hm.
    assert (Hcount3 : getBlockCount (createBlock_inserted id s) = getBlockCount s + 1).
    { unfold getBlockCount. rewrite createBlock_inserted_blocks by done.
      rewrite length_app. simpl. lia. }
    destruct (Z.ltb_spec m (getBlockCount s + 1)) as [Hover|Hroom]; [|lia].
    pose proof (findLeastRecentlyUsedPage_spec nb (createBlock_inserted id s)) as Hspec.
    unfold forEachBlockInOrder in Hspec.
    rewrite createBlock_inserted_blocks in Hspec by done.
    destruct (blocks s) as [|b0 bs] eqn:Hbs.
    { unfold getBlockCount in Hover. rewrite Hbs in Hover. simpl in Hover. lia. }
    assert (Hb0 : b0 ∈ candidates nb ((b0 :: bs) ++ [nb])).
    { apply list_elem_of_filter. split; [|by left].
      unfold objsFresh in Hfresh. rewrite ?Hbs in Hfresh.
      apply Forall_inv in Hfresh. simpl in *. lia. }
    revert Hspec Hb0. fold nb.
    destruct (candidates nb ((b0 :: bs) ++ [nb])) as [|a c];
      intros Hspec Hb0; [by apply elem_of_nil in Hb0|].
    destruct Hspec as (lru & Hlru & _). rewrite Hlru.
    destruct (lru_not_new id s lru Hnone Hlru) as (Hin & Hne & _).
    unfold removeBlockFromCache, removeBlock, getBlockCount. simpl.
    rewrite createBlock_inserted_blocks by done. rewrite Hbs.
    rewrite <- (length_map pageNumber), keys_filter, map_app, filter_app, length_app.
    replace (map pageNumber [new_InfiniteBlock (nextBlockObj s) id (cacheParams s)])
      with [id] by done.
    rewrite filter_cons, filter_nil.
    destruct (decide (id ≠ pageNumber lru)) as [_|Hnn]; [|exfalso; apply Hnn; congruence].
    assert (Hlen : S (length (filter (fun n => n ≠ pageNumber lru)
                                (map pageNumber (b0 :: bs))))
                   = length (map pageNumber (b0 :: bs))).
    { apply filter_ne_length.
      - destruct Hwf as (_ & Hnd & _). unfold keys in Hnd. by rewrite Hbs in Hnd.
      - apply list_elem_of_fmap. exists lru. split; [done|]. by rewrite <- Hbs. }
    unfold getBlockCount in Hbound. rewrite Hbs in Hbound.
    rewrite length_map in Hlen. cbn [length] in *. lia.
Qed.

Lemma withinBound_getRow r dontCreatePage s :
  withinBound s → withinBound (snd (getRow r dontCreatePage s)).
Proof.
  intros Hc. pose proof Hc as (Hwf & _).
  pose proof (wf_getRow r dontCreatePage s Hwf) as Hwf'.
  destruct (getBlock s (r / pageSize (cacheParams s))) as [b|] eqn:Hb.
  - assert (Hres : resident s (r / pageSize (cacheParams s))) by by eexists.
    destruct (getRow_resident r dontCreatePage s Hres) as (s' & Hrun & Hsh & _).
    apply (withinBound_kept s); [done| |by rewrite Hrun; apply shape_params|done].
    unfold getRow. rewrite Hb. apply block_getRow_objsKept.
  - destruct dontCreatePage.
    + unfold getRow. by rewrite Hb.
    + revert Hwf'. unfold getRow. rewrite Hb. intros Hwf'.
      set (id := r / pageSize (cacheParams s)) in *.
      destruct (block_getRow_spec id r (createBlock id s)) as (F & s' & Hrun & _ & He & _).
      apply (withinBound_kept (createBlock id s)); [done| | |].
      * apply block_getRow_objsKept.
      * rewrite Hrun. simpl. apply He.
      * by apply withinBound_createBlock.
Qed.

Lemma withinBound_reachable s : reachable s → withinBound s.
Proof.
  induction 1 as [params Hps|r dc s _ IH|idx items s _ IH|s _ IH|s _ IH|obj result s _ IH].
  - apply withinBound_getRow. split; [by apply wf_new_InfiniteCache|].
    split; [by constructor|]. intros m _ Hm. unfold getBlockCount. simpl. lia.
  - by apply withinBound_getRow.
  - pose proof IH as (Hwf & _).
    apply (withinBound_kept s); [by apply wf_insertItemsAtIndex| | |done].
    + apply insertItemsAtIndex_objsKept.
    + destruct (insertItemsAtIndex_spec idx items s Hwf) as (Hsh & _).
      by apply shape_params.
  - pose proof IH as (Hwf & _).
    apply (withinBound_kept s); [by apply wf_refreshCache| | |done].
    + apply refreshCache_objsKept.
    + unfold refreshCache.
      rewrite (proj1 (checkBlockToLoad_quiet _)).
      apply (shape_params _ _ (wf_setDirty_fold _ _)).
  - pose proof IH as (Hwf & Hfresh & Hbound).
    split; [by apply wf_purgeCache|]. rewrite purgeCache_eq.
    split; [by constructor|]. intros m Hm H1. unfold getBlockCount. simpl. lia.
  - pose proof IH as (Hwf & _).
    apply (withinBound_kept s); [by apply wf_fetchResolves| | |done].
    + apply fetchResolves_objsKept.
    + apply fetchResolves_params.
Qed.

(** X16.  With [maxBlocksInCache] set to a bound of at least one block, the cache
    never holds more blocks than the bound: not after [init], and not after
    any sequence of reads, insertions, refreshes, purges and answers of the
    datasource. *)
Theorem reachable_within_maxBlocksInCache s m :
  reachable s → maxBlocksInCache (cacheParams s) = Some m → 1 ≤ m →
  getBlockCount s ≤ m.
Proof. intros Hr Hm H1. destruct (withinBound_reachable s Hr) as (_ & _ & H). by apply H. Qed.

Lemma reachable_within_maxBlocksInCache_witness :
  getBlockCount
    (snd (getRow 4 false
       (snd (getRow 2 false (init (new_InfiniteCache (mkParams 2 (Some 2))))))))
  ≤ 2.
Proof.
  apply reachable_within_maxBlocksInCache.
  - do 2 apply reachable_getRow. apply reachable_init. simpl. lia.
  - reflexivity.
  - lia.
Defined.

(** ** Which blocks the insertion marks dirty *)

Lemma moveItemsDown_body_dirty page last cnt s r id :
  let ps := pageSize (cacheParams s) in
  let s' := moveItemsDown_body page last cnt s r in
  wf s →
  shape s' = shape s
  ∧ (dirtyAt s id = true → dirtyAt s' id = true)
  ∧ (dirtyAt s' id = true →
       dirtyAt s id = true
       ∨ (id = page ∧ last ≤ r ∧ getBlock s ((r - cnt) / ps) = None)).
Proof.
  intros ps s' Hwf. subst s'. unfold moveItemsDown_body.
  destruct (r <? last) eqn:Hlt; [by auto|]. apply Z.ltb_ge in Hlt.
  destruct (getRow_true_spec (r - cnt) s) as (F & s1 & Hg & HF & He & _).
  rewrite Hg. fold ps in He.
  pose proof (keepsData_keepsShape _ HF) as HFs.
  pose proof (edits_shape _ _ _ _ He HFs) as Hsh1.
  pose proof (edits_keeps_dirty _ _ _ _ id He HF) as Hd1.
  destruct (slot s (r - cnt)) as [node|] eqn:Hsrc.
  - pose proof (setRowNode_edits page r node s1) as He2.
    pose proof (dirtyAt_writeSlot _ _ _ _ _ _ id He2) as Hd2.
    split; [by rewrite (edits_shape _ _ _ _ He2 (writeSlot_keepsShape _ _ _))|].
    rewrite Hd2, Hd1. by auto.
  - pose proof (setRowNode_edits page r BlankRow s1) as He2.
    change (setRowNode page r BlankRow s1) with (setBlankRowNode page r s1) in He2.
    pose proof (setDirty_edits page (setBlankRowNode page r s1)) as He3.
    pose proof (dirtyAt_writeSlot _ _ _ _ _ _ id He2) as Hd2.
    pose proof (edits_shape _ _ _ _ He2 (writeSlot_keepsShape _ _ _)) as Hsh2.
    pose proof (edits_shape _ _ _ _ He3 markDirty_keepsShape) as Hsh3.
    split; [by rewrite Hsh3, Hsh2|]. split.
    + intros Hd. apply (dirtyAt_markDirty_mono _ _ _ _ He3). by rewrite Hd2, Hd1.
    + intros Hd. destruct (decide (id = page)) as [->|Hne].
      * right. split; [done|]. split; [done|]. by apply (slot_None s (r - cnt) Hwf).
      * left. rewrite (dirtyAt_markDirty_other _ _ _ _ He3 Hne) in Hd.
        by rewrite Hd2, Hd1 in Hd.
Qed.

Lemma moveItemsDown_fold_dirty page last cnt id l :
  ∀ s,
    let ps := pageSize (cacheParams s) in
    let s' := fold_left (moveItemsDown_body page last cnt) l s in
    wf s →
    shape s' = shape s
    ∧ (dirtyAt s id = true → dirtyAt s' id = true)
    ∧ (dirtyAt s' id = true →
         dirtyAt s id = true
         ∨ (id = page ∧ ∃ r, r ∈ l ∧ last ≤ r ∧ getBlock s ((r - cnt) / ps) = None)).
Proof.
  induction l as [|r l IH]; intros s ps s' Hwf; subst s'; [by auto|]. simpl.
  destruct (moveItemsDown_body_dirty page last cnt s r id Hwf) as (Hsh1 & Hm1 & Ho1).
  fold ps in Ho1.
  set (s1 := moveItemsDown_body page last cnt s r) in *.
  destruct (IH s1 (shape_wf _ _ Hsh1 Hwf)) as (Hsh & Hm & Ho).
  rewrite (shape_params _ _ Hsh1) in Ho. fold ps in Ho.
  split; [by rewrite Hsh|]. split; [by auto|].
  intros Hd. destruct (Ho Hd) as [Hd1|(-> & r' & Hin & Hge & Hnone)].
  - destruct (Ho1 Hd1) as [?|(-> & ? & ?)]; [by left|].
    right. split; [done|]. exists r. split; [by left | done].
  - right. split; [done|]. exists r'. split; [by right|]. split; [done|].
    by apply (shape_getBlock_None _ _ _ Hsh1).
Qed.

Lemma rowsDownFrom_elem_of (last : Z) (count : nat) r :
  r ∈ rowsDownFrom last count → last - Z.of_nat count < r ≤ last.
Proof.
  revert last. induction count as [|count IH]; intros last; simpl.
  - by intros ?%elem_of_nil.
  - intros [->|Hin]%elem_of_cons; [lia|]. apply IH in Hin. lia.
Qed.

Lemma insertItemsAtIndex_block_dirty idx items acc s page id :
  let ps := pageSize (cacheParams s) in
  let cnt := Z.of_nat (length items) in
  let s' := snd (insertItemsAtIndex_block idx items (acc, s) page) in
  wf s → resident s page →
  shape s' = shape s
  ∧ (dirtyAt s id = true → dirtyAt s' id = true)
  ∧ (dirtyAt s' id = true →
       dirtyAt s id = true
       ∨ (id = page ∧ ∃ r, r / ps = page ∧ idx + cnt ≤ r
                           ∧ getBlock s ((r - cnt) / ps) = None)).
Proof.
  intros ps cnt s' Hwf Hres. subst s'. unfold insertItemsAtIndex_block.
  destruct (getEndRow (cacheParams s) page <=? idx); [by auto|]. fold cnt.
  assert (Hps : 0 < ps) by apply Hwf.
  destruct (moveItemsDown_fold_dirty page (idx + cnt) cnt id
              (rowsDownFrom (getEndRow (cacheParams s) page - 1)
                 (Z.to_nat (getEndRow (cacheParams s) page
                            - getStartRow (cacheParams s) page))) s Hwf)
    as (Hsh1 & Hm1 & Ho1).
  fold ps in Ho1. fold (moveItemsDown page idx cnt s) in Hsh1, Hm1, Ho1.
  set (s1 := moveItemsDown page idx cnt s) in *.
  pose proof (shape_wf _ _ Hsh1 Hwf) as Hwf1.
  assert (Hres1 : resident s1 page) by by apply (shape_resident _ _ _ Hsh1).
  unfold insertItems.
  destruct (insertItems_loop_spec page idx items 0 [] s1 Hwf1 Hres1)
    as (s2 & Hrun & _ & Hsh & _ & _ & _ & Hd & _).
  rewrite Hrun. simpl. rewrite Hd.
  split; [by rewrite Hsh|]. split; [done|].
  intros Hdirty. destruct (Ho1 Hdirty) as [?|(-> & r & Hin & Hge & Hnone)]; [by left|].
  right. split; [done|]. exists r. split; [|done].
  apply rowsDownFrom_elem_of in Hin. unfold getEndRow, getStartRow in Hin. fold ps in Hin.
  apply div_block; [done|]. lia.
Qed.

Lemma insertItemsAtIndex_fold_dirty idx items id :
  ∀ l acc s,
    let ps := pageSize (cacheParams s) in
    let cnt := Z.of_nat (length items) in
    let s' := snd (fold_left (insertItemsAtIndex_block idx items) l (acc, s)) in
    wf s → Forall (resident s) l →
    shape s' = shape s
    ∧ (dirtyAt s id = true → dirtyAt s' id = true)
    ∧ (dirtyAt s' id = true →
         dirtyAt s id = true
         ∨ (∃ r, r / ps = id ∧ idx + cnt ≤ r ∧ getBlock s ((r - cnt) / ps) = None)).
Proof.
  induction l as [|page l IH]; intros acc s ps cnt s' Hwf Hres; subst s'; [by auto|].
  cbn [fold_left]. apply Forall_cons in Hres as [Hrp Hres].
  destruct (insertItemsAtIndex_block_dirty idx items acc s page id Hwf Hrp)
    as (Hsh1 & Hm1 & Ho1).
  fold ps cnt in Ho1.
  destruct (insertItemsAtIndex_block idx items (acc, s) page) as [acc1 s1].
  simpl in Hsh1, Hm1, Ho1.
  assert (Hres1 : Forall (resident s1) l).
  { eapply Forall_impl; [exact Hres|]. intros k. by apply shape_resident. }
  destruct (IH acc1 s1 (shape_wf _ _ Hsh1 Hwf) Hres1) as (Hsh & Hm & Ho).
  rewrite (shape_params _ _ Hsh1) in Ho. fold ps cnt in Ho.
  split; [by rewrite Hsh|]. split; [by auto|].
  intros Hd. destruct (Ho Hd) as [Hd1|(r & Hr & Hge & Hnone)].
  - destruct (Ho1 Hd1) as [?|(-> & r & ? & ? & ?)]; [by left|]. right. by exists r.
  - right. exists r. split; [done|]. split; [done|].
    by apply (shape_getBlock_None _ _ _ Hsh1).
Qed.

(** X12.  [insertItemsAtIndex] clears no dirty flag, and it marks a block dirty
    only for a blank that it had to write: a block that is dirty after the
    call was dirty before, or has a position at or beyond
    [index + length items] whose source position is in no resident block. *)
Theorem insertItemsAtIndex_dirty_only_for_missing_source idx items s id :
  let ps := pageSize (cacheParams s) in
  let cnt := Z.of_nat (length items) in
  let s' := insertItemsAtIndex idx items s in
  wf s →
  (dirtyAt s id = true → dirtyAt s' id = true)
  ∧ (dirtyAt s' id = true →
       dirtyAt s id = true
       ∨ (∃ r, r / ps = id ∧ idx + cnt ≤ r ∧ getBlock s ((r - cnt) / ps) = None)).
Proof.
  intros ps cnt s' Hwf.
  destruct (insertItemsAtIndex_blocks idx items s) as (newNodes & s1 & Hfold & Hb & _).
  assert (Hd : dirtyAt s' id = dirtyAt s1 id).
  { unfold s', dirtyAt, getBlock. by rewrite Hb. }
  pose proof (insertItemsAtIndex_fold_dirty idx items id
                (forEachBlockInReverseOrder s) [] s Hwf) as H.
  rewrite Hfold in H. simpl in H. fold ps cnt in H. rewrite Hd. apply H.
  apply Forall_forall. intros k. by rewrite forEachBlockInReverseOrder_resident.
Qed.

Lemma insertItemsAtIndex_dirty_only_for_missing_source_witness :
  dirtyAt (insertItemsAtIndex 1 [99] twoBlocks) 1 = false.
Proof.
  destruct (insertItemsAtIndex_dirty_only_for_missing_source 1 [99] twoBlocks 1
              twoBlocks_wf) as [_ H].
  destruct (dirtyAt (insertItemsAtIndex 1 [99] twoBlocks) 1) eqn:E; [|reflexivity].
  exfalso. destruct (H eq_refl) as [Hd|(r & Hr & Hge & Hnone)].
  - vm_compute in Hd. discriminate Hd.
  - simpl in Hr, Hge, Hnone. change (Z.of_nat 1) with 1 in Hge, Hnone.
    assert (Hsrc : (r - 1) / 2 = 0 ∨ (r - 1) / 2 = 1).
    { apply (div_block 2 r 1 ltac:(lia)) in Hr.
      destruct (decide (r = 2)) as [->|]; [by left|]. right. apply div_block; lia. }
    destruct Hsrc as [Hs|Hs]; rewrite Hs in Hnone; vm_compute in Hnone; discriminate Hnone.
Defined.

Lemma reachable_wf_witness :
  wf (insertItemsAtIndex 0 [7] (init (new_InfiniteCache (mkParams 2 None)))).
Proof.
  apply reachable_wf. apply reachable_insertItemsAtIndex, reachable_init. simpl. lia.
Defined.
